(** * KZG polynomial commitments over BLS12-381: model and verification

    A shallow embedding of the TypeScript sources
    [src/PolynomialCommitmentScheme/Kzg.ts], [CheatingKzg.ts], the hiding
    variant [ZkKzg], [src/PolynomialCommitmentScheme.ts] and the polynomial
    helpers [evalPolyAt], [addPoly], [mulPoly] and [lagrangeInterpolation],
    followed by the properties stated for them.

    JavaScript [bigint] is [Z]; arrays are lists read with stdpp's lookup and
    written with stdpp's insert; a thrown exception is the [Throw] outcome of
    the result monad [Res]. The calls into the curve library keep their
    failures: [multiply] throws on a scalar outside [1, r) and [pairing]
    throws on the identity point. *)

From Stdlib Require Import ZArith Znumtheory Zcong Zmod Lia.
From stdpp Require Import base tactics option list.

Local Open Scope Z_scope.

(** ** Exceptions and the result monad *)

Inductive Exn : Type :=
| AssertionError   (* assert(cond) with a false condition *)
| RangeError       (* new Array(n) with n < 0; a scalar outside [1, r) *)
| TypeError        (* a method call or an arithmetic operation on undefined *)
| InvertError      (* inverse of the additive identity of the field *)
| PairingError.    (* pairing of the identity point of either group *)

Inductive Res (A : Type) : Type :=
| Ok (a : A)
| Throw (e : Exn).
Arguments Ok {A} a.
Arguments Throw {A} e.

#[global] Instance Res_ret : MRet Res := fun A a => Ok a.
#[global] Instance Res_bind : MBind Res := fun A B k m =>
  match m with
  | Ok a => k a
  | Throw e => Throw e
  end.

Definition returns {A} (m : Res A) : Prop := exists a, m = Ok a.

(** Modelled from the spec: [assert(cond)] of [src/assert.ts] (imported by
    the sources, not under src/): a fatal precondition failure when the
    condition is false. *)
Definition assert (cond : bool) : Res unit :=
  if cond then Ok tt else Throw AssertionError.

(** [a[i]] used as a receiver or an operand: [undefined] past the end of
    the array, on which the next operation throws a [TypeError]. *)
Definition index {A} (a : list A) (i : nat) : Res A :=
  match a !! i with
  | Some x => Ok x
  | None => Throw TypeError
  end.

(** [new Array(n)]: [n] holes, a [RangeError] for a negative [n]. *)
Definition new_Array {A} (n : Z) : Res (list (option A)) :=
  if n <? 0 then Throw RangeError else Ok (replicate (Z.to_nat n) None).

(** An array whose slots have all been assigned, as a [bigint[]]; a hole
    left in it is [undefined] and throws where it is first used. *)
Fixpoint filled {A} (a : list (option A)) : Res (list A) :=
  match a with
  | [] => Ok []
  | Some x :: a' => l ← filled a'; Ok (x :: l)
  | None :: _ => Throw TypeError
  end.

(** [for (let i = start; i < start + count; i++) s = body(i, s)]. *)
Fixpoint for_range {St} (start count : nat) (body : nat -> St -> Res St)
    (s : St) : Res St :=
  match count with
  | O => Ok s
  | S c => s' ← body start s; for_range (S start) c body s'
  end.

(** [for (let i = from; i > 0; i--) s = body(i, s)]. *)
Fixpoint for_down {St} (from : nat) (body : nat -> St -> Res St) (s : St)
  : Res St :=
  match from with
  | O => Ok s
  | S j => s' ← body (S j) s; for_down j body s'
  end.

(** ** The algebra library *)

Module noble.

(** Modelled from the spec: [mod(a, b)] of the field library
    (@noble/curves, not under src/), the non-negative residue, written
    with JavaScript's truncating [%]. *)
Definition mod_ (a b : Z) : Z :=
  let result := Z.rem a b in
  if 0 <=? result then result else b + result.

(** Modelled from the spec: the interface [IField<bigint>] of the field
    library (not under src/): add, sub, mul, neg and the identities; [inv]
    and [div] fail fatally at the additive identity. *)
Record IField : Type := {
  ORDER : Z;
  ZERO : Z;
  ONE : Z;
  add : Z -> Z -> Z;
  sub : Z -> Z -> Z;
  mul : Z -> Z -> Z;
  neg : Z -> Z;
  inv : Z -> Res Z;
  div : Z -> Z -> Res Z
}.

(** Modelled from the spec: [invert(number, modulo)] of the field library
    (not under src/): the multiplicative inverse modulo [modulo], failing
    fatally when [number] is the additive identity. *)
Definition invert (number modulo : Z) : Res Z :=
  if mod_ number modulo =? 0 then Throw InvertError
  else Ok (Z.invmod number modulo).

(** Modelled from the spec: [Field(ORDER)] of the field library (not
    under src/): arithmetic modulo [ORDER]. *)
Definition Field (ORDER : Z) : IField := {|
  ORDER := ORDER;
  ZERO := 0;
  ONE := 1;
  add := fun lhs rhs => mod_ (lhs + rhs) ORDER;
  sub := fun lhs rhs => mod_ (lhs - rhs) ORDER;
  mul := fun lhs rhs => mod_ (lhs * rhs) ORDER;
  neg := fun num => mod_ (- num) ORDER;
  inv := fun num => invert num ORDER;
  div := fun lhs rhs => i ← invert rhs ORDER; Ok (mod_ (lhs * i) ORDER)
|}.

End noble.

Module galois.

(** Modelled from the spec: the prime field object returned by
    [galois.createPrimeField(modulus)] (@guildofweavers/galois, not under
    src/): [zero], and [add] and [mul] reduced by its own [mod]. *)
Record FiniteField : Type := {
  modulus : Z;
  zero : Z;
  add : Z -> Z -> Z;
  mul : Z -> Z -> Z
}.

(** Modelled from the spec: the reduction [mod(value)] of that field
    object, the non-negative residue, written with JavaScript's truncating
    [%]. *)
Definition mod_ (modulus value : Z) : Z :=
  if 0 <=? value then Z.rem value modulus
  else Z.rem (Z.rem value modulus + modulus) modulus.

(** Modelled from the spec: [galois.createPrimeField(modulus)]. *)
Definition createPrimeField (modulus : Z) : FiniteField := {|
  modulus := modulus;
  zero := 0;
  add := fun x y => mod_ modulus (x + y);
  mul := fun x y => mod_ modulus (x * y)
|}.

End galois.

Module bls12_381.

(** Modelled from the spec: the order [r] of the scalar field of
    BLS12-381, the constant [bls12_381.fields.Fr.ORDER] of the curve
    library (not under src/). *)
Definition r : Z :=
  0x73eda753299d7d483339d80809a1d80553bda402fffe5bfeffffffff00000001.

Definition Fr : noble.IField := noble.Field r.

(** Modelled from the spec: the group side of the curve library
    (@noble/curves, not under src/): two groups of prime order [r] with
    generators [BASE] and identities [ZERO], point addition and
    subtraction, the test [is0] for the identity, and a bilinear map into
    a target group compared with [Fp12_eql]. [g1_mul], [g2_mul] and [pair]
    are the mathematical scalar multiplication and pairing, defined
    everywhere; the methods [multiply] and [pairing] that the sources call
    are defined from them below, with the inputs the library refuses. The
    laws are the contract of section 6 of the specification;
    [Exponent.curve] below is an instance. *)
Class Curve : Type := {
  PointG1 : Type;
  PointG2 : Type;
  Fp12 : Type;
  G1_BASE : PointG1;
  G1_ZERO : PointG1;
  g1_add : PointG1 -> PointG1 -> PointG1;
  g1_subtract : PointG1 -> PointG1 -> PointG1;
  g1_mul : PointG1 -> Z -> PointG1;
  g1_is0 : PointG1 -> bool;
  G2_BASE : PointG2;
  G2_ZERO : PointG2;
  g2_add : PointG2 -> PointG2 -> PointG2;
  g2_subtract : PointG2 -> PointG2 -> PointG2;
  g2_mul : PointG2 -> Z -> PointG2;
  g2_is0 : PointG2 -> bool;
  pair : PointG1 -> PointG2 -> Fp12;
  Fp12_pow : Fp12 -> Z -> Fp12;
  Fp12_eql : Fp12 -> Fp12 -> bool;
  (* G1 is a cyclic group of order r generated by BASE *)
  g1_add_comm : forall P Q, g1_add P Q = g1_add Q P;
  g1_add_assoc : forall P Q R, g1_add P (g1_add Q R) = g1_add (g1_add P Q) R;
  g1_add_zero : forall P, g1_add G1_ZERO P = P;
  g1_subtract_add : forall P Q, g1_add (g1_subtract P Q) Q = P;
  g1_mul_one : forall P, g1_mul P 1 = P;
  g1_mul_add : forall P a b,
    g1_mul P (a + b) = g1_add (g1_mul P a) (g1_mul P b);
  g1_mul_mul : forall P a b, g1_mul (g1_mul P a) b = g1_mul P (a * b);
  g1_order : forall P, g1_mul P r = G1_ZERO;
  g1_cyclic : forall P, exists k, P = g1_mul G1_BASE k;
  g1_is0_spec : forall P, g1_is0 P = true <-> P = G1_ZERO;
  (* and so is G2 *)
  g2_add_comm : forall P Q, g2_add P Q = g2_add Q P;
  g2_add_assoc : forall P Q R, g2_add P (g2_add Q R) = g2_add (g2_add P Q) R;
  g2_add_zero : forall P, g2_add G2_ZERO P = P;
  g2_subtract_add : forall P Q, g2_add (g2_subtract P Q) Q = P;
  g2_mul_one : forall P, g2_mul P 1 = P;
  g2_mul_add : forall P a b,
    g2_mul P (a + b) = g2_add (g2_mul P a) (g2_mul P b);
  g2_mul_mul : forall P a b, g2_mul (g2_mul P a) b = g2_mul P (a * b);
  g2_order : forall P, g2_mul P r = G2_ZERO;
  g2_cyclic : forall P, exists k, P = g2_mul G2_BASE k;
  g2_is0_spec : forall P, g2_is0 P = true <-> P = G2_ZERO;
  (* the pairing is bilinear and e(G1, G2) has order exactly r *)
  pair_bilinear : forall P Q a b,
    pair (g1_mul P a) (g2_mul Q b) = Fp12_pow (pair P Q) (a * b);
  pair_order : forall a b,
    Fp12_pow (pair G1_BASE G2_BASE) a = Fp12_pow (pair G1_BASE G2_BASE) b
    <-> a mod r = b mod r;
  Fp12_eql_spec : forall x y, Fp12_eql x y = true <-> x = y
}.

(** The scalars that [multiply] accepts: [1 <= scalar < r]. *)
Definition valid_scalar (scalar : Z) : bool := (1 <=? scalar) && (scalar <? r).

Section Library.
Context {curve : Curve}.

(** Modelled from the spec: [P.multiply(scalar)] of the curve library (not
    under src/) on a point of G1: the scalar multiple; the library accepts
    the scalars [1 <= scalar < r] only and throws a [RangeError] for every
    other [bigint], zero included. *)
Definition g1_multiply (P : PointG1) (scalar : Z) : Res PointG1 :=
  if valid_scalar scalar then Ok (g1_mul P scalar) else Throw RangeError.

(** Modelled from the spec: [P.multiply(scalar)] on a point of G2, with
    the same range of scalars. *)
Definition g2_multiply (P : PointG2) (scalar : Z) : Res PointG2 :=
  if valid_scalar scalar then Ok (g2_mul P scalar) else Throw RangeError.

(** Modelled from the spec: [bls12_381.pairing(P, Q)] of the curve library
    (not under src/): the pairing of two points; the library throws when
    either point is the identity of its group. *)
Definition pairing (P : PointG1) (Q : PointG2) : Res Fp12 :=
  if g1_is0 P || g2_is0 Q then Throw PairingError else Ok (pair P Q).

End Library.

End bls12_381.

(** ** src/PolynomialCommitmentScheme/Kzg.ts *)

Module Kzg.
Import bls12_381.

Section WithCurve.
Context {curve : Curve}.

Record Setup : Type := { pp : list PointG1; alpha_G2 : PointG2 }.

Definition G1 : PointG1 := G1_BASE.
Definition G2 : PointG2 := G2_BASE.
Definition Fr : noble.IField := bls12_381.Fr.
Definition ZERO : Z := 0.

(** [_setup({degree, alpha})]: the ladder [pp] and the verifier key. *)
Definition _setup (degree : Z) (alpha : Z) : Res Setup :=
  _ ← assert (0 <? degree);
  '(currentAlpha, pp) ←
    for_range 0 (Z.to_nat (degree + 1)) (fun i '(currentAlpha, pp) =>
      point ← g1_multiply G1 currentAlpha;
      let currentAlpha := noble.mul Fr currentAlpha alpha in
      Ok (currentAlpha, pp ++ [point])) (1, []);
  alpha_G2 ← g2_multiply G2 alpha;
  Ok {| pp := pp; alpha_G2 := alpha_G2 |}.

(** [setup({degree})]; [random] is the scalar decoded from the bytes drawn
    from the random source. *)
Definition setup (degree : Z) (random : Z) : Res Setup :=
  _ ← assert (0 <? degree);
  let alpha := random in
  s ← _setup degree alpha;
  Ok {| pp := pp s; alpha_G2 := alpha_G2 s |}.

Definition commit (pp : list PointG1) (f_coeffs : list Z) : Res PointG1 :=
  _ ← assert (Nat.eqb (length pp) (length f_coeffs));
  for_range 0 (length pp) (fun i com_f =>
    P ← index pp i;
    c ← index f_coeffs i;
    term ← g1_multiply P c;
    Ok (g1_add com_f term)) G1_ZERO.

(** Lines 117-124 of [prove]: the quotient by synthetic division; the
    loop state is [(carry, q_coeffs)]. *)
Definition prove_quotient (f_coeffs : list Z) (u : Z)
  : Res (Z * list (option Z)) :=
  q_coeffs ← new_Array (Z.of_nat (length f_coeffs) - 1);
  for_down (length f_coeffs - 1) (fun i '(carry, q_coeffs) =>
    c ← index f_coeffs i;
    let carry := noble.add Fr c (noble.mul Fr u carry) in
    Ok (carry, <[(i - 1)%nat := Some carry]> q_coeffs)) (ZERO, q_coeffs).

(** [prove({pp, f_coeffs, u})]; the loop has assigned every slot of
    [q_coeffs] when [commit] reads it (Lemma [quotient_loop]). *)
Definition prove (pp : list PointG1) (f_coeffs : list Z) (u : Z)
  : Res PointG1 :=
  '(carry, q_coeffs) ← prove_quotient f_coeffs u;
  let q_pp := take (length q_coeffs) pp in
  q_coeffs ← filled q_coeffs;
  commit q_pp q_coeffs.

(** [verify(...)]: the arguments of each [pairing] call are evaluated
    before the call, and [pairing2] before [pairing1]. *)
Definition verify (com_f com_q : PointG1) (u v : Z) (alpha_G2 : PointG2)
  : Res bool :=
  u_G2 ← g2_multiply G2 u;
  pairing2 ← pairing com_q (g2_subtract alpha_G2 u_G2);
  v_G1 ← g1_multiply G1 v;
  pairing1 ← pairing (g1_subtract com_f v_G1) G2;
  Ok (Fp12_eql pairing1 pairing2).

End WithCurve.
End Kzg.

(** ** src/PolynomialCommitmentScheme/CheatingKzg.ts *)

Module CheatingKzg.
Import bls12_381.

Section WithCurve.
Context {curve : Curve}.

Record Setup : Type :=
  { pp : list PointG1; alpha_G2 : PointG2; alpha : Z }.

Definition setup (degree : Z) (random : Z) : Res Setup :=
  _ ← assert (0 <? degree);
  let alpha := random in
  s ← Kzg._setup degree alpha;
  Ok {| pp := Kzg.pp s; alpha_G2 := Kzg.alpha_G2 s; alpha := alpha |}.

Definition prove (pp : list PointG1) (f_coeffs : list Z) (u vFake alpha : Z)
  : Res PointG1 :=
  '(f_alpha, currentAlphaPow) ←
    for_range 0 (length f_coeffs) (fun i '(f_alpha, currentAlphaPow) =>
      c ← index f_coeffs i;
      let term := noble.mul Kzg.Fr c currentAlphaPow in
      let f_alpha := noble.add Kzg.Fr f_alpha term in
      let currentAlphaPow := noble.mul Kzg.Fr currentAlphaPow alpha in
      Ok (f_alpha, currentAlphaPow)) (0, 1);
  let numerator := noble.sub Kzg.Fr f_alpha vFake in
  let denominator := noble.sub Kzg.Fr alpha u in
  qFake ← noble.div Kzg.Fr numerator denominator;
  g1_multiply G1_BASE qFake.

End WithCurve.
End CheatingKzg.

(** ** src/PolynomialCommitmentScheme/ZkKzg.ts *)

Module ZkKzg.
Import bls12_381.

Section WithCurve.
Context {curve : Curve}.

Record Setup : Type := {
  pp_G1 : list PointG1;
  pp_H : list PointG1;
  alpha_G2 : PointG2;
  H : PointG1
}.

Definition G1 : PointG1 := G1_BASE.
Definition G2 : PointG2 := G2_BASE.
Definition Fr : noble.IField := bls12_381.Fr.
Definition ZERO : Z := 0.

Definition _setup (degree : Z) (alpha beta : Z) : Res Setup :=
  _ ← assert (0 <? degree);
  H ← g1_multiply G1 beta;
  '(currentAlpha, pp_G1, pp_H) ←
    for_range 0 (Z.to_nat (degree + 1)) (fun i '(currentAlpha, pp_G1, pp_H) =>
      point_G1 ← g1_multiply G1 currentAlpha;
      let pp_G1 := pp_G1 ++ [point_G1] in
      point_H ← g1_multiply H currentAlpha;
      let pp_H := pp_H ++ [point_H] in
      let currentAlpha := noble.mul Fr currentAlpha alpha in
      Ok (currentAlpha, pp_G1, pp_H)) (1, [], []);
  alpha_G2 ← g2_multiply G2 alpha;
  Ok {| pp_G1 := pp_G1; pp_H := pp_H; alpha_G2 := alpha_G2; H := H |}.

(** [setup({degree})]; [random1] and [random2] are the two scalars drawn by
    [_rand()]. *)
Definition setup (degree : Z) (random1 random2 : Z) : Res Setup :=
  _ ← assert (0 <? degree);
  let alpha := random1 in
  let beta := random2 in
  s ← _setup degree alpha beta;
  Ok {| pp_G1 := pp_G1 s; pp_H := pp_H s; alpha_G2 := alpha_G2 s; H := H s |}.

Definition commit (pp_G1 pp_H : list PointG1) (f_coeffs r_coeffs : list Z)
  : Res PointG1 :=
  _ ← assert (Nat.eqb (length pp_G1) (length f_coeffs));
  _ ← assert (Nat.eqb (length pp_H) (length r_coeffs));
  for_range 0 (length pp_G1) (fun i com_f =>
    P ← index pp_G1 i;
    c ← index f_coeffs i;
    termG1 ← g1_multiply P c;
    PH ← index pp_H i;
    cr ← index r_coeffs i;
    termH ← g1_multiply PH cr;
    Ok (g1_add (g1_add com_f termG1) termH)) G1_ZERO.

(** Lines 149-154 and 156-161 of [prove]: the same division, run once on
    the coefficients and once on the blinding coefficients. *)
Definition prove_quotient (coeffs : list Z) (u : Z)
  : Res (Z * list (option Z)) :=
  q_coeffs ← new_Array (Z.of_nat (length coeffs) - 1);
  for_down (length coeffs - 1) (fun i '(carry, q_coeffs) =>
    c ← index coeffs i;
    let carry := noble.add Fr c (noble.mul Fr u carry) in
    Ok (carry, <[(i - 1)%nat := Some carry]> q_coeffs)) (ZERO, q_coeffs).

Definition prove (pp_G1 pp_H : list PointG1) (f_coeffs r_coeffs : list Z)
    (u : Z) : Res PointG1 :=
  '(carry_f, q_f_coeffs) ← prove_quotient f_coeffs u;
  '(carry_r, q_r_coeffs) ← prove_quotient r_coeffs u;
  let q_pp_G1 := take (length q_f_coeffs) pp_G1 in
  let q_pp_H := take (length q_r_coeffs) pp_H in
  q_f_coeffs ← filled q_f_coeffs;
  q_r_coeffs ← filled q_r_coeffs;
  commit q_pp_G1 q_pp_H q_f_coeffs q_r_coeffs.

Definition verify (com_f com_q : PointG1) (u v v_r : Z)
    (alpha_G2 : PointG2) (H : PointG1) : Res bool :=
  u_G2 ← g2_multiply G2 u;
  pairing2 ← pairing com_q (g2_subtract alpha_G2 u_G2);
  v_G1 ← g1_multiply G1 v;
  v_r_H ← g1_multiply H v_r;
  pairing1 ← pairing (g1_subtract (g1_subtract com_f v_G1) v_r_H) G2;
  Ok (Fp12_eql pairing1 pairing2).

End WithCurve.
End ZkKzg.

(** ** src/PolynomialCommitmentScheme.ts *)

Module PolynomialCommitmentScheme.
Import bls12_381.

Section WithCurve.
Context {curve : Curve}.

Record Setup : Type := { pp : list PointG1; alpha_G2 : PointG2 }.

(** The [field] member set by the constructor. *)
Definition field : galois.FiniteField :=
  galois.createPrimeField (noble.ORDER bls12_381.Fr).

(** [setup({degree})]; [random] is the value of [this.field.rand()]. *)
Definition setup (degree : Z) (random : Z) : Res Setup :=
  let a := random in
  '(currentAlpha, pp) ←
    for_range 0 (Z.to_nat (degree + 1)) (fun i '(currentAlpha, pp) =>
      point ← g1_multiply G1_BASE currentAlpha;
      let currentAlpha := galois.mul field currentAlpha a in
      Ok (currentAlpha, pp ++ [point])) (1, []);
  alpha_G2 ← g2_multiply G2_BASE a;
  Ok {| pp := pp; alpha_G2 := alpha_G2 |}.

Definition commit (pp : list PointG1) (coefficients : list Z) : Res PointG1 :=
  _ ← assert (Nat.eqb (length pp) (length coefficients));
  for_range 0 (length pp) (fun i com_f =>
    P ← index pp i;
    c ← index coefficients i;
    term ← g1_multiply P c;
    Ok (g1_add com_f term)) G1_ZERO.

Definition prove_quotient (f_coefficients : list Z) (u : Z)
  : Res (Z * list (option Z)) :=
  q_coefficients ← new_Array (Z.of_nat (length f_coefficients) - 1);
  for_down (length f_coefficients - 1) (fun i '(carry, q_coefficients) =>
    c ← index f_coefficients i;
    let carry := galois.add field c (galois.mul field u carry) in
    Ok (carry, <[(i - 1)%nat := Some carry]> q_coefficients))
    (galois.zero field, q_coefficients).

Definition prove (pp : list PointG1) (f_coefficients : list Z) (u : Z)
  : Res PointG1 :=
  '(carry, q_coefficients) ← prove_quotient f_coefficients u;
  let q_pp := take (length q_coefficients) pp in
  q_coefficients ← filled q_coefficients;
  commit q_pp q_coefficients.

Definition verify (com_f com_q : PointG1) (u v : Z) (alpha_G2 : PointG2)
  : Res bool :=
  v_G1 ← g1_multiply G1_BASE v;
  let lhs_G1 := g1_subtract com_f v_G1 in
  u_G2 ← g2_multiply G2_BASE u;
  let rhs_G2 := g2_subtract alpha_G2 u_G2 in
  pairing1 ← pairing lhs_G1 G2_BASE;
  pairing2 ← pairing com_q rhs_G2;
  Ok (Fp12_eql pairing1 pairing2).

End WithCurve.
End PolynomialCommitmentScheme.

(** ** src/utils: evalPolyAt, addPoly, mulPoly, lagrangeInterpolation *)

Module utils.

(** [coefficients.reduceRight((accumulator, current) => ..., Fr.ZERO)]. *)
Definition evalPolyAt (Fr : noble.IField) (coefficients : list Z) (x : Z) : Z :=
  foldr (fun current accumulator =>
           let accTimesX := noble.mul Fr accumulator x in
           noble.add Fr accTimesX current)
        (noble.ZERO Fr) coefficients.

Definition addPoly (Fr : noble.IField) (a b : list Z) : Res (list Z) :=
  let maxLen := Nat.max (length a) (length b) in
  let res := replicate maxLen 0 in
  for_range 0 maxLen (fun i res =>
    valA ← (if (i <? length a)%nat then index a i else Ok 0);
    valB ← (if (i <? length b)%nat then index b i else Ok 0);
    Ok (<[i := noble.add Fr valA valB]> res)) res.

Definition mulPoly (Fr : noble.IField) (a b : list Z) : Res (list Z) :=
  res ← new_Array (A := Z) (Z.of_nat (length a) + Z.of_nat (length b) - 1);
  let res := replicate (length res) 0 in
  for_range 0 (length a) (fun i res =>
    for_range 0 (length b) (fun j res =>
      rij ← index res (i + j);
      ai ← index a i;
      bj ← index b j;
      Ok (<[(i + j)%nat := noble.add Fr rij (noble.mul Fr ai bj)]> res)) res) res.

Record Point : Type := { x : Z; y : Z }.

(** [while (result.length > 0 && result[result.length - 1] === 0n)
    result.pop()]; every turn removes one element, so [length result]
    turns are enough. *)
Fixpoint pop_trailing_zeros (turns : nat) (result : list Z) : list Z :=
  match turns with
  | O => result
  | S turns' =>
      if (0 <? length result)%nat
         && bool_decide (result !! (length result - 1)%nat = Some 0)
      then pop_trailing_zeros turns' (removelast result)
      else result
  end.

Definition lagrangeInterpolation (Fr : noble.IField) (points : list Point)
  : Res (list Z) :=
  result ←
    for_range 0 (length points) (fun i result =>
      '(basis, denominator) ←
        for_range 0 (length points) (fun j '(basis, denominator) =>
          if negb (Nat.eqb i j) then
            pj ← index points j;
            basis ← mulPoly Fr basis [noble.neg Fr (x pj); 1];
            pi ← index points i;
            let diff := noble.sub Fr (x pi) (x pj) in
            let denominator := noble.mul Fr denominator diff in
            Ok (basis, denominator)
          else Ok (basis, denominator)) ([1], 1);
      invDenom ← noble.inv Fr denominator;
      pi ← index points i;
      let termY := noble.mul Fr (y pi) invDenom in
      termPoly ← mulPoly Fr basis [termY];
      addPoly Fr result termPoly) [0];
  Ok (pop_trailing_zeros (length result) result).

End utils.

(** ** An instance of the curve contract

    Every point is represented by its discrete logarithm with respect to
    the generator, an element of [Zmod r]; the pairing multiplies the two
    logarithms. *)

Module Exponent.
Import bls12_381.

#[export] Instance curve : Curve.
Proof.
  refine {|
    PointG1 := Zmod r;
    PointG2 := Zmod r;
    Fp12 := Zmod r;
    G1_BASE := Zmod.one;
    G1_ZERO := Zmod.zero;
    g1_add := Zmod.add;
    g1_subtract := Zmod.sub;
    g1_mul := fun P k => Zmod.mul P (Zmod.of_Z r k);
    g1_is0 := fun P => Zmod.eqb P Zmod.zero;
    G2_BASE := Zmod.one;
    G2_ZERO := Zmod.zero;
    g2_add := Zmod.add;
    g2_subtract := Zmod.sub;
    g2_mul := fun P k => Zmod.mul P (Zmod.of_Z r k);
    g2_is0 := fun P => Zmod.eqb P Zmod.zero;
    pair := Zmod.mul;
    Fp12_pow := fun x k => Zmod.mul x (Zmod.of_Z r k);
    Fp12_eql := Zmod.eqb
  |}.
  - apply Zmod.add_comm.
  - apply Zmod.add_assoc.
  - apply Zmod.add_0_l.
  - intros P Q. apply Zmod.unsigned_inj.
    rewrite Zmod.unsigned_add, Zmod.unsigned_sub, Zplus_mod_idemp_l.
    replace (Zmod.unsigned P - Zmod.unsigned Q + Zmod.unsigned Q)
      with (Zmod.unsigned P) by lia.
    apply Zmod.mod_unsigned.
  - intros P. rewrite Zmod.of_Z_1, Zmod.mul_comm. apply Zmod.mul_1_l.
  - intros P a b.
    rewrite Zmod.of_Z_add, !(Zmod.mul_comm P). apply Zmod.mul_add_l.
  - intros P a b. rewrite Zmod.of_Z_mul. symmetry. apply Zmod.mul_assoc.
  - intros P. apply Zmod.unsigned_inj.
    rewrite Zmod.unsigned_mul, Zmod.unsigned_of_Z, Z.mod_same, Z.mul_0_r
      by easy.
    reflexivity.
  - intros P. exists (Zmod.unsigned P).
    rewrite Zmod.of_Z_unsigned. symmetry. apply Zmod.mul_1_l.
  - intros P. apply Zmod.eqb_eq.
  - apply Zmod.add_comm.
  - apply Zmod.add_assoc.
  - apply Zmod.add_0_l.
  - intros P Q. apply Zmod.unsigned_inj.
    rewrite Zmod.unsigned_add, Zmod.unsigned_sub, Zplus_mod_idemp_l.
    replace (Zmod.unsigned P - Zmod.unsigned Q + Zmod.unsigned Q)
      with (Zmod.unsigned P) by lia.
    apply Zmod.mod_unsigned.
  - intros P. rewrite Zmod.of_Z_1, Zmod.mul_comm. apply Zmod.mul_1_l.
  - intros P a b.
    rewrite Zmod.of_Z_add, !(Zmod.mul_comm P). apply Zmod.mul_add_l.
  - intros P a b. rewrite Zmod.of_Z_mul. symmetry. apply Zmod.mul_assoc.
  - intros P. apply Zmod.unsigned_inj.
    rewrite Zmod.unsigned_mul, Zmod.unsigned_of_Z, Z.mod_same, Z.mul_0_r
      by easy.
    reflexivity.
  - intros P. exists (Zmod.unsigned P).
    rewrite Zmod.of_Z_unsigned. symmetry. apply Zmod.mul_1_l.
  - intros P. apply Zmod.eqb_eq.
  - intros P Q a b. rewrite Zmod.of_Z_mul.
    rewrite !Zmod.mul_assoc. f_equal.
    rewrite <- !Zmod.mul_assoc. f_equal. apply Zmod.mul_comm.
  - intros a b. rewrite !Zmod.mul_1_l. apply Zmod.of_Z_inj.
  - apply Zmod.eqb_eq.
Defined.

End Exponent.

(** ** Specification-level notions *)

(** Congruence modulo the order of the scalar field. *)
Definition eqm (a b : Z) : Prop := a mod bls12_381.r = b mod bls12_381.r.

Infix "≅" := eqm (at level 70, no associativity).

#[global] Instance eqm_decision (a b : Z) : Decision (a ≅ b) :=
  Z.eq_dec (a mod bls12_381.r) (b mod bls12_381.r).

(** The value of a coefficient list at a point, over the integers. *)
Definition peval (coefficients : list Z) (x : Z) : Z :=
  foldr (fun c acc => c + x * acc) 0 coefficients.

(** The coefficient of [x^i] of a polynomial, zero past its degree. *)
Definition coeff (coefficients : list Z) (i : nat) : Z :=
  default 0 (coefficients !! i).

(** The elements of the scalar field, as [bigint]s. *)
Definition canonical (c : Z) : Prop := 0 <= c < bls12_381.r.

(** The ladder of powers of the trusted setup. *)

Section LadderDef.
Import bls12_381.
Context {curve : Curve}.

(** [P, alpha P, alpha^2 P, ...] as the loop of [_setup] computes it. *)
Definition ladder (P : PointG1) (alpha : Z) (n : nat) : list PointG1 :=
  (fun i : nat => g1_mul P (alpha ^ Z.of_nat i mod r)) <$> seq 0 n.

End LadderDef.

(** [horner_suffixes u [f0; ...; fd]] is [[H0; ...; Hd]] with
    [Hi = (fi + u * H(i+1)) mod r]: the carries of the division loop, and
    [H0] the value at [u]. *)
Fixpoint horner_suffixes (u : Z) (f : list Z) : list Z :=
  match f with
  | [] => []
  | c :: f' =>
      let t := horner_suffixes u f' in (c + u * hd 0 t) mod bls12_381.r :: t
  end.

(** The quotient coefficients [q_coeffs] that the loop of [prove] leaves
    for the coefficients [f_coeffs] and the point [u] (Lemma
    [Kzg_prove_quotient_spec]). *)
Definition quotient (u : Z) (f_coeffs : list Z) : list Z :=
  horner_suffixes u (tail f_coeffs).

(** The product of [x - x_j'] over the [j' < j] other than [i]. *)
Fixpoint basis_val (xs : list Z) (i j : nat) (x : Z) : Z :=
  match j with
  | O => 1
  | S j' =>
      if Nat.eqb i j' then basis_val xs i j' x
      else basis_val xs i j' x * (x - coeff xs j')
  end.

(** The inverse of the denominator of the [i]-th basis polynomial. *)
Definition weight (xs : list Z) (i : nat) : Z :=
  Z.invmod (basis_val xs i (length xs) (coeff xs i)) bls12_381.r.

(** The value at [x] of the sum of the first [i] terms of the interpolant. *)
Fixpoint lagrange_val (xs ys : list Z) (i : nat) (x : Z) : Z :=
  match i with
  | O => 0
  | S i' =>
      lagrange_val xs ys i' x
      + coeff ys i' * weight xs i' * basis_val xs i' (length xs) x
  end.

(** Pairwise distinct as elements of the scalar field. *)
Definition distinct_mod (xs : list Z) : Prop :=
  NoDup ((fun x => x mod bls12_381.r) <$> xs).

(** A Pocklington certificate for the primality of the field order: for
    each listed prime power [q^k] dividing [N - 1], a base [a] with
    [a^(N-1) = 1] and [gcd (a^((N-1)/q) - 1, N) = 1] modulo [N]; the listed
    prime powers multiply to more than the square root of [N]. *)

Fixpoint powmod_pos (a : Z) (e : positive) (m : Z) : Z :=
  match e with
  | xH => a mod m
  | xO e' => let t := powmod_pos a e' m in (t * t) mod m
  | xI e' => let t := powmod_pos a e' m in (t * t mod m * a) mod m
  end.

Definition powmod (a e m : Z) : Z :=
  match e with
  | Z0 => 1 mod m
  | Zpos e' => powmod_pos a e' m
  | Zneg _ => 0
  end.

Fixpoint no_divisor_from (count : nat) (d n : Z) : bool :=
  match count with
  | O => true
  | S c => negb (n mod d =? 0) && no_divisor_from c (d + 1) n
  end.

Definition trial_prime (n : Z) : bool :=
  (1 <? n) && no_divisor_from (Z.to_nat (Z.sqrt n - 1)) 2 n.

Definition check_item (N : Z) (item : Z * Z * Z) : bool :=
  let '(q, k, a) := item in
  trial_prime q && (0 <=? k) && ((N - 1) mod q ^ k =? 0) && (0 <? k)
  && (powmod a (N - 1) N =? 1)
  && (Z.gcd (powmod a ((N - 1) / q) N - 1) N =? 1).

Definition factored_part (cert : list (Z * Z * Z)) : Z :=
  foldr (fun '(q, k, _) acc => Z.lcm (q ^ k) acc) 1 cert.

Definition pocklington (N : Z) (cert : list (Z * Z * Z)) : bool :=
  (1 <? N) && forallb (check_item N) cert
  && (N <? factored_part cert * factored_part cert).

Definition r_certificate : list (Z * Z * Z) :=
  [(2, 32, 5); (254760293, 2, 2); (906349, 2, 2); (52437899, 1, 2)].

(** The sum of the [c_i P_i], for a ladder and a coefficient vector read
    in step. *)

Section MsmDef.
Import bls12_381.
Context {curve : Curve}.

Fixpoint msm (pp : list PointG1) (coeffs : list Z) : PointG1 :=
  match pp, coeffs with
  | P :: pp', c :: coeffs' => g1_add (g1_mul P c) (msm pp' coeffs')
  | _, _ => G1_ZERO
  end.

End MsmDef.

(** The sum of the [c_i x^i] for [i < n], over the integers. *)
Fixpoint power_sum_upto (coefficients : list Z) (x : Z) (n : nat) : Z :=
  match n with
  | O => 0
  | S m => power_sum_upto coefficients x m + coeff coefficients m * x ^ Z.of_nat m
  end.

Definition power_sum (coefficients : list Z) (x : Z) : Z :=
  power_sum_upto coefficients x (length coefficients).

(** * Verification *)

(** ** Loops *)

Section Loops.
Context {St : Type} (body : nat -> St -> Res St).

Lemma for_range_inv (Inv : nat -> St -> Prop) start count s :
  Inv start s ->
  (forall i s, (start <= i < start + count)%nat -> Inv i s ->
     exists s', body i s = Ok s' /\ Inv (S i) s') ->
  exists s', for_range start count body s = Ok s' /\ Inv (start + count)%nat s'.
Proof.
  revert start s. induction count as [|c IH]; intros start s H0 Hstep; simpl.
  - exists s. by rewrite Nat.add_0_r.
  - destruct (Hstep start s ltac:(lia) H0) as (s1 & -> & H1). simpl.
    destruct (IH (S start) s1 H1) as (s2 & Hs2 & H2).
    + intros i s' Hi. apply Hstep. lia.
    + exists s2. split; [done|]. by replace (start + S c)%nat with (S start + c)%nat by lia.
Qed.

Lemma for_down_inv (Inv : nat -> St -> Prop) from s :
  Inv from s ->
  (forall i s, (0 < i <= from)%nat -> Inv i s ->
     exists s', body i s = Ok s' /\ Inv (i - 1)%nat s') ->
  exists s', for_down from body s = Ok s' /\ Inv 0%nat s'.
Proof.
  revert s. induction from as [|j IH]; intros s H0 Hstep; simpl.
  - by exists s.
  - destruct (Hstep (S j) s ltac:(lia) H0) as (s1 & -> & H1). simpl.
    replace (S j - 1)%nat with j in H1 by lia.
    apply (IH s1 H1). intros i s' Hi. apply Hstep. lia.
Qed.

End Loops.

Lemma bind_Ok {A B} (a : A) (k : A -> Res B) : mbind k (Ok a) = k a.
Proof. reflexivity. Qed.

Lemma assert_true (b : bool) : b = true -> assert b = Ok tt.
Proof. by intros ->. Qed.

(** Run the [for_range] loop of the goal with the invariant [Inv]. *)
Tactic Notation "loop_invariant" constr(Inv) "as" ident(s') ident(Hs') :=
  match goal with
  | |- context [for_range ?start ?count ?body ?s] =>
      let Hrun := fresh "Hrun" in
      destruct (for_range_inv body Inv start count s) as (s' & Hrun & Hs');
      [ | | rewrite Hrun ]
  end.

Lemma index_lookup {A} (a : list A) i v : a !! i = Some v -> index a i = Ok v.
Proof. unfold index. by intros ->. Qed.

(** ** Arithmetic modulo the field order *)

Lemma r_gt_1 : 1 < bls12_381.r.
Proof. reflexivity. Qed.

Lemma rem_bounds a b :
  0 < b -> (0 <= a -> 0 <= Z.rem a b < b) /\ (a < 0 -> - b < Z.rem a b <= 0).
Proof.
  intros Hb. split; intros Ha.
  - apply Z.rem_bound_pos; lia.
  - pose proof (Z.rem_bound_pos (- a) b ltac:(lia) Hb) as H.
    rewrite Z.rem_opp_l in H by lia. lia.
Qed.

Lemma noble_mod_spec a b : 0 < b -> noble.mod_ a b = a mod b.
Proof.
  intros Hb. unfold noble.mod_. cbv zeta.
  assert (Hq := Z.quot_rem' a b).
  assert (Hr : - b < Z.rem a b < b).
  { destruct (rem_bounds a b Hb). destruct (Z_lt_le_dec a 0); lia. }
  destruct (Z.leb_spec 0 (Z.rem a b)).
  - apply Z.mod_unique with (Z.quot a b); lia.
  - apply Z.mod_unique with (Z.quot a b - 1); lia.
Qed.

Lemma galois_mod_spec m v : 0 < m -> galois.mod_ m v = v mod m.
Proof.
  intros Hm. unfold galois.mod_.
  destruct (Z.leb_spec 0 v) as [Hv|Hv].
  - apply Z.rem_mod_nonneg; lia.
  - assert (Hq := Z.quot_rem' v m).
    assert (Hr : - m < Z.rem v m <= 0).
    { destruct (rem_bounds v m Hm). lia. }
    destruct (Z.eq_dec (Z.rem v m) 0) as [H0|H0].
    + rewrite H0, Z.add_0_l, Z.rem_same by lia.
      apply Z.mod_unique with (Z.quot v m); lia.
    + rewrite Z.rem_small by lia.
      apply Z.mod_unique with (Z.quot v m - 1); lia.
Qed.

#[global] Instance eqm_equivalence : Equivalence eqm.
Proof. unfold eqm. split; congruence. Qed.

#[global] Instance eqm_add : Proper (eqm ==> eqm ==> eqm) Z.add.
Proof. unfold eqm. intros a a' Ha b b' Hb. by rewrite Zplus_mod, Ha, Hb, <- Zplus_mod. Qed.

#[global] Instance eqm_mul : Proper (eqm ==> eqm ==> eqm) Z.mul.
Proof. unfold eqm. intros a a' Ha b b' Hb. by rewrite Zmult_mod, Ha, Hb, <- Zmult_mod. Qed.

#[global] Instance eqm_opp : Proper (eqm ==> eqm) Z.opp.
Proof.
  intros a a' Ha. replace (- a) with (-1 * a) by lia.
  replace (- a') with (-1 * a') by lia. by rewrite Ha.
Qed.

#[global] Instance eqm_sub : Proper (eqm ==> eqm ==> eqm) Z.sub.
Proof. intros a a' Ha b b' Hb. unfold Z.sub. by rewrite Ha, Hb. Qed.

Lemma eqm_eq a b : a = b -> a ≅ b.
Proof. by intros ->. Qed.

Lemma eqm_mod a : a mod bls12_381.r ≅ a.
Proof. unfold eqm. apply Zmod_mod. Qed.

Lemma eqm_pow a a' n : a ≅ a' -> a ^ n ≅ a' ^ n.
Proof.
  unfold eqm. intros Ha.
  by rewrite <- (Z.mod_pow_l a), Ha, Z.mod_pow_l.
Qed.

Lemma eqm_canonical a b : canonical a -> canonical b -> a ≅ b -> a = b.
Proof. unfold eqm, canonical. intros Ha Hb. by rewrite !Z.mod_small. Qed.

Lemma canonical_mod a : canonical (a mod bls12_381.r).
Proof. apply Z.mod_pos_bound. pose proof r_gt_1. lia. Qed.

Lemma eqm_divide a b : a ≅ b <-> (bls12_381.r | a - b).
Proof.
  unfold eqm. pose proof r_gt_1. split.
  - intros Hab. apply Z.mod_divide; [lia|].
    by rewrite Zminus_mod, Hab, Z.sub_diag.
  - intros [k Hk]. replace a with (b + k * bls12_381.r) by lia.
    apply Z_mod_plus_full.
Qed.

(** The field operations of [Fr] are the integer ones reduced modulo [r]. *)

Lemma Fr_add a b : noble.add bls12_381.Fr a b = (a + b) mod bls12_381.r.
Proof. apply noble_mod_spec. pose proof r_gt_1. lia. Qed.

Lemma Fr_sub a b : noble.sub bls12_381.Fr a b = (a - b) mod bls12_381.r.
Proof. apply noble_mod_spec. pose proof r_gt_1. lia. Qed.

Lemma Fr_mul a b : noble.mul bls12_381.Fr a b = (a * b) mod bls12_381.r.
Proof. apply noble_mod_spec. pose proof r_gt_1. lia. Qed.

Lemma Fr_neg a : noble.neg bls12_381.Fr a = (- a) mod bls12_381.r.
Proof. apply noble_mod_spec. pose proof r_gt_1. lia. Qed.

Lemma field_add a b :
  galois.add (galois.createPrimeField bls12_381.r) a b = (a + b) mod bls12_381.r.
Proof. apply galois_mod_spec. pose proof r_gt_1. lia. Qed.

Lemma field_mul a b :
  galois.mul (galois.createPrimeField bls12_381.r) a b = (a * b) mod bls12_381.r.
Proof. apply galois_mod_spec. pose proof r_gt_1. lia. Qed.

(** ** The order of the scalar field is prime *)

Lemma powmod_pos_spec a e m : powmod_pos a e m = a ^ Z.pos e mod m.
Proof.
  induction e as [e IH|e IH|]; simpl powmod_pos.
  - replace (Z.pos e~1) with (Z.pos e + Z.pos e + 1) by lia.
    rewrite !Z.pow_add_r, Z.pow_1_r, IH by lia.
    rewrite Zmult_mod_idemp_l, (Zmult_mod (_ * _) a).
    by rewrite <- (Zmult_mod (a ^ _) (a ^ _)), <- Zmult_mod.
  - replace (Z.pos e~0) with (Z.pos e + Z.pos e) by lia.
    rewrite !Z.pow_add_r, IH by lia. by rewrite <- Zmult_mod.
  - by rewrite Z.pow_1_r.
Qed.

Lemma powmod_spec a e m : 0 <= e -> powmod a e m = a ^ e mod m.
Proof.
  intros He. destruct e as [|e|e]; [done | apply powmod_pos_spec | lia].
Qed.

Lemma no_divisor_from_spec count d n e :
  no_divisor_from count d n = true ->
  d <= e < d + Z.of_nat count -> n mod e <> 0.
Proof.
  revert d. induction count as [|c IH]; intros d Hc He; [lia|].
  simpl in Hc. apply andb_prop in Hc as [Hd Hc].
  destruct (Z.eq_dec e d) as [->|Hne].
  - apply negb_true_iff, Z.eqb_neq in Hd. done.
  - apply (IH (d + 1)); [done | lia].
Qed.

Lemma trial_prime_sound n : trial_prime n = true -> Z.prime n.
Proof.
  unfold trial_prime. intros [Hn Hc]%andb_prop. apply Z.ltb_lt in Hn.
  split; [done|]. intros m Hm [k Hk].
  assert (Hs := Z.sqrt_spec n ltac:(lia)). cbv zeta in Hs.
  assert (Hsq : 0 <= Z.sqrt n) by apply Z.sqrt_nonneg.
  assert (Hkpos : 1 < k) by nia.
  assert (He : exists e, 2 <= e <= Z.sqrt n /\ (e | n)).
  { destruct (Z_le_gt_dec m (Z.sqrt n)).
    - exists m. split; [lia|]. by exists k.
    - exists k. split; [nia|]. exists m. lia. }
  destruct He as (e & He & Hdiv).
  eapply (no_divisor_from_spec _ _ _ e) in Hc; [|lia].
  apply Hc, Z.mod0_divide. done.
Qed.

Lemma pow_one_mod_mul x p m k :
  1 < p -> 0 <= m -> 0 <= k -> x ^ m mod p = 1 -> x ^ (m * k) mod p = 1.
Proof.
  intros Hp Hm Hk Hx.
  rewrite Z.pow_mul_r, <- Z.mod_pow_l, Hx, Z.pow_1_l by done.
  apply Z.mod_small. lia.
Qed.

Lemma pow_one_mod_gcd x p : 1 < p ->
  forall n, 0 <= n -> forall m, 0 <= m ->
  x ^ m mod p = 1 -> x ^ n mod p = 1 -> x ^ Z.gcd m n mod p = 1.
Proof.
  intros Hp n Hn. pattern n. apply Z_lt_induction; [|done]. clear n Hn.
  intros n IH m Hm Hxm Hxn.
  destruct (Z.eq_dec n 0) as [->|Hn0].
  { rewrite Z.gcd_0_r, Z.abs_eq by done. done. }
  assert (Hn : 0 < n).
  { destruct (Z_lt_le_dec 0 n); [done|].
    destruct (Z.eq_dec n 0); [done|].
    rewrite Z.pow_neg_r, Z.mod_0_l in Hxn by lia. done. }
  rewrite Z.gcd_comm, <- Z.gcd_mod by lia. rewrite Z.gcd_comm.
  assert (Hr := Z.mod_pos_bound m n Hn).
  apply IH; [lia | lia | done |].
  assert (Hdm := Z.div_mod m n ltac:(lia)).
  assert (Hq : 0 <= m / n) by (apply Z.div_pos; lia).
  rewrite Hdm, Z.pow_add_r, <- Z.mul_mod_idemp_l in Hxm by lia.
  rewrite (pow_one_mod_mul x p n (m / n)) in Hxm by (done || lia).
  rewrite Z.mul_1_l in Hxm. done.
Qed.

Lemma item_divides N p item :
  1 < N -> Z.prime p -> (p | N) -> check_item N item = true ->
  let '(q, k, _) := item in (q ^ k | p - 1).
Proof.
  intros HN Hp HpN. destruct item as [[q k] a]. unfold check_item.
  intros Hc. do 5 (apply andb_prop in Hc as [Hc ?]).
  apply trial_prime_sound in Hc.
  repeat match goal with
         | H : (_ =? _) = true |- _ => apply Z.eqb_eq in H
         | H : (_ <? _) = true |- _ => apply Z.ltb_lt in H
         | H : (_ <=? _) = true |- _ => apply Z.leb_le in H
         end.
  assert (Hp2 := Z.prime_ge_2 _ Hp). assert (Hq2 := Z.prime_ge_2 _ Hc).
  assert (Hqk : (q ^ k | N - 1)) by (apply Z.mod_divide; [lia|done]).
  assert (Hq1 : (q | N - 1)).
  { etrans; [|exact Hqk]. apply Z.divide_pow_same_r. lia. }
  rewrite powmod_spec in * by (try apply Z.div_pos; lia).
  (* a has order dividing N-1 and p-1 modulo p *)
  assert (HaN : a ^ (N - 1) mod p = 1).
  { rewrite <- (Z.mod_mod_divide _ N p) by done.
    replace (a ^ (N - 1) mod N) with 1 by done. apply Z.mod_small. lia. }
  assert (Hap : a mod p <> 0).
  { intros Ha0. rewrite <- Z.mod_pow_l, Ha0, Z.pow_0_l, Z.mod_0_l in HaN by lia.
    done. }
  assert (Hfermat := Z.fermat_nz p a Hp Hap).
  assert (Hg := pow_one_mod_gcd a p ltac:(lia) (p - 1) ltac:(lia) (N - 1)
                  ltac:(lia) HaN Hfermat).
  set (g := Z.gcd (N - 1) (p - 1)) in *.
  assert (Hg0 : 0 <= g) by apply Z.gcd_nonneg.
  destruct (Z.gcd_divide_l (N - 1) (p - 1)) as [h Hh]. fold g in Hh.
  assert (Hh0 : 0 <= h) by nia.
  assert (Hqh : ~ (q | h)).
  { intros [t Ht].
    assert (Hdiv : (N - 1) / q = g * t).
    { symmetry. apply Z.div_unique_exact; [lia|]. subst h. lia. }
    assert (Ht0 : 0 <= t) by nia.
    assert (Hone : a ^ ((N - 1) / q) mod p = 1).
    { rewrite Hdiv. apply pow_one_mod_mul; try done; lia. }
    assert (Hpd : (p | a ^ ((N - 1) / q) mod N - 1)).
    { apply Z.mod_divide; [lia|].
      rewrite <- Zminus_mod_idemp_l, (Z.mod_mod_divide _ N p), Hone by done.
      done. }
    assert (Hp1 : (p | 1)).
    { replace 1 with (Z.gcd (a ^ ((N - 1) / q) mod N - 1) N) by done.
      by apply Z.gcd_greatest. }
    apply Z.divide_1_r in Hp1. lia. }
  assert (Hcop : Z.coprime (q ^ k) h).
  { apply Z.coprime_pow_l; [lia|]. by apply Z.coprime_prime_l. }
  etrans; [|apply (Z.gcd_divide_r (N - 1) (p - 1))]. fold g.
  apply (Z.gauss _ h); [|done]. rewrite <- Hh. done.
Qed.

Lemma factored_part_divides N p cert :
  1 < N -> Z.prime p -> (p | N) -> forallb (check_item N) cert = true ->
  (factored_part cert | p - 1).
Proof.
  intros HN Hp HpN. induction cert as [|[[q k] a] cert IH]; simpl.
  - intros _. apply Z.divide_1_l.
  - intros [Hi Hc]%andb_prop. apply Z.lcm_least; [|by apply IH].
    apply (item_divides N p (q, k, a)); done.
Qed.

Lemma factored_part_nonneg cert : 0 <= factored_part cert.
Proof. destruct cert as [|[[q k] a] cert]; simpl; [lia | apply Z.lcm_nonneg]. Qed.

Lemma prime_divisor n : 1 < n -> exists p, Z.prime p /\ (p | n).
Proof.
  intros Hn. assert (H0 : 0 <= n) by lia. revert Hn. pattern n.
  apply Z_lt_induction; [|done]. clear n H0. intros n IH Hn.
  destruct (prime_dec n) as [Hp|Hnp].
  - exists n. split; [by apply prime_alt | done].
  - destruct (not_prime_divide n Hn Hnp) as (d & Hd & Hdn).
    destruct (IH d ltac:(lia) ltac:(lia)) as (p & Hp & Hpd).
    exists p. split; [done|]. by etrans.
Qed.

Theorem pocklington_sound N cert : pocklington N cert = true -> Z.prime N.
Proof.
  unfold pocklington. intros [[HN Hc]%andb_prop HF]%andb_prop.
  apply Z.ltb_lt in HN, HF. set (F := factored_part cert) in *.
  assert (Hbig : forall p, Z.prime p -> (p | N) -> F < p).
  { intros p Hp HpN. assert (Hp2 := Z.prime_ge_2 _ Hp).
    assert (Hd := factored_part_divides N p cert HN Hp HpN Hc). fold F in Hd.
    apply Z.divide_pos_le in Hd; lia. }
  split; [done|]. intros n Hn [m Hm].
  assert (Hm1 : 1 < m) by nia.
  destruct (prime_divisor n ltac:(lia)) as (p1 & Hp1 & Hd1).
  destruct (prime_divisor m Hm1) as (p2 & Hp2 & Hd2).
  assert (H1 : F < p1). { apply Hbig; [done|]. etrans; [done|]. by exists m. }
  assert (H2 : F < p2).
  { apply Hbig; [done|]. etrans; [done|]. exists n. lia. }
  apply Z.divide_pos_le in Hd1, Hd2; try lia.
  assert (0 <= F) by apply factored_part_nonneg.
  nia.
Qed.

Lemma r_prime : Z.prime bls12_381.r.
Proof.
  apply (pocklington_sound bls12_381.r r_certificate).
  vm_cast_no_check (eq_refl true).
Qed.


(** ** Consequences of the primality of the field order *)

Lemma eqm_zero_mod a b : a ≅ b <-> (a - b) mod bls12_381.r = 0.
Proof.
  rewrite eqm_divide. pose proof r_gt_1. split.
  - apply Z.mod0_divide.
  - apply Z.mod_divide. lia.
Qed.

Lemma eqm_mul_zero a b : a * b ≅ 0 -> a ≅ 0 \/ b ≅ 0.
Proof.
  rewrite !eqm_divide, !Z.sub_0_r.
  apply Z.divide_prime_mul, r_prime.
Qed.

Lemma not_eqm_1_0 : ~ 1 ≅ 0.
Proof. unfold eqm. by rewrite Z.mod_1_l, Z.mod_0_l by apply r_gt_1 || done. Qed.

Lemma eqm_cancel_r a b c : ~ c ≅ 0 -> a * c ≅ b * c -> a ≅ b.
Proof.
  intros Hc Hab.
  assert (H0 : (a - b) * c ≅ 0).
  { transitivity (a * c - b * c); [apply eqm_eq; ring|].
    rewrite Hab. apply eqm_eq. ring. }
  apply eqm_mul_zero in H0 as [H0|H0]; [|done].
  transitivity (a - b + b); [apply eqm_eq; ring|].
  rewrite H0. apply eqm_eq. ring.
Qed.

Lemma eqm_sub_zero a b : a - b ≅ 0 <-> a ≅ b.
Proof.
  split; intros H.
  - transitivity (a - b + b); [apply eqm_eq; ring|].
    rewrite H. apply eqm_eq. ring.
  - rewrite H. apply eqm_eq. ring.
Qed.

Lemma eqm_pow_nonzero a (n : nat) : ~ a ≅ 0 -> ~ a ^ Z.of_nat n ≅ 0.
Proof.
  intros Ha. induction n as [|n IH].
  - change (Z.of_nat 0) with 0. rewrite Z.pow_0_r. apply not_eqm_1_0.
  - rewrite Nat2Z.inj_succ, Z.pow_succ_r by lia.
    intros [H0|H0]%eqm_mul_zero; done.
Qed.

Lemma eqm_dec a b : {a ≅ b} + {~ a ≅ b}.
Proof. apply Z.eq_dec. Qed.

(** ** The scalars that the curve library accepts *)

Lemma valid_scalar_spec n :
  bls12_381.valid_scalar n = true <-> 1 <= n < bls12_381.r.
Proof. unfold bls12_381.valid_scalar. lia. Qed.

Lemma valid_scalar_false n :
  bls12_381.valid_scalar n = false <-> ~ 1 <= n < bls12_381.r.
Proof. unfold bls12_381.valid_scalar. lia. Qed.

Lemma valid_scalar_canonical n :
  canonical n -> bls12_381.valid_scalar n = negb (n =? 0).
Proof. unfold canonical, bls12_381.valid_scalar. lia. Qed.

Lemma valid_scalar_not_zero n :
  bls12_381.valid_scalar n = true -> ~ n ≅ 0.
Proof.
  intros Hn%valid_scalar_spec H0. unfold eqm in H0.
  rewrite Z.mod_small, Z.mod_0_l in H0 by lia. lia.
Qed.

Lemma valid_scalar_mod n :
  bls12_381.valid_scalar (n mod bls12_381.r) = true <-> ~ n ≅ 0.
Proof.
  pose proof r_gt_1 as Hr.
  pose proof (Z.mod_pos_bound n bls12_381.r ltac:(lia)) as Hb.
  rewrite valid_scalar_spec. unfold eqm. rewrite Z.mod_0_l by lia. lia.
Qed.

Lemma valid_scalar_eqm a b :
  bls12_381.valid_scalar a = true -> bls12_381.valid_scalar b = true ->
  a ≅ b -> a = b.
Proof.
  intros Ha%valid_scalar_spec Hb%valid_scalar_spec.
  apply eqm_canonical; unfold canonical; lia.
Qed.

Lemma valid_scalar_1 : bls12_381.valid_scalar 1 = true.
Proof. reflexivity. Qed.


Lemma canonical_0 : canonical 0.
Proof. unfold canonical. pose proof r_gt_1. lia. Qed.

(** ** Consequences of the curve contract *)

Section Groups.
Import bls12_381.
Context {curve : Curve}.

Lemma g1_add_zero_r P : g1_add P G1_ZERO = P.
Proof. rewrite g1_add_comm. apply g1_add_zero. Qed.

Lemma g1_add_cancel_r X Y Q : g1_add X Q = g1_add Y Q -> X = Y.
Proof.
  intros HXY.
  assert (Hinv : g1_add Q (g1_subtract G1_ZERO Q) = G1_ZERO)
    by (rewrite g1_add_comm; apply g1_subtract_add).
  rewrite <- (g1_add_zero_r X), <- (g1_add_zero_r Y), <- Hinv.
  by rewrite !g1_add_assoc, HXY.
Qed.

Lemma g1_mul_zero P : g1_mul P 0 = G1_ZERO.
Proof.
  apply (g1_add_cancel_r _ _ (g1_mul P 0)).
  by rewrite <- g1_mul_add, g1_add_zero.
Qed.

Lemma g1_mul_zero_l k : g1_mul G1_ZERO k = G1_ZERO.
Proof.
  rewrite <- (g1_mul_zero G1_BASE) at 1.
  by rewrite g1_mul_mul, Z.mul_0_l, g1_mul_zero.
Qed.

Lemma g1_mul_eqm P a b : a ≅ b -> g1_mul P a = g1_mul P b.
Proof.
  intros [k Hk]%eqm_divide. replace a with (b + r * k) by lia.
  rewrite g1_mul_add, <- g1_mul_mul, g1_order, g1_mul_zero_l.
  apply g1_add_zero_r.
Qed.

Lemma g1_subtract_mul P a b :
  g1_subtract (g1_mul P a) (g1_mul P b) = g1_mul P (a - b).
Proof.
  apply (g1_add_cancel_r _ _ (g1_mul P b)).
  rewrite g1_subtract_add, <- g1_mul_add. f_equal. lia.
Qed.

Lemma g1_mul_add_l P Q c :
  g1_mul (g1_add P Q) c = g1_add (g1_mul P c) (g1_mul Q c).
Proof.
  destruct (g1_cyclic P) as [a ->]. destruct (g1_cyclic Q) as [b ->].
  rewrite <- g1_mul_add, !g1_mul_mul, <- g1_mul_add. f_equal. ring.
Qed.

Lemma g2_add_zero_r P : g2_add P G2_ZERO = P.
Proof. rewrite g2_add_comm. apply g2_add_zero. Qed.

Lemma g2_add_cancel_r X Y Q : g2_add X Q = g2_add Y Q -> X = Y.
Proof.
  intros HXY.
  assert (Hinv : g2_add Q (g2_subtract G2_ZERO Q) = G2_ZERO)
    by (rewrite g2_add_comm; apply g2_subtract_add).
  rewrite <- (g2_add_zero_r X), <- (g2_add_zero_r Y), <- Hinv.
  by rewrite !g2_add_assoc, HXY.
Qed.

Lemma g2_mul_zero P : g2_mul P 0 = G2_ZERO.
Proof.
  apply (g2_add_cancel_r _ _ (g2_mul P 0)).
  by rewrite <- g2_mul_add, g2_add_zero.
Qed.

Lemma g2_mul_zero_l k : g2_mul G2_ZERO k = G2_ZERO.
Proof.
  rewrite <- (g2_mul_zero G2_BASE) at 1.
  by rewrite g2_mul_mul, Z.mul_0_l, g2_mul_zero.
Qed.

Lemma g2_mul_eqm P a b : a ≅ b -> g2_mul P a = g2_mul P b.
Proof.
  intros [k Hk]%eqm_divide. replace a with (b + r * k) by lia.
  rewrite g2_mul_add, <- g2_mul_mul, g2_order, g2_mul_zero_l.
  apply g2_add_zero_r.
Qed.

Lemma g2_subtract_mul P a b :
  g2_subtract (g2_mul P a) (g2_mul P b) = g2_mul P (a - b).
Proof.
  apply (g2_add_cancel_r _ _ (g2_mul P b)).
  rewrite g2_subtract_add, <- g2_mul_add. f_equal. lia.
Qed.

(** Equality of pairings of multiples of the generators. *)
Lemma pair_eq a b c d :
  pair (g1_mul G1_BASE a) (g2_mul G2_BASE b)
  = pair (g1_mul G1_BASE c) (g2_mul G2_BASE d)
  <-> a * b ≅ c * d.
Proof. by rewrite !pair_bilinear, pair_order. Qed.

Lemma pair_eql a b c d :
  Fp12_eql (pair (g1_mul G1_BASE a) (g2_mul G2_BASE b))
           (pair (g1_mul G1_BASE c) (g2_mul G2_BASE d)) = true
  <-> a * b ≅ c * d.
Proof. by rewrite Fp12_eql_spec, pair_eq. Qed.

(** The multiples of the generators are determined by the scalar modulo
    [r]. *)
Lemma g1_mul_inj a b : g1_mul G1_BASE a = g1_mul G1_BASE b <-> a ≅ b.
Proof.
  split; [|apply g1_mul_eqm]. intros Hab.
  assert (Hp : pair (g1_mul G1_BASE a) (g2_mul G2_BASE 1)
               = pair (g1_mul G1_BASE b) (g2_mul G2_BASE 1))
    by (by rewrite Hab).
  apply pair_eq in Hp. by rewrite !Z.mul_1_r in Hp.
Qed.

Lemma g2_mul_inj a b : g2_mul G2_BASE a = g2_mul G2_BASE b <-> a ≅ b.
Proof.
  split; [|apply g2_mul_eqm]. intros Hab.
  assert (Hp : pair (g1_mul G1_BASE 1) (g2_mul G2_BASE a)
               = pair (g1_mul G1_BASE 1) (g2_mul G2_BASE b))
    by (by rewrite Hab).
  apply pair_eq in Hp. by rewrite !Z.mul_1_l in Hp.
Qed.

Lemma g1_mul_is0 a : g1_is0 (g1_mul G1_BASE a) = true <-> a ≅ 0.
Proof. by rewrite g1_is0_spec, <- (g1_mul_zero G1_BASE), g1_mul_inj. Qed.

Lemma g2_mul_is0 a : g2_is0 (g2_mul G2_BASE a) = true <-> a ≅ 0.
Proof. by rewrite g2_is0_spec, <- (g2_mul_zero G2_BASE), g2_mul_inj. Qed.

Lemma g1_mul_not0 a : ~ a ≅ 0 -> g1_is0 (g1_mul G1_BASE a) = false.
Proof. intros Ha. apply not_true_is_false. by rewrite g1_mul_is0. Qed.

Lemma g2_mul_not0 a : ~ a ≅ 0 -> g2_is0 (g2_mul G2_BASE a) = false.
Proof. intros Ha. apply not_true_is_false. by rewrite g2_mul_is0. Qed.

Lemma G1_ZERO_is0 : g1_is0 G1_ZERO = true.
Proof. by apply g1_is0_spec. Qed.

Lemma G2_ZERO_is0 : g2_is0 G2_ZERO = true.
Proof. by apply g2_is0_spec. Qed.

Lemma G1_BASE_not0 : g1_is0 G1_BASE = false.
Proof.
  rewrite <- (g1_mul_one G1_BASE). apply g1_mul_not0, not_eqm_1_0.
Qed.

Lemma G2_BASE_not0 : g2_is0 G2_BASE = false.
Proof.
  rewrite <- (g2_mul_one G2_BASE). apply g2_mul_not0, not_eqm_1_0.
Qed.

(** ** The calls into the library *)

Lemma g1_multiply_valid P n :
  valid_scalar n = true -> g1_multiply P n = Ok (g1_mul P n).
Proof. unfold g1_multiply. by intros ->. Qed.

Lemma g1_multiply_invalid P n :
  valid_scalar n = false -> g1_multiply P n = Throw RangeError.
Proof. unfold g1_multiply. by intros ->. Qed.

Lemma g2_multiply_valid P n :
  valid_scalar n = true -> g2_multiply P n = Ok (g2_mul P n).
Proof. unfold g2_multiply. by intros ->. Qed.

Lemma g2_multiply_invalid P n :
  valid_scalar n = false -> g2_multiply P n = Throw RangeError.
Proof. unfold g2_multiply. by intros ->. Qed.

Lemma g1_multiply_returns P n :
  returns (g1_multiply P n) <-> valid_scalar n = true.
Proof.
  unfold g1_multiply. destruct (valid_scalar n); split; try done.
  - by eexists.
  - by intros [? ?].
Qed.

Lemma pairing_multiples a b :
  ~ a ≅ 0 -> ~ b ≅ 0 ->
  pairing (g1_mul G1_BASE a) (g2_mul G2_BASE b)
  = Ok (pair (g1_mul G1_BASE a) (g2_mul G2_BASE b)).
Proof.
  intros Ha Hb. unfold pairing. by rewrite g1_mul_not0, g2_mul_not0.
Qed.

Lemma pairing_G1_ZERO Q : pairing G1_ZERO Q = Throw PairingError.
Proof. unfold pairing. by rewrite G1_ZERO_is0. Qed.

Lemma pairing_zero_l a Q :
  a ≅ 0 -> pairing (g1_mul G1_BASE a) Q = Throw PairingError.
Proof.
  intros Ha. unfold pairing. by rewrite (proj2 (g1_mul_is0 a) Ha).
Qed.

Lemma pairing_zero_r P b :
  b ≅ 0 -> pairing P (g2_mul G2_BASE b) = Throw PairingError.
Proof.
  intros Hb. unfold pairing. rewrite (proj2 (g2_mul_is0 b) Hb).
  by destruct (g1_is0 P).
Qed.

(** A pairing that returns has neither argument at the identity. *)
Lemma pairing_Ok a b x :
  pairing (g1_mul G1_BASE a) (g2_mul G2_BASE b) = Ok x ->
  ~ a ≅ 0 /\ ~ b ≅ 0 /\ x = pair (g1_mul G1_BASE a) (g2_mul G2_BASE b).
Proof.
  intros Hx. destruct (eqm_dec a 0) as [Ha|Ha].
  { by rewrite pairing_zero_l in Hx. }
  destruct (eqm_dec b 0) as [Hb|Hb].
  { by rewrite pairing_zero_r in Hx. }
  rewrite pairing_multiples in Hx by done. by injection Hx as <-.
Qed.

End Groups.

(** ** Integer polynomials *)

Lemma peval_cons c l x : peval (c :: l) x = c + x * peval l x.
Proof. reflexivity. Qed.

Lemma peval_app l1 l2 x :
  peval (l1 ++ l2) x = peval l1 x + x ^ Z.of_nat (length l1) * peval l2 x.
Proof.
  induction l1 as [|c l1 IH]; [simpl; lia|].
  change (peval (c :: (l1 ++ l2)) x = peval (c :: l1) x
          + x ^ Z.of_nat (S (length l1)) * peval l2 x).
  rewrite !peval_cons, IH, Nat2Z.inj_succ, Z.pow_succ_r by lia. ring.
Qed.

Lemma peval_take_S l i c x :
  l !! i = Some c ->
  peval (take (S i) l) x = peval (take i l) x + c * x ^ Z.of_nat i.
Proof.
  intros Hi. rewrite (take_S_r _ _ _ Hi), peval_app, length_take_le.
  - rewrite peval_cons. simpl peval. ring.
  - apply lookup_lt_Some in Hi. lia.
Qed.

(** ** The trusted setup builds the ladder of powers *)

Section Ladder.
Import bls12_381.
Context {curve : Curve}.

Lemma ladder_length P alpha n : length (ladder P alpha n) = n.
Proof. unfold ladder. by rewrite length_fmap, length_seq. Qed.

Lemma ladder_S P alpha n :
  ladder P alpha (S n)
  = ladder P alpha n ++ [g1_mul P (alpha ^ Z.of_nat n mod r)].
Proof. unfold ladder. by rewrite seq_S, fmap_app. Qed.


Lemma ladder_take P alpha n k :
  (k <= n)%nat -> take k (ladder P alpha n) = ladder P alpha k.
Proof.
  intros Hk. unfold ladder. rewrite <- fmap_take. f_equal.
  by rewrite take_seq, Nat.min_l.
Qed.

Lemma power_step alpha (i : nat) :
  noble.mul Fr (alpha ^ Z.of_nat i mod r) alpha = alpha ^ Z.of_nat (S i) mod r.
Proof.
  rewrite Fr_mul, Zmult_mod_idemp_l, Nat2Z.inj_succ, Z.pow_succ_r by lia.
  f_equal. ring.
Qed.

End Ladder.

Lemma for_range_eq {St} (body : nat -> St -> Res St) (f : nat -> St) start count :
  (forall i, (start <= i < start + count)%nat -> body i (f i) = Ok (f (S i))) ->
  for_range start count body (f start) = Ok (f (start + count)%nat).
Proof.
  intros Hstep.
  destruct (for_range_inv body (fun i s => s = f i) start count (f start))
    as (s' & Hs' & ->); [done | | done].
  intros i s Hi ->. eauto.
Qed.

(** ** Synthetic division *)

Lemma horner_suffixes_length u f : length (horner_suffixes u f) = length f.
Proof. induction f; simpl; congruence. Qed.

Lemma horner_suffixes_canonical u f : Forall canonical (horner_suffixes u f).
Proof.
  induction f; simpl; constructor; [apply canonical_mod | done].
Qed.

Lemma horner_suffixes_tail u f :
  tail (horner_suffixes u f) = horner_suffixes u (tail f).
Proof. by destruct f. Qed.

Lemma evalPolyAt_horner f u :
  utils.evalPolyAt bls12_381.Fr f u = hd 0 (horner_suffixes u f).
Proof.
  induction f as [|c f IH]; [done|].
  change (utils.evalPolyAt bls12_381.Fr (c :: f) u)
    with (noble.add bls12_381.Fr
            (noble.mul bls12_381.Fr (utils.evalPolyAt bls12_381.Fr f u) u) c).
  rewrite IH, Fr_add, Fr_mul, Zplus_mod_idemp_l. simpl. f_equal. ring.
Qed.

Lemma evalPolyAt_peval f x :
  utils.evalPolyAt bls12_381.Fr f x = peval f x mod bls12_381.r.
Proof.
  induction f as [|c f IH]; [done|].
  change (utils.evalPolyAt bls12_381.Fr (c :: f) x)
    with (noble.add bls12_381.Fr
            (noble.mul bls12_381.Fr (utils.evalPolyAt bls12_381.Fr f x) x) c).
  rewrite IH, Fr_add, Fr_mul, Zplus_mod_idemp_l, peval_cons.
  rewrite Z.add_comm, Zplus_mod, Zmult_mod_idemp_l, <- Zplus_mod.
  f_equal. ring.
Qed.

Lemma evalPolyAt_eqm f x : utils.evalPolyAt bls12_381.Fr f x ≅ peval f x.
Proof. rewrite evalPolyAt_peval. apply eqm_mod. Qed.

(** [q(x) (x - u) = f(x) - f(u)] for the quotient [q] made of the carries. *)
Lemma horner_suffixes_division u f x :
  peval (tail (horner_suffixes u f)) x * (x - u)
  ≅ peval f x - hd 0 (horner_suffixes u f).
Proof.
  induction f as [|c f IH]; [done|].
  simpl horner_suffixes. simpl tail. simpl hd. rewrite eqm_mod, peval_cons.
  destruct (horner_suffixes u f) as [|h t] eqn:Hh.
  - destruct f; [|done]. simpl. apply eqm_eq. ring.
  - simpl in IH. simpl hd. rewrite peval_cons.
    transitivity (h * (x - u) + x * (peval t x * (x - u)));
      [apply eqm_eq; ring|].
    rewrite IH. apply eqm_eq. ring.
Qed.

Lemma filled_Some {A} (l : list A) : filled (Some <$> l) = Ok l.
Proof.
  induction l as [|a l IH]; [done|]. rewrite fmap_cons. cbn [filled].
  by rewrite IH.
Qed.

Lemma quotient_loop (fadd fmul : Z -> Z -> Z) (f : list Z) (u : Z) :
  (forall a b, fadd a b = (a + b) mod bls12_381.r) ->
  (forall a b, fmul a b = (a * b) mod bls12_381.r) ->
  f <> [] ->
  (q_coeffs ← new_Array (Z.of_nat (length f) - 1);
   for_down (length f - 1) (fun i '(carry, q_coeffs) =>
     c ← index f i;
     let carry := fadd c (fmul u carry) in
     Ok (carry, <[(i - 1)%nat := Some carry]> q_coeffs)) (0, q_coeffs))
  = Ok (hd 0 (horner_suffixes u (tail f)), Some <$> horner_suffixes u (tail f)).
Proof.
  intros Hadd Hmul Hf. unfold new_Array.
  assert (Hlen : (0 < length f)%nat) by (destruct f; [done | simpl; lia]).
  destruct (Z.ltb_spec (Z.of_nat (length f) - 1) 0); [lia|]. rewrite bind_Ok.
  replace (Z.to_nat (Z.of_nat (length f) - 1)) with (length f - 1)%nat by lia.
  match goal with
  | |- for_down ?n ?body ?s = _ =>
      destruct (for_down_inv body
        (fun i '(carry, q) =>
           carry = hd 0 (horner_suffixes u (drop (S i) f))
           /\ q = replicate i None ++ (Some <$> horner_suffixes u (drop (S i) f)))
        n s) as ([carry q] & Hrun & Hc & Hq); [ | | rewrite Hrun ]
  end.
  - rewrite drop_ge by lia. simpl. by rewrite app_nil_r.
  - intros i [carry q] Hi [-> ->].
    destruct (lookup_lt_is_Some_2 f i ltac:(lia)) as [c Hc].
    rewrite (index_lookup _ _ _ Hc), bind_Ok. cbv zeta. eexists. split; [done|].
    destruct i as [|j]; [lia|]. replace (S j - 1)%nat with j by lia.
    rewrite (drop_S _ _ _ Hc). simpl horner_suffixes. simpl hd.
    rewrite Hadd, Hmul, Zplus_mod_idemp_r. split; [done|].
    rewrite replicate_S_end, <- app_assoc.
    replace j with (length (replicate j (@None Z)) + 0)%nat at 1
      by (rewrite length_replicate; lia).
    rewrite insert_app_r. done.
  - destruct f as [|c f]; [done|]. simpl in *. rewrite drop_0 in Hc, Hq.
    by subst.
Qed.

Lemma Kzg_prove_quotient_spec f u :
  f <> [] ->
  Kzg.prove_quotient f u
  = Ok (hd 0 (horner_suffixes u (tail f)), Some <$> horner_suffixes u (tail f)).
Proof.
  apply (quotient_loop (noble.add bls12_381.Fr) (noble.mul bls12_381.Fr));
    [apply Fr_add | apply Fr_mul].
Qed.

Lemma ZkKzg_prove_quotient_spec f u :
  f <> [] ->
  ZkKzg.prove_quotient f u
  = Ok (hd 0 (horner_suffixes u (tail f)), Some <$> horner_suffixes u (tail f)).
Proof.
  apply (quotient_loop (noble.add bls12_381.Fr) (noble.mul bls12_381.Fr));
    [apply Fr_add | apply Fr_mul].
Qed.

Lemma PCS_prove_quotient_spec f u :
  f <> [] ->
  PolynomialCommitmentScheme.prove_quotient f u
  = Ok (hd 0 (horner_suffixes u (tail f)), Some <$> horner_suffixes u (tail f)).
Proof.
  apply (quotient_loop
           (galois.add PolynomialCommitmentScheme.field)
           (galois.mul PolynomialCommitmentScheme.field));
    [apply field_add | apply field_mul].
Qed.

Lemma horner_suffixes_coeff u f i :
  coeff (horner_suffixes u f) i
  ≅ coeff f i + u * coeff (horner_suffixes u f) (S i).
Proof.
  revert i. induction f as [|c f IH]; intros i.
  { unfold coeff. simpl. apply eqm_eq. ring. }
  destruct i as [|i]; [|apply (IH i)].
  unfold coeff. simpl. rewrite eqm_mod.
  by destruct (horner_suffixes u f).
Qed.


(** ** Loops that throw *)

Lemma for_range_throws {St} (body : nat -> St -> Res St)
    (Inv : nat -> St -> Prop) start count k e s :
  Inv start s ->
  (start <= k < start + count)%nat ->
  (forall i s, (start <= i < k)%nat -> Inv i s ->
     exists s', body i s = Ok s' /\ Inv (S i) s') ->
  (forall s, Inv k s -> body k s = Throw e) ->
  for_range start count body s = Throw e.
Proof.
  revert start s. induction count as [|c IH]; intros start s H0 Hk Hstep Hthrow;
    [lia|]. simpl.
  destruct (Nat.eq_dec start k) as [->|Hne].
  - by rewrite (Hthrow s H0).
  - destruct (Hstep start s ltac:(lia) H0) as (s1 & -> & H1). rewrite bind_Ok.
    apply (IH (S start) s1 H1); [lia | | done].
    intros i s' Hi. apply Hstep. lia.
Qed.

Lemma for_range_throws_at {St} (body : nat -> St -> Res St) start count k e s :
  (start <= k < start + count)%nat ->
  (forall i s, (start <= i < start + count)%nat ->
     returns (body i s) \/ body i s = Throw e) ->
  (forall s, body k s = Throw e) ->
  for_range start count body s = Throw e.
Proof.
  revert start s. induction count as [|c IH]; intros start s Hk Hstep Hthrow;
    [lia|]. simpl.
  destruct (Nat.eq_dec start k) as [->|Hne]; [by rewrite Hthrow|].
  destruct (Hstep start s ltac:(lia)) as [[s1 ->]| ->]; [|done].
  rewrite bind_Ok. apply IH; [lia | | done].
  intros i s' Hi. apply Hstep. lia.
Qed.

Lemma index_past_end {A} (a : list A) i :
  (length a <= i)%nat -> index a i = Throw TypeError.
Proof. intros Hi. unfold index. by rewrite (proj2 (lookup_ge_None a i) Hi). Qed.

Lemma peval_single a x : peval [a] x = a.
Proof. unfold peval. simpl. ring. Qed.

Lemma peval_pair a b x : peval [a; b] x = a + x * b.
Proof. unfold peval. simpl. ring. Qed.

(** A coefficient vector within the range of scalars, entry by entry. *)
Lemma Forall_valid_lookup (f : list Z) i c :
  Forall (fun c => 1 <= c < bls12_381.r) f -> f !! i = Some c ->
  bls12_381.valid_scalar c = true.
Proof.
  intros Hf Hc. apply valid_scalar_spec.
  by apply (proj1 (Forall_lookup _ _) Hf i c).
Qed.

Lemma Exists_invalid_lookup (f : list Z) :
  Exists (fun c => ~ 1 <= c < bls12_381.r) f ->
  exists i c, f !! i = Some c /\ bls12_381.valid_scalar c = false.
Proof.
  intros (c & Hin & Hc)%Exists_exists.
  apply list_elem_of_lookup in Hin as [i Hi].
  exists i, c. split; [done|]. by apply valid_scalar_false.
Qed.

Lemma Forall_or_Exists_valid (f : list Z) :
  Forall (fun c => 1 <= c < bls12_381.r) f
  \/ Exists (fun c => ~ 1 <= c < bls12_381.r) f.
Proof.
  induction f as [|c f [IH|IH]].
  - left. constructor.
  - destruct (decide (1 <= c < bls12_381.r)) as [Hc|Hc].
    + left. by constructor.
    + right. by apply Exists_cons_hd.
  - right. by apply Exists_cons_tl.
Qed.

Lemma Forall_Exists_valid_excl (f : list Z) :
  Forall (fun c => 1 <= c < bls12_381.r) f ->
  Exists (fun c => ~ 1 <= c < bls12_381.r) f -> False.
Proof.
  intros Hf (c & Hin & Hc)%Exists_exists. apply Hc.
  by apply (proj1 (Forall_forall _ _) Hf).
Qed.

(** ** Sums over a ladder *)

Section Sums.
Import bls12_381.
Context {curve : Curve}.

Lemma msm_nil_r (pp : list PointG1) : msm pp [] = G1_ZERO.
Proof. by destruct pp. Qed.

Lemma msm_snoc (pp : list PointG1) (f : list Z) P c :
  length pp = length f ->
  msm (pp ++ [P]) (f ++ [c]) = g1_add (msm pp f) (g1_mul P c).
Proof.
  revert f. induction pp as [|Q pp IH]; intros [|d f] Hlen; try done.
  - simpl. by rewrite g1_add_zero, g1_add_zero_r.
  - simpl. rewrite IH by (simpl in Hlen; lia). by rewrite g1_add_assoc.
Qed.

Lemma msm_take_S (pp : list PointG1) (f : list Z) i P c :
  pp !! i = Some P -> f !! i = Some c ->
  msm (take (S i) pp) (take (S i) f)
  = g1_add (msm (take i pp) (take i f)) (g1_mul P c).
Proof.
  intros HP Hc. rewrite (take_S_r _ _ _ HP), (take_S_r _ _ _ Hc).
  apply msm_snoc. rewrite !length_take_le; [done | |].
  - apply lookup_lt_Some in Hc. lia.
  - apply lookup_lt_Some in HP. lia.
Qed.

Lemma msm_take_take (pp : list PointG1) (f : list Z) n :
  msm (take n pp) (take n f) = msm (take n pp) f.
Proof.
  revert pp f. induction n as [|n IH]; intros [|P pp] [|c f]; try done.
  simpl. by rewrite IH.
Qed.

Lemma msm_take_coeffs (pp : list PointG1) (f : list Z) n :
  msm (take n pp) (take n f) = msm pp (take n f).
Proof.
  revert pp f. induction n as [|n IH]; intros [|P pp] [|c f]; try done.
  simpl. by rewrite IH.
Qed.

Lemma msm_take_length (pp : list PointG1) (f : list Z) :
  msm (take (length f) pp) f = msm pp f.
Proof.
  revert pp. induction f as [|c f IH]; intros [|P pp]; try done.
  simpl. by rewrite IH.
Qed.

Lemma msm_ladder P alpha (f : list Z) :
  msm (ladder P alpha (length f)) f = g1_mul P (peval f alpha).
Proof.
  induction f as [|c f IH] using rev_ind.
  { simpl. destruct (g1_cyclic P) as [p ->].
    by rewrite g1_mul_mul, Z.mul_0_r, g1_mul_zero. }
  rewrite length_app, Nat.add_1_r, ladder_S, msm_snoc, IH
    by (by rewrite ladder_length).
  rewrite g1_mul_mul, peval_app, peval_single.
  assert (Hadd : forall a b, g1_add (g1_mul P a) (g1_mul P b)
                             = g1_mul P (a + b)).
  { intros a b. symmetry. apply g1_mul_add. }
  rewrite Hadd. destruct (g1_cyclic P) as [p ->]. rewrite !g1_mul_mul.
  apply g1_mul_eqm. by rewrite eqm_mod.
Qed.

Lemma msm_add (pp : list PointG1) (f g h : list Z) :
  length f = length pp -> length g = length pp -> length h = length pp ->
  (forall i, (i < length pp)%nat -> coeff h i ≅ coeff f i + coeff g i) ->
  msm pp h = g1_add (msm pp f) (msm pp g).
Proof.
  revert f g h.
  induction pp as [|P pp IH]; intros [|c f] [|d g] [|e h] Hf Hg Hh Hsum;
    try done.
  { simpl. by rewrite g1_add_zero. }
  simpl. rewrite (IH f g h); try (simpl in *; lia).
  - rewrite (g1_mul_eqm P e (c + d)) by apply (Hsum 0%nat ltac:(simpl; lia)).
    rewrite g1_mul_add, <- !g1_add_assoc. f_equal.
    rewrite !g1_add_assoc. f_equal. apply g1_add_comm.
  - intros i Hi. apply (Hsum (S i)). simpl. lia.
Qed.

End Sums.

(** ** The trusted setup *)

Section Setup.
Import bls12_381.
Context {curve : Curve}.

(** The running power [currentAlpha] is a scalar the library accepts as
    long as [alpha] is not a multiple of [r]; the first one is 1. *)
Lemma ladder_scalar_valid alpha (n i : nat) :
  ~ alpha ≅ 0 \/ (n <= 1)%nat -> (i < n)%nat ->
  valid_scalar (alpha ^ Z.of_nat i mod r) = true.
Proof.
  intros [Ha|Hn] Hi.
  - by apply valid_scalar_mod, eqm_pow_nonzero.
  - assert (i = 0%nat) as -> by lia. change (Z.of_nat 0) with 0.
    by rewrite Z.pow_0_r, Z.mod_1_l by apply r_gt_1.
Qed.

Lemma Kzg_setup_loop alpha n :
  ~ alpha ≅ 0 \/ (n <= 1)%nat ->
  for_range 0 n (fun (i : nat) '(currentAlpha, pp) =>
      point ← g1_multiply Kzg.G1 currentAlpha;
      let currentAlpha := noble.mul Kzg.Fr currentAlpha alpha in
      Ok (currentAlpha, pp ++ [point])) (1, [])
  = Ok (alpha ^ Z.of_nat n mod r, ladder G1_BASE alpha n).
Proof.
  intros Ha.
  set (f := fun i : nat => (alpha ^ Z.of_nat i mod r, ladder G1_BASE alpha i)).
  assert (Hinit : (1, []) = f 0%nat).
  { unfold f. change (Z.of_nat 0) with 0.
    by rewrite Z.pow_0_r, Z.mod_1_l by apply r_gt_1. }
  rewrite Hinit. apply (for_range_eq _ f 0 n).
  intros i Hi. unfold f. cbv beta iota. unfold Kzg.Fr, Kzg.G1.
  rewrite g1_multiply_valid by (apply (ladder_scalar_valid alpha n); [done|lia]).
  rewrite bind_Ok. cbv zeta. by rewrite power_step, ladder_S.
Qed.

Lemma Kzg_setup_loop_zero alpha n :
  alpha ≅ 0 -> (2 <= n)%nat ->
  for_range 0 n (fun (i : nat) '(currentAlpha, pp) =>
      point ← g1_multiply Kzg.G1 currentAlpha;
      let currentAlpha := noble.mul Kzg.Fr currentAlpha alpha in
      Ok (currentAlpha, pp ++ [point])) (1, [])
  = Throw RangeError.
Proof.
  intros Ha Hn. destruct n as [|[|n]]; [lia | lia |].
  cbn [for_range]. rewrite (g1_multiply_valid _ 1 valid_scalar_1), bind_Ok.
  cbv zeta. rewrite bind_Ok. unfold Kzg.Fr. rewrite (Fr_mul 1 alpha), Z.mul_1_l.
  rewrite g1_multiply_invalid; [done|].
  apply not_true_is_false. by intros Hv%valid_scalar_mod.
Qed.

Lemma Kzg__setup_spec degree alpha :
  0 < degree -> 1 <= alpha < r ->
  Kzg._setup degree alpha
  = Ok {| Kzg.pp := ladder G1_BASE alpha (Z.to_nat (degree + 1));
          Kzg.alpha_G2 := g2_mul G2_BASE alpha |}.
Proof.
  intros Hd%Z.ltb_lt Ha%valid_scalar_spec. unfold Kzg._setup, Kzg.G2.
  rewrite (assert_true _ Hd), bind_Ok, Kzg_setup_loop
    by (left; by apply valid_scalar_not_zero).
  by rewrite bind_Ok, (g2_multiply_valid _ _ Ha).
Qed.

Lemma Kzg__setup_invalid degree alpha :
  0 < degree -> ~ 1 <= alpha < r ->
  Kzg._setup degree alpha = Throw RangeError.
Proof.
  intros Hd Ha%valid_scalar_false. unfold Kzg._setup, Kzg.G2.
  rewrite (assert_true _ (proj2 (Z.ltb_lt _ _) Hd)), bind_Ok.
  destruct (eqm_dec alpha 0) as [H0|H0].
  - by rewrite Kzg_setup_loop_zero by (done || lia).
  - rewrite Kzg_setup_loop by (by left).
    by rewrite bind_Ok, (g2_multiply_invalid _ _ Ha).
Qed.

Lemma Kzg__setup_guard degree alpha :
  degree <= 0 -> Kzg._setup degree alpha = Throw AssertionError.
Proof.
  intros Hd. unfold Kzg._setup. by destruct (Z.ltb_spec 0 degree); [lia|].
Qed.

Lemma Kzg_setup_spec degree random :
  0 < degree -> 1 <= random < r ->
  Kzg.setup degree random
  = Ok {| Kzg.pp := ladder G1_BASE random (Z.to_nat (degree + 1));
          Kzg.alpha_G2 := g2_mul G2_BASE random |}.
Proof.
  intros Hd Ha. unfold Kzg.setup.
  rewrite Kzg__setup_spec by done. apply Z.ltb_lt in Hd.
  by rewrite (assert_true _ Hd).
Qed.

Lemma Kzg_setup_invalid degree random :
  0 < degree -> ~ 1 <= random < r ->
  Kzg.setup degree random = Throw RangeError.
Proof.
  intros Hd Ha. unfold Kzg.setup.
  rewrite Kzg__setup_invalid by done. apply Z.ltb_lt in Hd.
  by rewrite (assert_true _ Hd).
Qed.

Lemma CheatingKzg_setup_spec degree random :
  0 < degree -> 1 <= random < r ->
  CheatingKzg.setup degree random
  = Ok {| CheatingKzg.pp := ladder G1_BASE random (Z.to_nat (degree + 1));
          CheatingKzg.alpha_G2 := g2_mul G2_BASE random;
          CheatingKzg.alpha := random |}.
Proof.
  intros Hd Ha. unfold CheatingKzg.setup.
  rewrite Kzg__setup_spec by done. apply Z.ltb_lt in Hd.
  by rewrite (assert_true _ Hd).
Qed.

Lemma CheatingKzg_setup_invalid degree random :
  0 < degree -> ~ 1 <= random < r ->
  CheatingKzg.setup degree random = Throw RangeError.
Proof.
  intros Hd Ha. unfold CheatingKzg.setup.
  rewrite Kzg__setup_invalid by done. apply Z.ltb_lt in Hd.
  by rewrite (assert_true _ Hd).
Qed.

Lemma ZkKzg_setup_loop alpha beta n :
  ~ alpha ≅ 0 \/ (n <= 1)%nat ->
  for_range 0 n (fun (i : nat) '(currentAlpha, pp_G1, pp_H) =>
      point_G1 ← g1_multiply ZkKzg.G1 currentAlpha;
      let pp_G1 := pp_G1 ++ [point_G1] in
      point_H ← g1_multiply (g1_mul G1_BASE beta) currentAlpha;
      let pp_H := pp_H ++ [point_H] in
      let currentAlpha := noble.mul ZkKzg.Fr currentAlpha alpha in
      Ok (currentAlpha, pp_G1, pp_H)) (1, [], [])
  = Ok (alpha ^ Z.of_nat n mod r, ladder G1_BASE alpha n,
        ladder (g1_mul G1_BASE beta) alpha n).
Proof.
  intros Ha.
  set (f := fun i : nat => (alpha ^ Z.of_nat i mod r, ladder G1_BASE alpha i,
                            ladder (g1_mul G1_BASE beta) alpha i)).
  assert (Hinit : (1, [], []) = f 0%nat).
  { unfold f. change (Z.of_nat 0) with 0.
    by rewrite Z.pow_0_r, Z.mod_1_l by apply r_gt_1. }
  rewrite Hinit. apply (for_range_eq _ f 0 n).
  intros i Hi. unfold f. cbv beta iota zeta. unfold ZkKzg.Fr, ZkKzg.G1.
  assert (Hv := ladder_scalar_valid alpha n i Ha ltac:(lia)).
  rewrite !(g1_multiply_valid _ _ Hv), !bind_Ok.
  by rewrite power_step, !ladder_S.
Qed.

Lemma ZkKzg_setup_loop_zero alpha (H0 : PointG1) n :
  alpha ≅ 0 -> (2 <= n)%nat ->
  for_range 0 n (fun (i : nat) '(currentAlpha, pp_G1, pp_H) =>
      point_G1 ← g1_multiply ZkKzg.G1 currentAlpha;
      let pp_G1 := pp_G1 ++ [point_G1] in
      point_H ← g1_multiply H0 currentAlpha;
      let pp_H := pp_H ++ [point_H] in
      let currentAlpha := noble.mul ZkKzg.Fr currentAlpha alpha in
      Ok (currentAlpha, pp_G1, pp_H)) (1, [], [])
  = Throw RangeError.
Proof.
  intros Ha Hn. destruct n as [|[|n]]; [lia | lia |].
  cbn [for_range]. cbv beta iota zeta.
  rewrite !(g1_multiply_valid _ 1 valid_scalar_1), !bind_Ok.
  cbv beta iota zeta.
  unfold ZkKzg.Fr. rewrite (Fr_mul 1 alpha), Z.mul_1_l.
  rewrite (g1_multiply_invalid ZkKzg.G1); [done|].
  apply not_true_is_false. by intros Hv%valid_scalar_mod.
Qed.

Lemma ZkKzg__setup_spec degree alpha beta :
  0 < degree -> 1 <= alpha < r -> 1 <= beta < r ->
  ZkKzg._setup degree alpha beta
  = Ok {| ZkKzg.pp_G1 := ladder G1_BASE alpha (Z.to_nat (degree + 1));
          ZkKzg.pp_H :=
            ladder (g1_mul G1_BASE beta) alpha (Z.to_nat (degree + 1));
          ZkKzg.alpha_G2 := g2_mul G2_BASE alpha;
          ZkKzg.H := g1_mul G1_BASE beta |}.
Proof.
  intros Hd%Z.ltb_lt Ha%valid_scalar_spec Hb%valid_scalar_spec.
  unfold ZkKzg._setup. unfold ZkKzg.G1 at 1. unfold ZkKzg.G2.
  rewrite (assert_true _ Hd), bind_Ok, (g1_multiply_valid _ _ Hb), bind_Ok.
  rewrite ZkKzg_setup_loop by (left; by apply valid_scalar_not_zero).
  by rewrite bind_Ok, (g2_multiply_valid _ _ Ha).
Qed.

Lemma ZkKzg__setup_invalid degree alpha beta :
  0 < degree -> ~ (1 <= alpha < r /\ 1 <= beta < r) ->
  ZkKzg._setup degree alpha beta = Throw RangeError.
Proof.
  intros Hd Hab. unfold ZkKzg._setup. unfold ZkKzg.G1 at 1. unfold ZkKzg.G2.
  rewrite (assert_true _ (proj2 (Z.ltb_lt _ _) Hd)), bind_Ok.
  destruct (valid_scalar beta) eqn:Hb.
  2:{ by rewrite (g1_multiply_invalid _ _ Hb). }
  rewrite (g1_multiply_valid _ _ Hb), bind_Ok.
  assert (Ha : valid_scalar alpha = false).
  { apply valid_scalar_false. apply valid_scalar_spec in Hb. tauto. }
  destruct (eqm_dec alpha 0) as [H0|H0].
  - by rewrite ZkKzg_setup_loop_zero by (done || lia).
  - rewrite ZkKzg_setup_loop by (by left).
    by rewrite bind_Ok, (g2_multiply_invalid _ _ Ha).
Qed.

Lemma ZkKzg_setup_spec degree random1 random2 :
  0 < degree -> 1 <= random1 < r -> 1 <= random2 < r ->
  ZkKzg.setup degree random1 random2
  = Ok {| ZkKzg.pp_G1 := ladder G1_BASE random1 (Z.to_nat (degree + 1));
          ZkKzg.pp_H :=
            ladder (g1_mul G1_BASE random2) random1 (Z.to_nat (degree + 1));
          ZkKzg.alpha_G2 := g2_mul G2_BASE random1;
          ZkKzg.H := g1_mul G1_BASE random2 |}.
Proof.
  intros Hd Ha Hb. unfold ZkKzg.setup. cbv zeta.
  rewrite ZkKzg__setup_spec by done. apply Z.ltb_lt in Hd.
  by rewrite (assert_true _ Hd).
Qed.

Lemma ZkKzg_setup_invalid degree random1 random2 :
  0 < degree -> ~ (1 <= random1 < r /\ 1 <= random2 < r) ->
  ZkKzg.setup degree random1 random2 = Throw RangeError.
Proof.
  intros Hd Hab. unfold ZkKzg.setup. cbv zeta.
  rewrite ZkKzg__setup_invalid by done. apply Z.ltb_lt in Hd.
  by rewrite (assert_true _ Hd).
Qed.

Lemma PCS_setup_loop a n :
  ~ a ≅ 0 \/ (n <= 1)%nat ->
  for_range 0 n (fun (i : nat) '(currentAlpha, pp) =>
      point ← g1_multiply G1_BASE currentAlpha;
      let currentAlpha :=
        galois.mul PolynomialCommitmentScheme.field currentAlpha a in
      Ok (currentAlpha, pp ++ [point])) (1, [])
  = Ok (a ^ Z.of_nat n mod r, ladder G1_BASE a n).
Proof.
  intros Ha.
  set (st := fun i : nat => (a ^ Z.of_nat i mod r, ladder G1_BASE a i)).
  assert (Hinit : (1, []) = st 0%nat).
  { unfold st. change (Z.of_nat 0) with 0.
    by rewrite Z.pow_0_r, Z.mod_1_l by apply r_gt_1. }
  rewrite Hinit. apply (for_range_eq _ st 0 n).
  intros i Hi. unfold st. cbv beta iota.
  rewrite g1_multiply_valid by (apply (ladder_scalar_valid a n); [done|lia]).
  rewrite bind_Ok. cbv zeta. unfold PolynomialCommitmentScheme.field.
  change (noble.ORDER Fr) with r.
  by rewrite field_mul, <- Fr_mul, power_step, ladder_S.
Qed.

Lemma PCS_setup_loop_zero a n :
  a ≅ 0 -> (2 <= n)%nat ->
  for_range 0 n (fun (i : nat) '(currentAlpha, pp) =>
      point ← g1_multiply G1_BASE currentAlpha;
      let currentAlpha :=
        galois.mul PolynomialCommitmentScheme.field currentAlpha a in
      Ok (currentAlpha, pp ++ [point])) (1, [])
  = Throw RangeError.
Proof.
  intros Ha Hn. destruct n as [|[|n]]; [lia | lia |].
  cbn [for_range]. rewrite (g1_multiply_valid _ 1 valid_scalar_1), bind_Ok.
  cbv zeta. rewrite bind_Ok. unfold PolynomialCommitmentScheme.field.
  change (noble.ORDER Fr) with r. rewrite (field_mul 1 a), Z.mul_1_l.
  rewrite g1_multiply_invalid; [done|].
  apply not_true_is_false. by intros Hv%valid_scalar_mod.
Qed.

Lemma PCS_setup_spec degree random :
  1 <= random < r ->
  PolynomialCommitmentScheme.setup degree random
  = Ok {| PolynomialCommitmentScheme.pp :=
            ladder G1_BASE random (Z.to_nat (degree + 1));
          PolynomialCommitmentScheme.alpha_G2 := g2_mul G2_BASE random |}.
Proof.
  intros Ha%valid_scalar_spec. unfold PolynomialCommitmentScheme.setup.
  cbv zeta. rewrite PCS_setup_loop by (left; by apply valid_scalar_not_zero).
  by rewrite bind_Ok, (g2_multiply_valid _ _ Ha).
Qed.

Lemma PCS_setup_invalid degree random :
  ~ 1 <= random < r ->
  PolynomialCommitmentScheme.setup degree random = Throw RangeError.
Proof.
  intros Ha%valid_scalar_false. unfold PolynomialCommitmentScheme.setup.
  cbv zeta. destruct (eqm_dec random 0) as [H0|H0].
  - destruct (le_lt_dec 2 (Z.to_nat (degree + 1))) as [Hn|Hn].
    + by rewrite PCS_setup_loop_zero.
    + rewrite PCS_setup_loop by (right; lia).
      by rewrite bind_Ok, (g2_multiply_invalid _ _ Ha).
  - rewrite PCS_setup_loop by (by left).
    by rewrite bind_Ok, (g2_multiply_invalid _ _ Ha).
Qed.

End Setup.

(** ** Commitments *)

Section Commit.
Import bls12_381.
Context {curve : Curve}.

Lemma Kzg_commit_mismatch (pp : list PointG1) (f_coeffs : list Z) :
  length pp <> length f_coeffs -> Kzg.commit pp f_coeffs = Throw AssertionError.
Proof.
  intros Hne%Nat.eqb_neq. unfold Kzg.commit. by rewrite Hne.
Qed.

(** The loop of [commit] adds up the terms [f_coeffs[i] pp[i]] when every
    coefficient is a scalar the library accepts. *)
Lemma Kzg_commit_msm (pp : list PointG1) (f_coeffs : list Z) :
  length pp = length f_coeffs ->
  Forall (fun c => 1 <= c < r) f_coeffs ->
  Kzg.commit pp f_coeffs = Ok (msm pp f_coeffs).
Proof.
  intros Hlen Hval. unfold Kzg.commit.
  rewrite (assert_true _ (proj2 (Nat.eqb_eq _ _) Hlen)), bind_Ok.
  loop_invariant
    (fun (i : nat) com_f => com_f = msm (take i pp) (take i f_coeffs))
    as com Hcom.
  - done.
  - intros i com_f Hi ->.
    destruct (lookup_lt_is_Some_2 pp i ltac:(lia)) as [P HP].
    destruct (lookup_lt_is_Some_2 f_coeffs i ltac:(lia)) as [c Hc].
    rewrite (index_lookup _ _ _ HP), (index_lookup _ _ _ Hc), !bind_Ok.
    rewrite (g1_multiply_valid _ _ (Forall_valid_lookup _ _ _ Hval Hc)), bind_Ok.
    eexists. split; [done|]. by rewrite (msm_take_S _ _ _ _ _ HP Hc).
  - rewrite Hcom. change (0 + length pp)%nat with (length pp).
    by rewrite firstn_all, Hlen, firstn_all.
Qed.

(** It throws at the first coefficient that the library refuses. *)
Lemma Kzg_commit_invalid (pp : list PointG1) (f_coeffs : list Z) :
  length pp = length f_coeffs ->
  Exists (fun c => ~ 1 <= c < r) f_coeffs ->
  Kzg.commit pp f_coeffs = Throw RangeError.
Proof.
  intros Hlen (k & ck & Hk & Hck)%Exists_invalid_lookup. unfold Kzg.commit.
  rewrite (assert_true _ (proj2 (Nat.eqb_eq _ _) Hlen)), bind_Ok.
  assert (Hklt := lookup_lt_Some _ _ _ Hk).
  apply (for_range_throws_at _ 0 (length pp) k); [lia | |].
  - intros i com_f Hi. cbv beta.
    destruct (lookup_lt_is_Some_2 pp i ltac:(lia)) as [P HP].
    destruct (lookup_lt_is_Some_2 f_coeffs i ltac:(lia)) as [c Hc].
    rewrite (index_lookup _ _ _ HP), (index_lookup _ _ _ Hc), !bind_Ok.
    destruct (valid_scalar c) eqn:Hv.
    + left. rewrite (g1_multiply_valid _ _ Hv), bind_Ok. by eexists.
    + right. by rewrite (g1_multiply_invalid _ _ Hv).
  - intros com_f. cbv beta.
    destruct (lookup_lt_is_Some_2 pp k ltac:(lia)) as [P HP].
    rewrite (index_lookup _ _ _ HP), (index_lookup _ _ _ Hk), !bind_Ok.
    by rewrite (g1_multiply_invalid _ _ Hck).
Qed.

Lemma PCS_commit_Kzg (pp : list PointG1) (coefficients : list Z) :
  PolynomialCommitmentScheme.commit pp coefficients = Kzg.commit pp coefficients.
Proof. reflexivity. Qed.

Lemma ZkKzg_commit_mismatch (pp_G1 pp_H : list PointG1) (f_coeffs r_coeffs : list Z) :
  length pp_G1 <> length f_coeffs \/ length pp_H <> length r_coeffs ->
  ZkKzg.commit pp_G1 pp_H f_coeffs r_coeffs = Throw AssertionError.
Proof.
  unfold ZkKzg.commit.
  destruct (Nat.eqb_spec (length pp_G1) (length f_coeffs)) as [Hf|Hf]; [|done].
  destruct (Nat.eqb_spec (length pp_H) (length r_coeffs)) as [Hr|Hr]; [|done].
  intros [Hne|Hne]; by destruct Hne.
Qed.

(** The loop of the hiding [commit] adds up both kinds of terms, over the
    first [pp_G1.length] entries of each array. *)
Lemma ZkKzg_commit_msm (pp_G1 pp_H : list PointG1) (f_coeffs r_coeffs : list Z) :
  length pp_G1 = length f_coeffs -> length pp_H = length r_coeffs ->
  (length pp_G1 <= length pp_H)%nat ->
  Forall (fun c => 1 <= c < r) f_coeffs ->
  Forall (fun c => 1 <= c < r) (take (length pp_G1) r_coeffs) ->
  ZkKzg.commit pp_G1 pp_H f_coeffs r_coeffs
  = Ok (g1_add (msm pp_G1 f_coeffs)
               (msm (take (length pp_G1) pp_H) (take (length pp_G1) r_coeffs))).
Proof.
  intros Hf Hr Hle Hvf Hvr. unfold ZkKzg.commit.
  rewrite (assert_true _ (proj2 (Nat.eqb_eq _ _) Hf)), bind_Ok.
  rewrite (assert_true _ (proj2 (Nat.eqb_eq _ _) Hr)), bind_Ok.
  loop_invariant
    (fun (i : nat) com_f =>
       com_f = g1_add (msm (take i pp_G1) (take i f_coeffs))
                      (msm (take i pp_H) (take i r_coeffs)))
    as com Hcom.
  - simpl. by rewrite g1_add_zero.
  - intros i com_f Hi ->.
    destruct (lookup_lt_is_Some_2 pp_G1 i ltac:(lia)) as [P HP].
    destruct (lookup_lt_is_Some_2 f_coeffs i ltac:(lia)) as [c Hc].
    destruct (lookup_lt_is_Some_2 pp_H i ltac:(lia)) as [PH HPH].
    destruct (lookup_lt_is_Some_2 r_coeffs i ltac:(lia)) as [cr Hcr].
    assert (Hcr' : take (length pp_G1) r_coeffs !! i = Some cr)
      by (rewrite lookup_take_lt by lia; done).
    rewrite (index_lookup _ _ _ HP), (index_lookup _ _ _ Hc), !bind_Ok.
    rewrite (g1_multiply_valid _ _ (Forall_valid_lookup _ _ _ Hvf Hc)), bind_Ok.
    rewrite (index_lookup _ _ _ HPH), (index_lookup _ _ _ Hcr), !bind_Ok.
    rewrite (g1_multiply_valid _ _ (Forall_valid_lookup _ _ _ Hvr Hcr')),
      bind_Ok.
    eexists. split; [done|].
    rewrite (msm_take_S _ _ _ _ _ HP Hc), (msm_take_S _ _ _ _ _ HPH Hcr).
    rewrite <- !g1_add_assoc. f_equal. rewrite !g1_add_assoc. f_equal.
    apply g1_add_comm.
  - rewrite Hcom. change (0 + length pp_G1)%nat with (length pp_G1).
    by rewrite firstn_all, Hf, firstn_all.
Qed.

Lemma ZkKzg_commit_invalid (pp_G1 pp_H : list PointG1) (f_coeffs r_coeffs : list Z) :
  length pp_G1 = length f_coeffs -> length pp_H = length r_coeffs ->
  (length pp_G1 <= length pp_H)%nat ->
  Exists (fun c => ~ 1 <= c < r) f_coeffs
  \/ Exists (fun c => ~ 1 <= c < r) (take (length pp_G1) r_coeffs) ->
  ZkKzg.commit pp_G1 pp_H f_coeffs r_coeffs = Throw RangeError.
Proof.
  intros Hf Hr Hle Hex. unfold ZkKzg.commit.
  rewrite (assert_true _ (proj2 (Nat.eqb_eq _ _) Hf)), bind_Ok.
  rewrite (assert_true _ (proj2 (Nat.eqb_eq _ _) Hr)), bind_Ok.
  assert (Hstep : forall i, (i < length pp_G1)%nat ->
    exists P c PH cr,
      pp_G1 !! i = Some P /\ f_coeffs !! i = Some c
      /\ pp_H !! i = Some PH /\ r_coeffs !! i = Some cr).
  { intros i Hi.
    destruct (lookup_lt_is_Some_2 pp_G1 i ltac:(lia)) as [P HP].
    destruct (lookup_lt_is_Some_2 f_coeffs i ltac:(lia)) as [c Hc].
    destruct (lookup_lt_is_Some_2 pp_H i ltac:(lia)) as [PH HPH].
    destruct (lookup_lt_is_Some_2 r_coeffs i ltac:(lia)) as [cr Hcr].
    by exists P, c, PH, cr. }
  assert (Hk : exists k c cr,
            (k < length pp_G1)%nat /\ f_coeffs !! k = Some c
            /\ r_coeffs !! k = Some cr
            /\ (valid_scalar c = false \/ valid_scalar cr = false)).
  { destruct Hex as [(k & c & Hk & Hc)%Exists_invalid_lookup
                    |(k & cr & Hk & Hcr)%Exists_invalid_lookup].
    - assert (Hklt := lookup_lt_Some _ _ _ Hk).
      destruct (Hstep k ltac:(lia)) as (_ & _ & _ & cr & _ & _ & _ & Hcr).
      exists k, c, cr. split; [lia|]. auto.
    - assert (Hklt := lookup_lt_Some _ _ _ Hk).
      rewrite length_take in Hklt.
      rewrite lookup_take_lt in Hk by lia.
      destruct (Hstep k ltac:(lia)) as (_ & c & _ & _ & _ & Hc & _ & _).
      exists k, c, cr. split; [lia|]. auto. }
  destruct Hk as (k & ck & crk & Hklt & Hck & Hcrk & Hbad).
  apply (for_range_throws_at _ 0 (length pp_G1) k); [lia | |].
  - intros i com_f Hi. cbv beta.
    destruct (Hstep i ltac:(lia)) as (P & c & PH & cr & HP & Hc & HPH & Hcr).
    rewrite (index_lookup _ _ _ HP), (index_lookup _ _ _ Hc), !bind_Ok.
    destruct (valid_scalar c) eqn:Hv.
    2:{ right. by rewrite (g1_multiply_invalid _ _ Hv). }
    rewrite (g1_multiply_valid _ _ Hv), bind_Ok.
    rewrite (index_lookup _ _ _ HPH), (index_lookup _ _ _ Hcr), !bind_Ok.
    destruct (valid_scalar cr) eqn:Hvr.
    + left. rewrite (g1_multiply_valid _ _ Hvr), bind_Ok. by eexists.
    + right. by rewrite (g1_multiply_invalid _ _ Hvr).
  - intros com_f. cbv beta.
    destruct (Hstep k ltac:(lia)) as (P & c & PH & cr & HP & Hc & HPH & Hcr).
    rewrite Hck in Hc. injection Hc as <-.
    rewrite Hcrk in Hcr. injection Hcr as <-.
    rewrite (index_lookup _ _ _ HP), (index_lookup _ _ _ Hck), !bind_Ok.
    destruct (valid_scalar ck) eqn:Hv.
    2:{ by rewrite (g1_multiply_invalid _ _ Hv). }
    rewrite (g1_multiply_valid _ _ Hv), bind_Ok.
    rewrite (index_lookup _ _ _ HPH), (index_lookup _ _ _ Hcrk), !bind_Ok.
    destruct Hbad as [Hbad|Hbad]; [done|].
    by rewrite (g1_multiply_invalid _ _ Hbad).
Qed.

(** With a shorter second ladder both assertions pass and the loop reads
    [pp_H] past its end. *)
Lemma ZkKzg_commit_past_end
    (pp_G1 pp_H : list PointG1) (f_coeffs r_coeffs : list Z) :
  length pp_G1 = length f_coeffs ->
  length pp_H = length r_coeffs ->
  (length pp_H < length pp_G1)%nat ->
  Forall (fun c => 1 <= c < r) f_coeffs ->
  Forall (fun c => 1 <= c < r) r_coeffs ->
  ZkKzg.commit pp_G1 pp_H f_coeffs r_coeffs = Throw TypeError.
Proof.
  intros Hf Hr Hlt Hvf Hvr. unfold ZkKzg.commit.
  rewrite (assert_true _ (proj2 (Nat.eqb_eq _ _) Hf)), bind_Ok.
  rewrite (assert_true _ (proj2 (Nat.eqb_eq _ _) Hr)), bind_Ok.
  apply (for_range_throws _ (fun _ _ => True) 0 (length pp_G1) (length pp_H));
    [done | lia | |].
  - intros i com_f Hi _.
    destruct (lookup_lt_is_Some_2 pp_G1 i ltac:(lia)) as [P HP].
    destruct (lookup_lt_is_Some_2 f_coeffs i ltac:(lia)) as [c Hc].
    destruct (lookup_lt_is_Some_2 pp_H i ltac:(lia)) as [PH HPH].
    destruct (lookup_lt_is_Some_2 r_coeffs i ltac:(lia)) as [cr Hcr].
    rewrite (index_lookup _ _ _ HP), (index_lookup _ _ _ Hc), !bind_Ok.
    rewrite (g1_multiply_valid _ _ (Forall_valid_lookup _ _ _ Hvf Hc)), bind_Ok.
    rewrite (index_lookup _ _ _ HPH), (index_lookup _ _ _ Hcr), !bind_Ok.
    rewrite (g1_multiply_valid _ _ (Forall_valid_lookup _ _ _ Hvr Hcr)), bind_Ok.
    eauto.
  - intros com_f _.
    destruct (lookup_lt_is_Some_2 pp_G1 (length pp_H) Hlt) as [P HP].
    destruct (lookup_lt_is_Some_2 f_coeffs (length pp_H) ltac:(lia)) as [c Hc].
    rewrite (index_lookup _ _ _ HP), (index_lookup _ _ _ Hc), !bind_Ok.
    rewrite (g1_multiply_valid _ _ (Forall_valid_lookup _ _ _ Hvf Hc)), bind_Ok.
    by rewrite (index_past_end pp_H (length pp_H)).
Qed.

End Commit.

(** ** Evaluation proofs *)

Section Prove.
Import bls12_381.
Context {curve : Curve}.

Lemma tail_length {A} (l : list A) : length (tail l) = (length l - 1)%nat.
Proof. destruct l; simpl; lia. Qed.

(** [prove] is [commit] of the quotient over the sliced ladder. *)
Lemma Kzg_prove_unfold (pp : list PointG1) (f_coeffs : list Z) (u : Z) :
  f_coeffs <> [] ->
  Kzg.prove pp f_coeffs u
  = Kzg.commit (take (length f_coeffs - 1) pp)
               (horner_suffixes u (tail f_coeffs)).
Proof.
  intros Hf. unfold Kzg.prove.
  rewrite (Kzg_prove_quotient_spec _ u Hf), bind_Ok. cbv zeta.
  by rewrite filled_Some, bind_Ok, length_fmap, horner_suffixes_length,
    tail_length.
Qed.

Lemma Kzg_prove_empty (pp : list PointG1) (u : Z) :
  Kzg.prove pp [] u = Throw RangeError.
Proof. reflexivity. Qed.

Lemma Kzg_prove_constant (pp : list PointG1) c u :
  Kzg.prove pp [c] u = Ok G1_ZERO.
Proof. reflexivity. Qed.

Lemma PCS_prove_Kzg (pp : list PointG1) coefficients u :
  PolynomialCommitmentScheme.prove pp coefficients u
  = Kzg.prove pp coefficients u.
Proof.
  unfold Kzg.prove, PolynomialCommitmentScheme.prove.
  destruct coefficients as [|c f]; [done|].
  by rewrite Kzg_prove_quotient_spec, PCS_prove_quotient_spec.
Qed.

Lemma ZkKzg_prove_unfold
    (pp_G1 pp_H : list PointG1) (f_coeffs r_coeffs : list Z) (u : Z) :
  f_coeffs <> [] -> r_coeffs <> [] ->
  ZkKzg.prove pp_G1 pp_H f_coeffs r_coeffs u
  = ZkKzg.commit (take (length f_coeffs - 1) pp_G1)
                 (take (length r_coeffs - 1) pp_H)
                 (horner_suffixes u (tail f_coeffs))
                 (horner_suffixes u (tail r_coeffs)).
Proof.
  intros Hf Hr. unfold ZkKzg.prove.
  rewrite (ZkKzg_prove_quotient_spec _ u Hf), bind_Ok.
  rewrite (ZkKzg_prove_quotient_spec _ u Hr), bind_Ok. cbv zeta.
  by rewrite !filled_Some, !bind_Ok, !length_fmap, !horner_suffixes_length,
    !tail_length.
Qed.

(** The quotient coefficients are field elements: the library accepts
    them exactly when they are not zero. *)
Lemma horner_suffixes_valid u f :
  Forall (fun c => c <> 0) (horner_suffixes u f) ->
  Forall (fun c => 1 <= c < r) (horner_suffixes u f).
Proof.
  intros Hnz. pose proof (horner_suffixes_canonical u f) as Hcan.
  rewrite Forall_forall in *. intros c Hc.
  specialize (Hnz c Hc). specialize (Hcan c Hc). unfold canonical in Hcan. lia.
Qed.

Lemma horner_suffixes_invalid u f :
  Exists (fun c => c = 0) (horner_suffixes u f) ->
  Exists (fun c => ~ 1 <= c < r) (horner_suffixes u f).
Proof. intros Hex. eapply Exists_impl; [exact Hex|]. intros c ->. lia. Qed.

End Prove.

(** ** The pairing check *)

Section Verify.
Import bls12_381.
Context {curve : Curve}.

(** The outcome of [verify] on multiples of the generators: the library
    calls in the order of the source, then the comparison. *)
Lemma Kzg_verify_multiples a b u v al :
  Kzg.verify (g1_mul G1_BASE a) (g1_mul G1_BASE b) u v (g2_mul G2_BASE al)
  = if negb (valid_scalar u) then Throw RangeError
    else if decide (b ≅ 0 \/ al ≅ u) then Throw PairingError
    else if negb (valid_scalar v) then Throw RangeError
    else if decide (a ≅ v) then Throw PairingError
    else Ok (bool_decide (b * (al - u) ≅ a - v)).
Proof.
  unfold Kzg.verify, Kzg.G1, Kzg.G2.
  destruct (valid_scalar u) eqn:Hu; simpl negb; cbv iota.
  2:{ by rewrite (g2_multiply_invalid _ _ Hu). }
  rewrite (g2_multiply_valid _ _ Hu), bind_Ok, g2_subtract_mul.
  destruct (decide (b ≅ 0 \/ al ≅ u)) as [[Hb|Hal]|Hn].
  { by rewrite (pairing_zero_l _ _ Hb). }
  { by rewrite pairing_zero_r by (by apply eqm_sub_zero). }
  rewrite pairing_multiples, bind_Ok
    by (rewrite ?eqm_sub_zero; intros ?; apply Hn; auto).
  destruct (valid_scalar v) eqn:Hv; simpl negb; cbv iota.
  2:{ by rewrite (g1_multiply_invalid _ _ Hv). }
  rewrite (g1_multiply_valid _ _ Hv), bind_Ok, g1_subtract_mul.
  destruct (decide (a ≅ v)) as [Hav|Hav].
  { by rewrite pairing_zero_l by (by apply eqm_sub_zero). }
  rewrite <- (g2_mul_one G2_BASE) at 1.
  rewrite pairing_multiples, bind_Ok
    by (rewrite ?eqm_sub_zero; done || apply not_eqm_1_0).
  f_equal. apply eq_true_iff_eq.
  rewrite pair_eql, bool_decide_eq_true, Z.mul_1_r.
  split; intros Hs; by symmetry.
Qed.

(** The same for the first implementation, which multiplies first and
    pairs the left-hand side first. *)
Lemma PCS_verify_multiples a b u v al :
  PolynomialCommitmentScheme.verify
    (g1_mul G1_BASE a) (g1_mul G1_BASE b) u v (g2_mul G2_BASE al)
  = if negb (valid_scalar v) then Throw RangeError
    else if negb (valid_scalar u) then Throw RangeError
    else if decide (a ≅ v) then Throw PairingError
    else if decide (b ≅ 0 \/ al ≅ u) then Throw PairingError
    else Ok (bool_decide (b * (al - u) ≅ a - v)).
Proof.
  unfold PolynomialCommitmentScheme.verify.
  destruct (valid_scalar v) eqn:Hv; simpl negb; cbv iota.
  2:{ by rewrite (g1_multiply_invalid _ _ Hv). }
  rewrite (g1_multiply_valid _ _ Hv), bind_Ok. cbv zeta.
  destruct (valid_scalar u) eqn:Hu; simpl negb; cbv iota.
  2:{ by rewrite (g2_multiply_invalid _ _ Hu). }
  rewrite (g2_multiply_valid _ _ Hu), bind_Ok, g1_subtract_mul,
    g2_subtract_mul.
  destruct (decide (a ≅ v)) as [Hav|Hav].
  { by rewrite (pairing_zero_l (a - v)) by (by apply eqm_sub_zero). }
  rewrite <- (g2_mul_one G2_BASE) at 1.
  rewrite (pairing_multiples (a - v) 1), bind_Ok
    by (rewrite ?eqm_sub_zero; done || apply not_eqm_1_0).
  destruct (decide (b ≅ 0 \/ al ≅ u)) as [[Hb|Hal]|Hn].
  { by rewrite (pairing_zero_l _ _ Hb). }
  { by rewrite pairing_zero_r by (by apply eqm_sub_zero). }
  rewrite pairing_multiples, bind_Ok
    by (rewrite ?eqm_sub_zero; intros ?; apply Hn; auto).
  f_equal. apply eq_true_iff_eq.
  rewrite pair_eql, bool_decide_eq_true, Z.mul_1_r.
  split; intros Hs; by symmetry.
Qed.

(** The hiding [verify], with [H = be G1]. *)
Lemma ZkKzg_verify_multiples a b u v v_r al be :
  ZkKzg.verify (g1_mul G1_BASE a) (g1_mul G1_BASE b) u v v_r
               (g2_mul G2_BASE al) (g1_mul G1_BASE be)
  = if negb (valid_scalar u) then Throw RangeError
    else if decide (b ≅ 0 \/ al ≅ u) then Throw PairingError
    else if negb (valid_scalar v) then Throw RangeError
    else if negb (valid_scalar v_r) then Throw RangeError
    else if decide (a ≅ v + be * v_r) then Throw PairingError
    else Ok (bool_decide (b * (al - u) ≅ a - v - be * v_r)).
Proof.
  unfold ZkKzg.verify, ZkKzg.G1, ZkKzg.G2.
  destruct (valid_scalar u) eqn:Hu; simpl negb; cbv iota.
  2:{ by rewrite (g2_multiply_invalid _ _ Hu). }
  rewrite (g2_multiply_valid _ _ Hu), bind_Ok, g2_subtract_mul.
  destruct (decide (b ≅ 0 \/ al ≅ u)) as [[Hb|Hal]|Hn].
  { by rewrite (pairing_zero_l _ _ Hb). }
  { by rewrite pairing_zero_r by (by apply eqm_sub_zero). }
  rewrite pairing_multiples, bind_Ok
    by (rewrite ?eqm_sub_zero; intros ?; apply Hn; auto).
  destruct (valid_scalar v) eqn:Hv; simpl negb; cbv iota.
  2:{ by rewrite (g1_multiply_invalid _ _ Hv). }
  rewrite (g1_multiply_valid _ _ Hv), bind_Ok.
  destruct (valid_scalar v_r) eqn:Hvr; simpl negb; cbv iota.
  2:{ by rewrite (g1_multiply_invalid _ _ Hvr). }
  rewrite (g1_multiply_valid _ _ Hvr), bind_Ok.
  rewrite g1_mul_mul, !g1_subtract_mul.
  assert (E : a ≅ v + be * v_r <-> a - v - be * v_r ≅ 0).
  { rewrite <- (eqm_sub_zero a). by replace (a - (v + be * v_r))
      with (a - v - be * v_r) by ring. }
  destruct (decide (a ≅ v + be * v_r)) as [Hav|Hav].
  { by rewrite pairing_zero_l by (by apply E). }
  rewrite <- (g2_mul_one G2_BASE) at 1.
  rewrite pairing_multiples, bind_Ok
    by (rewrite <- ?E; done || apply not_eqm_1_0).
  f_equal. apply eq_true_iff_eq.
  rewrite pair_eql, bool_decide_eq_true, Z.mul_1_r.
  split; intros Hs; by symmetry.
Qed.

End Verify.

(** ** Field division and the forged proof *)

(** Field division by a non-zero element succeeds and inverts the
    multiplication. *)
Lemma Fr_div_spec num den :
  ~ den ≅ 0 ->
  exists q, noble.div bls12_381.Fr num den = Ok q
            /\ canonical q /\ q * den ≅ num.
Proof.
  intros Hden. pose proof r_gt_1 as Hr.
  assert (Hnz : den mod bls12_381.r <> 0).
  { intros H0. apply Hden. apply eqm_zero_mod. by rewrite Z.sub_0_r. }
  unfold bls12_381.Fr, noble.Field, noble.div, noble.invert.
  rewrite noble_mod_spec by lia.
  destruct (Z.eqb_spec (den mod bls12_381.r) 0) as [|_]; [done|].
  rewrite bind_Ok. eexists. split; [done|].
  rewrite noble_mod_spec by lia. split; [apply canonical_mod|].
  rewrite eqm_mod.
  assert (Hinv : Z.invmod den bls12_381.r * den ≅ 1).
  { unfold eqm. rewrite (Z.invmod_prime _ _ r_prime Hnz).
    symmetry. apply Z.mod_1_l. lia. }
  rewrite <- Z.mul_assoc, Hinv. apply eqm_eq. ring.
Qed.

Lemma Fr_div_zero num den :
  den ≅ 0 -> noble.div bls12_381.Fr num den = Throw InvertError.
Proof.
  intros Hden. pose proof r_gt_1 as Hr.
  unfold bls12_381.Fr, noble.Field, noble.div, noble.invert.
  rewrite noble_mod_spec by lia.
  assert (H0 : den mod bls12_381.r = 0).
  { unfold eqm in Hden. by rewrite Hden, Z.mod_0_l by lia. }
  by rewrite H0.
Qed.

Section Forgery.
Import bls12_381.
Context {curve : Curve}.

Lemma cheating_evaluation (f_coeffs : list Z) (alpha : Z) :
  for_range 0 (length f_coeffs) (fun (i : nat) '(f_alpha, currentAlphaPow) =>
      c ← index f_coeffs i;
      let term := noble.mul Kzg.Fr c currentAlphaPow in
      let f_alpha := noble.add Kzg.Fr f_alpha term in
      let currentAlphaPow := noble.mul Kzg.Fr currentAlphaPow alpha in
      Ok (f_alpha, currentAlphaPow)) (0, 1)
  = Ok (peval f_coeffs alpha mod r, alpha ^ Z.of_nat (length f_coeffs) mod r).
Proof.
  set (st := fun i : nat =>
         (peval (take i f_coeffs) alpha mod r, alpha ^ Z.of_nat i mod r)).
  assert (Hinit : (0, 1) = st 0%nat).
  { unfold st. rewrite take_0. change (Z.of_nat 0) with 0.
    by rewrite Z.pow_0_r, Z.mod_1_l by apply r_gt_1. }
  assert (Hend : st (0 + length f_coeffs)%nat
                 = (peval f_coeffs alpha mod r,
                    alpha ^ Z.of_nat (length f_coeffs) mod r)).
  { unfold st. simpl. by rewrite firstn_all. }
  rewrite Hinit, <- Hend. apply (for_range_eq _ st 0 (length f_coeffs)).
  intros i Hi. unfold st.
  destruct (lookup_lt_is_Some_2 f_coeffs i ltac:(lia)) as [c Hc].
  rewrite (index_lookup _ _ _ Hc), bind_Ok. cbv zeta. unfold Kzg.Fr.
  rewrite power_step, (peval_take_S _ _ _ _ Hc). do 2 f_equal.
  rewrite Fr_add, Fr_mul.
  change (peval (take i f_coeffs) alpha mod r
            + (c * (alpha ^ Z.of_nat i mod r)) mod r
          ≅ peval (take i f_coeffs) alpha + c * alpha ^ Z.of_nat i).
  by rewrite !eqm_mod.
Qed.

(** The forger away from the secret: the field division returns a field
    element [qFake], and the result is the library's [G1.multiply(qFake)]. *)
Lemma CheatingKzg_prove_unfold
    (pp : list PointG1) (f_coeffs : list Z) (u vFake alpha : Z) :
  ~ alpha ≅ u ->
  exists qFake,
    canonical qFake
    /\ qFake * (alpha - u) ≅ peval f_coeffs alpha - vFake
    /\ CheatingKzg.prove pp f_coeffs u vFake alpha
       = g1_multiply G1_BASE qFake.
Proof.
  intros Hau. unfold CheatingKzg.prove.
  rewrite cheating_evaluation, bind_Ok. cbv zeta. unfold Kzg.Fr.
  destruct (Fr_div_spec (noble.sub Fr (peval f_coeffs alpha mod r) vFake)
                        (noble.sub Fr alpha u))
    as (q & -> & Hcan & Hq).
  { rewrite Fr_sub. intros H0. apply Hau, eqm_sub_zero.
    by rewrite <- (eqm_mod (alpha - u)). }
  rewrite bind_Ok. exists q. split; [done|]. split; [|done].
  rewrite !Fr_sub in Hq. rewrite <- (eqm_mod (alpha - u)), Hq.
  by rewrite (eqm_mod (peval f_coeffs alpha mod r - vFake)),
    (eqm_mod (peval f_coeffs alpha)).
Qed.

Lemma CheatingKzg_prove_at_alpha
    (pp : list PointG1) (f_coeffs : list Z) (u vFake alpha : Z) :
  alpha ≅ u -> CheatingKzg.prove pp f_coeffs u vFake alpha = Throw InvertError.
Proof.
  intros Hau. unfold CheatingKzg.prove.
  rewrite cheating_evaluation, bind_Ok. cbv zeta. unfold Kzg.Fr.
  rewrite Fr_div_zero; [done|].
  rewrite Fr_sub. rewrite (eqm_mod (alpha - u)). by apply eqm_sub_zero.
Qed.

End Forgery.

(** ** The honest path: completeness, soundness, division, setup *)

Section HonestPath.
Import bls12_381.
Context {curve : Curve}.

(** C1 (completeness) does not hold of the code for every coefficient
    vector: [commit] hands each coefficient to the library's [multiply],
    which refuses zero. For the parameters of every setup and every
    coefficient vector of the matching length with a zero coefficient, such
    as [x^2 + 1], [commit] throws a [RangeError] and there is no commitment
    to verify. *)
Theorem C1_commit_rejects_zero_coefficient
    (degree random : Z) (f_coeffs : list Z) :
  0 < degree ->
  1 <= random < r ->
  length f_coeffs = Z.to_nat (degree + 1) ->
  In 0 f_coeffs ->
  exists s,
    Kzg.setup degree random = Ok s
    /\ Kzg.commit (Kzg.pp s) f_coeffs = Throw RangeError.
Proof.
  intros Hd Ha Hlen H0%list_elem_of_In.
  rewrite (Kzg_setup_spec degree random Hd Ha).
  eexists. split; [done|]. simpl Kzg.pp.
  apply Kzg_commit_invalid; [by rewrite ladder_length|].
  apply Exists_exists. exists 0. split; [done | lia].
Qed.

(** C2 (soundness) does not hold of the code for every wrong value: for a
    claimed value outside [1, r), zero included, [verify] does not return
    [false]; it throws, whatever the commitment, the proof, the point and
    the verifier key. *)
Theorem C2_invalid_value_throws
    (com_f com_q : PointG1) (u v : Z) (alpha_G2 : PointG2) :
  ~ 1 <= v < r ->
  Kzg.verify com_f com_q u v alpha_G2 = Throw RangeError
  \/ Kzg.verify com_f com_q u v alpha_G2 = Throw PairingError.
Proof.
  intros Hv%valid_scalar_false.
  destruct (g1_cyclic com_f) as [a ->]. destruct (g1_cyclic com_q) as [b ->].
  destruct (g2_cyclic alpha_G2) as [al ->].
  rewrite Kzg_verify_multiples, Hv.
  destruct (valid_scalar u); simpl negb; cbv iota; [|by left].
  destruct (decide (b ≅ 0 \/ al ≅ u)); [by right | by left].
Qed.

(** C4 (synthetic division). For a coefficient vector of length [n >= 1]
    the loop of [prove] (and the same loop of the hiding variant) fills a
    quotient of length [n - 1]; the quotient satisfies
    [q(x) (x - u) = f(x) - f(u)] in the scalar field, at every [x] and
    coefficient by coefficient, and one more carry step gives [f(u)]. *)
Theorem C4_synthetic_division (f_coeffs : list Z) (u : Z) :
  (1 <= length f_coeffs)%nat ->
  exists carry q_coeffs,
    Kzg.prove_quotient f_coeffs u = Ok (carry, Some <$> q_coeffs)
    /\ ZkKzg.prove_quotient f_coeffs u = Ok (carry, Some <$> q_coeffs)
    /\ length q_coeffs = (length f_coeffs - 1)%nat
    /\ (forall x,
          utils.evalPolyAt Kzg.Fr q_coeffs x * (x - u)
          ≅ utils.evalPolyAt Kzg.Fr f_coeffs x
            - utils.evalPolyAt Kzg.Fr f_coeffs u)
    /\ (forall i : nat,
          coeff f_coeffs i
          ≅ (match i with
             | O => utils.evalPolyAt Kzg.Fr f_coeffs u
             | S j => coeff q_coeffs j
             end) - u * coeff q_coeffs i)
    /\ noble.add Kzg.Fr (coeff f_coeffs 0) (noble.mul Kzg.Fr u carry)
       = utils.evalPolyAt Kzg.Fr f_coeffs u.
Proof.
  intros Hlen.
  assert (Hf : f_coeffs <> []) by (intros ->; simpl in Hlen; lia).
  exists (hd 0 (horner_suffixes u (tail f_coeffs))),
         (horner_suffixes u (tail f_coeffs)).
  split; [by apply Kzg_prove_quotient_spec|].
  split; [by apply ZkKzg_prove_quotient_spec|].
  split. { rewrite horner_suffixes_length. destruct f_coeffs; simpl; lia. }
  unfold Kzg.Fr. split; [|split].
  - intros x. rewrite !evalPolyAt_eqm, <- horner_suffixes_tail.
    rewrite horner_suffixes_division.
    by rewrite <- evalPolyAt_horner, evalPolyAt_eqm.
  - intros i. rewrite evalPolyAt_horner, <- horner_suffixes_tail.
    pose proof (horner_suffixes_coeff u f_coeffs i) as Hi.
    destruct (horner_suffixes u f_coeffs) as [|h t] eqn:Hh.
    { destruct f_coeffs; done. }
    simpl tail. simpl hd.
    assert (Hc : coeff (h :: t) (S i) = coeff t i) by done.
    rewrite Hc in Hi.
    transitivity (coeff (h :: t) i - u * coeff t i).
    { rewrite Hi. apply eqm_eq. ring. }
    by destruct i.
  - rewrite evalPolyAt_horner. destruct f_coeffs as [|c f]; [done|].
    change (coeff (c :: f) 0) with c. change (tail (c :: f)) with f.
    by rewrite Fr_add, Fr_mul, Zplus_mod_idemp_r.
Qed.


(** C5 (degenerate constant input) does not hold of the code: for a
    length-1 coefficient vector [[c]] the quotient is empty and [prove]
    returns the identity of G1, whatever the ladder; [verify] passes that
    proof to the library's [pairing], which throws on the identity. With
    the identity as the proof, [verify] throws for every commitment, value
    and verifier key: the pairing error at a point the library accepts, the
    range error of [G2.multiply(u)] at any other. *)
Theorem C5_identity_proof_throws (pp : list PointG1) (c u : Z) :
  Kzg.prove_quotient [c] u = Ok (0, [])
  /\ Kzg.prove pp [c] u = Ok G1_ZERO
  /\ forall (com_f : PointG1) (v : Z) (alpha_G2 : PointG2),
       Kzg.verify com_f G1_ZERO u v alpha_G2
       = if valid_scalar u then Throw PairingError else Throw RangeError.
Proof.
  split; [done|]. split; [done|]. intros com_f v alpha_G2.
  unfold Kzg.verify, Kzg.G2. destruct (valid_scalar u) eqn:Hu.
  - by rewrite (g2_multiply_valid _ _ Hu), bind_Ok, pairing_G1_ZERO.
  - by rewrite (g2_multiply_invalid _ _ Hu).
Qed.

(** C6. [PolynomialCommitmentScheme.setup] has no guard on the degree: with
    a sampled scalar that the library accepts, at degree 0 it returns a
    one-element ladder, and at a negative degree an empty one, where the
    other setups fail their assertion. *)
Theorem C6_setup_accepts_degree_zero (random : Z) :
  (1 <= random < r ->
     PolynomialCommitmentScheme.setup 0 random
     = Ok {| PolynomialCommitmentScheme.pp := [G1_BASE];
             PolynomialCommitmentScheme.alpha_G2 := g2_mul G2_BASE random |}
     /\ PolynomialCommitmentScheme.setup (-1) random
        = Ok {| PolynomialCommitmentScheme.pp := [];
                PolynomialCommitmentScheme.alpha_G2 :=
                  g2_mul G2_BASE random |})
  /\ Kzg.setup 0 random = Throw AssertionError
  /\ ZkKzg.setup 0 random random = Throw AssertionError
  /\ CheatingKzg.setup 0 random = Throw AssertionError.
Proof.
  split; [|repeat split; reflexivity]. intros Ha.
  rewrite !PCS_setup_spec by done. split; [|done].
  do 2 f_equal. unfold ladder. simpl. f_equal.
  change (0 ^ 0) with 1. rewrite Z.pow_0_r, Z.mod_1_l by apply r_gt_1.
  apply g1_mul_one.
Qed.

(** The guarded setups reject every degree below 1, and every setup returns
    from degree 1 on when the sampled scalars are in the range of the
    library. *)
Lemma setup_degree_guard (degree random1 random2 : Z) :
  (degree <= 0 ->
     Kzg.setup degree random1 = Throw AssertionError
     /\ Kzg._setup degree random1 = Throw AssertionError
     /\ ZkKzg.setup degree random1 random2 = Throw AssertionError
     /\ CheatingKzg.setup degree random1 = Throw AssertionError)
  /\ (1 <= degree -> 1 <= random1 < r -> 1 <= random2 < r ->
       returns (Kzg.setup degree random1)
       /\ returns (ZkKzg.setup degree random1 random2)
       /\ returns (CheatingKzg.setup degree random1)
       /\ returns (PolynomialCommitmentScheme.setup degree random1)).
Proof.
  split.
  - intros Hd. unfold Kzg.setup, Kzg._setup, ZkKzg.setup, CheatingKzg.setup.
    destruct (Z.ltb_spec 0 degree); [lia|]. done.
  - intros Hd H1 H2. assert (Hd' : 0 < degree) by lia.
    split; [rewrite Kzg_setup_spec by done; by eexists|].
    split; [rewrite ZkKzg_setup_spec by done; by eexists|].
    split; [rewrite CheatingKzg_setup_spec by done; by eexists|].
    rewrite PCS_setup_spec by done. by eexists.
Qed.

End HonestPath.

(** ** Commit preconditions, public parameters, the two implementations *)

Section Preconditions.
Import bls12_381.
Context {curve : Curve}.

(** C7 (commit precondition) does not hold of the hiding [commit]: it
    asserts [pp_G1] against the coefficients and [pp_H] against the blinding
    coefficients, never the two ladders against each other, and its loop
    runs over [pp_G1]. When both assertions pass and [pp_H] is the shorter
    ladder, with all coefficients in the range of the library, the call does
    not return normally: the loop reads [pp_H] past its end and throws a
    [TypeError]. *)
Theorem C7_hiding_commit_reads_past_pp_H
    (pp_G1 pp_H : list PointG1) (f_coeffs r_coeffs : list Z) :
  length pp_G1 = length f_coeffs ->
  length pp_H = length r_coeffs ->
  (length pp_H < length pp_G1)%nat ->
  Forall (fun c => 1 <= c < r) f_coeffs ->
  Forall (fun c => 1 <= c < r) r_coeffs ->
  ZkKzg.commit pp_G1 pp_H f_coeffs r_coeffs = Throw TypeError.
Proof. apply ZkKzg_commit_past_end. Qed.


(** C10 (the two honest implementations agree). On the same ladder,
    coefficients and point, [Kzg.commit] and
    [PolynomialCommitmentScheme.commit] give the same outcome, and so do the
    two [prove]; the two field objects have the same order. *)
Theorem C10_implementations_agree (pp : list PointG1) (coefficients : list Z)
    (u : Z) :
  Kzg.commit pp coefficients = PolynomialCommitmentScheme.commit pp coefficients
  /\ Kzg.prove pp coefficients u
     = PolynomialCommitmentScheme.prove pp coefficients u
  /\ noble.ORDER Kzg.Fr = galois.modulus PolynomialCommitmentScheme.field.
Proof.
  split; [done|]. split; [|done].
  unfold Kzg.prove, PolynomialCommitmentScheme.prove.
  destruct coefficients as [|c f]; [done|].
  by rewrite Kzg_prove_quotient_spec, PCS_prove_quotient_spec.
Qed.

End Preconditions.

(** ** The forged proof *)

Section ForgedProof.
Import bls12_381.
Context {curve : Curve}.

(** C3 (forgery for every fake value) does not hold of the code. With the
    leaked secret [alpha] and a point [u] not congruent to it, the
    adversarial [prove] throws a [RangeError] when the fake value is
    congruent to [f(alpha)], where [qFake] is zero and the library's
    [multiply] refuses it; and for a fake value outside [1, r), zero
    included, [verify] throws on [G1.multiply(v)] or on a pairing, whatever
    proof it is given. *)
Theorem C3_forgery_throws
    (pp : list PointG1) (f_coeffs : list Z) (u fakeValue alpha : Z) :
  ~ alpha ≅ u ->
  (fakeValue ≅ utils.evalPolyAt Kzg.Fr f_coeffs alpha ->
     CheatingKzg.prove pp f_coeffs u fakeValue alpha = Throw RangeError)
  /\ (~ 1 <= fakeValue < r ->
        forall (com_f com_q : PointG1) (alpha_G2 : PointG2),
          exists e, Kzg.verify com_f com_q u fakeValue alpha_G2 = Throw e).
Proof.
  intros Hau. split.
  - intros Hfake.
    destruct (CheatingKzg_prove_unfold pp f_coeffs u fakeValue alpha Hau)
      as (q & Hcan & Hq & ->).
    apply g1_multiply_invalid. rewrite (valid_scalar_canonical _ Hcan).
    assert (Hq0 : q ≅ 0).
    { assert (H0 : q * (alpha - u) ≅ 0).
      { rewrite Hq. apply eqm_sub_zero. rewrite Hfake. unfold Kzg.Fr.
        symmetry. apply evalPolyAt_eqm. }
      apply eqm_mul_zero in H0 as [H0|H0]; [done|].
      apply (proj1 (eqm_sub_zero _ _)) in H0. by destruct Hau. }
    apply (eqm_canonical _ 0 Hcan canonical_0) in Hq0. by subst q.
  - intros Hv%valid_scalar_false com_f com_q alpha_G2.
    destruct (g1_cyclic com_f) as [a ->]. destruct (g1_cyclic com_q) as [b ->].
    destruct (g2_cyclic alpha_G2) as [al ->].
    rewrite Kzg_verify_multiples, Hv.
    destruct (valid_scalar u); simpl negb; cbv iota; [|by eexists].
    destruct (decide (b ≅ 0 \/ al ≅ u)); by eexists.
Qed.

End ForgedProof.

(** ** Polynomial helpers *)

Lemma peval_replicate_0 n x : peval (replicate n 0) x = 0.
Proof. induction n as [|n IH]; [done|]. simpl replicate. rewrite peval_cons, IH. lia. Qed.

Lemma peval_insert l i old v x :
  l !! i = Some old ->
  peval (<[i := v]> l) x = peval l x + (v - old) * x ^ Z.of_nat i.
Proof.
  revert i. induction l as [|c l IH]; intros i Hi; [done|].
  destruct i as [|i].
  - simpl in Hi. injection Hi as ->.
    change (<[0%nat := v]> (old :: l)) with (v :: l).
    rewrite !peval_cons. change (Z.of_nat 0) with 0. rewrite Z.pow_0_r. ring.
  - simpl in Hi. change (<[S i := v]> (c :: l)) with (c :: <[i := v]> l).
    rewrite !peval_cons, (IH i Hi), Nat2Z.inj_succ, Z.pow_succ_r by lia. ring.
Qed.

Lemma Forall_canonical_insert l i v :
  Forall canonical l -> canonical v -> Forall canonical (<[i := v]> l).
Proof. intros Hl Hv. by apply Forall_insert. Qed.

Lemma mulPoly_spec (a b : list Z) :
  (1 <= length a + length b)%nat ->
  exists res,
    utils.mulPoly bls12_381.Fr a b = Ok res
    /\ length res = (length a + length b - 1)%nat
    /\ Forall canonical res
    /\ forall x, peval res x ≅ peval a x * peval b x.
Proof.
  intros Hlen. unfold utils.mulPoly, new_Array.
  destruct (Z.ltb_spec (Z.of_nat (length a) + Z.of_nat (length b) - 1) 0);
    [lia|].
  rewrite bind_Ok. cbv zeta. rewrite length_replicate.
  replace (Z.to_nat (Z.of_nat (length a) + Z.of_nat (length b) - 1))
    with (length a + length b - 1)%nat by lia.
  set (L := (length a + length b - 1)%nat).
  loop_invariant
    (fun (i : nat) (res : list Z) =>
       length res = L /\ Forall canonical res
       /\ forall x, peval res x ≅ peval (take i a) x * peval b x) as res Hres.
  - split; [apply length_replicate|]. split.
    + apply Forall_replicate, canonical_0.
    + intros x. rewrite peval_replicate_0, take_0. apply eqm_eq. simpl. ring.
  - intros i res0 Hi (Hlen0 & Hcan0 & Hval0).
    destruct (lookup_lt_is_Some_2 a i ltac:(lia)) as [ai Hai].
    loop_invariant
      (fun (j : nat) (res : list Z) =>
         length res = L /\ Forall canonical res
         /\ forall x, peval res x
                      ≅ peval res0 x
                        + ai * x ^ Z.of_nat i * peval (take j b) x) as res Hres.
    + split; [done|]. split; [done|]. intros x. rewrite take_0.
      apply eqm_eq. simpl. ring.
    + intros j res1 Hj (Hlen1 & Hcan1 & Hval1).
      destruct (lookup_lt_is_Some_2 b j ltac:(lia)) as [bj Hbj].
      destruct (lookup_lt_is_Some_2 res1 (i + j) ltac:(lia)) as [rij Hrij].
      rewrite (index_lookup _ _ _ Hrij), (index_lookup _ _ _ Hai),
        (index_lookup _ _ _ Hbj), !bind_Ok.
      eexists. split; [done|]. split; [by rewrite length_insert|]. split.
      * apply Forall_canonical_insert; [done|]. rewrite Fr_add.
        apply canonical_mod.
      * intros x. rewrite (peval_insert _ _ _ _ _ Hrij), Hval1.
        rewrite (peval_take_S _ _ _ _ Hbj), Fr_add, Fr_mul, !eqm_mod.
        rewrite Nat2Z.inj_add, Z.pow_add_r by lia. apply eqm_eq. ring.
    + destruct Hres as (Hlen1 & Hcan1 & Hval1).
      eexists. split; [done|]. split; [done|]. split; [done|].
      intros x. rewrite Hval1, Hval0, (peval_take_S _ _ _ _ Hai).
      change (0 + length b)%nat with (length b). rewrite firstn_all.
      apply eqm_eq. ring.
  - destruct Hres as (Hlen1 & Hcan1 & Hval1).
    exists res. split; [done|]. split; [done|]. split; [done|].
    intros x. rewrite Hval1. change (0 + length a)%nat with (length a).
    by rewrite firstn_all.
Qed.

Lemma peval_take_S_ge l i x :
  (length l <= i)%nat -> peval (take (S i) l) x = peval (take i l) x.
Proof. intros Hi. by rewrite !take_ge by lia. Qed.

Lemma addPoly_spec (a b : list Z) :
  exists res,
    utils.addPoly bls12_381.Fr a b = Ok res
    /\ length res = Nat.max (length a) (length b)
    /\ Forall canonical res
    /\ forall x, peval res x ≅ peval a x + peval b x.
Proof.
  unfold utils.addPoly. cbv zeta.
  set (L := Nat.max (length a) (length b)).
  loop_invariant
    (fun (i : nat) (res : list Z) =>
       length res = L /\ Forall canonical res
       /\ (forall k, (i <= k < L)%nat -> res !! k = Some 0)
       /\ forall x, peval res x ≅ peval (take i a) x + peval (take i b) x) as res Hres.
  - split; [apply length_replicate|]. split.
    { apply Forall_replicate, canonical_0. }
    split. { intros k Hk. apply lookup_replicate_2. lia. }
    intros x. by rewrite peval_replicate_0, !take_0.
  - intros i res0 Hi (Hlen0 & Hcan0 & Hzero0 & Hval0).
    assert (HA : exists valA,
               (if (i <? length a)%nat then index a i else Ok 0) = Ok valA
               /\ forall x, peval (take (S i) a) x
                            = peval (take i a) x + valA * x ^ Z.of_nat i).
    { destruct (Nat.ltb_spec i (length a)) as [Hlt|Hge].
      - destruct (lookup_lt_is_Some_2 a i Hlt) as [c Hc]. exists c.
        split; [by apply index_lookup|]. intros x. by apply peval_take_S.
      - exists 0. split; [done|]. intros x. rewrite peval_take_S_ge by done.
        ring. }
    assert (HB : exists valB,
               (if (i <? length b)%nat then index b i else Ok 0) = Ok valB
               /\ forall x, peval (take (S i) b) x
                            = peval (take i b) x + valB * x ^ Z.of_nat i).
    { destruct (Nat.ltb_spec i (length b)) as [Hlt|Hge].
      - destruct (lookup_lt_is_Some_2 b i Hlt) as [c Hc]. exists c.
        split; [by apply index_lookup|]. intros x. by apply peval_take_S.
      - exists 0. split; [done|]. intros x. rewrite peval_take_S_ge by done.
        ring. }
    destruct HA as (valA & -> & HvalA). destruct HB as (valB & -> & HvalB).
    rewrite !bind_Ok. eexists. split; [done|].
    split; [by rewrite length_insert|]. split.
    { apply Forall_canonical_insert; [done|]. rewrite Fr_add.
      apply canonical_mod. }
    split.
    { intros k Hk. rewrite list_lookup_insert_ne by lia. apply Hzero0. lia. }
    intros x. rewrite (peval_insert _ _ 0) by (apply Hzero0; lia).
    rewrite Hval0, HvalA, HvalB, Fr_add, eqm_mod. apply eqm_eq. ring.
  - destruct Hres as (Hlen1 & Hcan1 & _ & Hval1).
    exists res. split; [done|]. split; [done|]. split; [done|].
    intros x. rewrite Hval1. change (0 + L)%nat with L. unfold L.
    rewrite !take_ge by lia. done.
Qed.

(** ** Lagrange interpolation *)

Lemma basis_val_nonzero xs i j x :
  (forall j', (j' < j)%nat -> j' <> i -> ~ x ≅ coeff xs j') ->
  ~ basis_val xs i j x ≅ 0.
Proof.
  induction j as [|j IH]; intros Hne; [apply not_eqm_1_0|]. simpl.
  destruct (Nat.eqb_spec i j) as [->|Hij].
  - apply IH. intros j' Hj'. apply Hne. lia.
  - intros [H0|H0]%eqm_mul_zero.
    + revert H0. apply IH. intros j' Hj'. apply Hne. lia.
    + apply (Hne j); [lia | done |].
      transitivity (x - coeff xs j + coeff xs j); [apply eqm_eq; ring|].
      rewrite H0. apply eqm_eq. ring.
Qed.

Lemma basis_val_root xs i j k :
  (k < j)%nat -> k <> i -> basis_val xs i j (coeff xs k) = 0.
Proof.
  induction j as [|j IH]; intros Hk Hki; [lia|]. simpl.
  destruct (Nat.eqb_spec i j) as [->|Hij].
  - apply IH; [lia | done].
  - destruct (Nat.eq_dec k j) as [->|Hkj]; [lia|].
    rewrite IH by lia. lia.
Qed.

Lemma distinct_mod_lookup xs i j :
  distinct_mod xs -> (i < length xs)%nat -> (j < length xs)%nat -> i <> j ->
  ~ coeff xs i ≅ coeff xs j.
Proof.
  intros Hnd Hi Hj Hij Heq. apply Hij.
  destruct (lookup_lt_is_Some_2 xs i Hi) as [xi Hxi].
  destruct (lookup_lt_is_Some_2 xs j Hj) as [xj Hxj].
  unfold coeff in Heq. rewrite Hxi, Hxj in Heq. simpl in Heq.
  apply (NoDup_lookup _ i j (xi mod bls12_381.r) Hnd);
    rewrite list_lookup_fmap; [by rewrite Hxi | rewrite Hxj; simpl].
  by rewrite <- Heq.
Qed.

Lemma Fr_inv_spec den :
  ~ den ≅ 0 ->
  noble.inv bls12_381.Fr den = Ok (Z.invmod den bls12_381.r)
  /\ Z.invmod den bls12_381.r * den ≅ 1.
Proof.
  intros Hden. pose proof r_gt_1 as Hr.
  assert (Hnz : den mod bls12_381.r <> 0).
  { intros H0. apply Hden. apply eqm_zero_mod. by rewrite Z.sub_0_r. }
  unfold bls12_381.Fr, noble.Field, noble.inv, noble.invert.
  rewrite noble_mod_spec by lia.
  destruct (Z.eqb_spec (den mod bls12_381.r) 0) as [|_]; [done|].
  split; [done|]. unfold eqm.
  rewrite (Z.invmod_prime _ _ r_prime Hnz).
  symmetry. apply Z.mod_1_l. lia.
Qed.

Lemma invmod_eqm a b :
  a ≅ b -> Z.invmod a bls12_381.r = Z.invmod b bls12_381.r.
Proof.
  unfold eqm. intros Hab. by rewrite <- Z.invmod_mod_l, Hab, Z.invmod_mod_l.
Qed.

Lemma coeff_lookup l i v : l !! i = Some v -> coeff l i = v.
Proof. unfold coeff. by intros ->. Qed.

Lemma lagrange_loops (points : list utils.Point) :
  points <> [] ->
  distinct_mod (utils.x <$> points) ->
  exists result,
    utils.lagrangeInterpolation bls12_381.Fr points
    = Ok (utils.pop_trailing_zeros (length result) result)
    /\ length result = length points
    /\ Forall canonical result
    /\ forall x,
         peval result x
         ≅ lagrange_val (utils.x <$> points) (utils.y <$> points)
                        (length points) x.
Proof.
  intros Hne Hdist. unfold utils.lagrangeInterpolation.
  set (xs := utils.x <$> points) in *. set (ys := utils.y <$> points).
  assert (Hn : (0 < length points)%nat) by (destruct points; [done|simpl; lia]).
  assert (Hxs : length xs = length points) by apply length_fmap.
  loop_invariant
    (fun (i : nat) (result : list Z) =>
       (1 <= length result <= length points)%nat
       /\ ((0 < i)%nat -> length result = length points)
       /\ Forall canonical result
       /\ forall x, peval result x ≅ lagrange_val xs ys i x) as result Hres.
  - split; [simpl; lia|]. split; [lia|]. split.
    + repeat constructor; apply canonical_0.
    + intros x. by rewrite peval_single.
  - intros i result0 Hi (Hlen0 & Hfull0 & Hcan0 & Hval0).
    destruct (lookup_lt_is_Some_2 points i ltac:(lia)) as [pi Hpi].
    assert (Hxi : coeff xs i = utils.x pi).
    { apply coeff_lookup. unfold xs. by rewrite list_lookup_fmap, Hpi. }
    assert (Hyi : coeff ys i = utils.y pi).
    { apply coeff_lookup. unfold ys. by rewrite list_lookup_fmap, Hpi. }
    loop_invariant
      (fun (j : nat) (st : list Z * Z) =>
         length (fst st) = S (if (i <? j)%nat then j - 1 else j)
         /\ (forall x, peval (fst st) x ≅ basis_val xs i j x)
         /\ snd st ≅ basis_val xs i j (coeff xs i)) as st Hst.
    + cbn [fst snd]. split; [by destruct i|].
      split; [|done]. intros x. by rewrite peval_single.
    + intros j [basis den] Hj (Hlb & Hvb & Hden). cbn [fst snd] in Hlb, Hvb, Hden.
      cbn [basis_val].
      destruct (Nat.eqb_spec i j) as [->|Hij]; simpl negb; cbv iota.
      * eexists. split; [done|]. cbn [fst snd].
        destruct (Nat.ltb_spec j j); [lia|].
        destruct (Nat.ltb_spec j (S j)); [|lia].
        split; [lia|]. done.
      * destruct (lookup_lt_is_Some_2 points j ltac:(lia)) as [pj Hpj].
        assert (Hxj : coeff xs j = utils.x pj).
        { apply coeff_lookup. unfold xs. by rewrite list_lookup_fmap, Hpj. }
        rewrite (index_lookup _ _ _ Hpj), bind_Ok.
        destruct (mulPoly_spec basis [noble.neg bls12_381.Fr (utils.x pj); 1])
          as (basis' & -> & Hlb' & _ & Hvb'); [simpl; lia|].
        rewrite bind_Ok, (index_lookup _ _ _ Hpi), bind_Ok. cbv zeta.
        eexists. split; [done|]. cbn [fst snd].
        split; [|split].
        -- rewrite Hlb', Hlb. simpl length.
           destruct (Nat.ltb_spec i j); destruct (Nat.ltb_spec i (S j)); lia.
        -- intros x. rewrite Hvb', Hvb, Hxj.
           rewrite peval_pair, Fr_neg, eqm_mod. apply eqm_eq. ring.
        -- rewrite Fr_mul, Fr_sub, !eqm_mod, Hden, Hxj, Hxi. done.
    + destruct st as [basis den]. destruct Hst as (Hlb & Hvb & Hden).
      cbn [fst snd] in Hlb, Hvb, Hden. change (0 + length points)%nat with (length points) in *.
      assert (Hlb' : length basis = length points).
      { destruct (Nat.ltb_spec i (length points)); lia. }
      assert (Hnz : ~ den ≅ 0).
      { rewrite Hden. apply basis_val_nonzero. intros j' Hj' Hj'i.
        apply distinct_mod_lookup; [done | lia | lia | done]. }
      rewrite bind_Ok. cbv beta iota.
      destruct (Fr_inv_spec den Hnz) as [-> Hinv].
      rewrite !bind_Ok, (index_lookup _ _ _ Hpi), bind_Ok. cbv zeta.
      destruct (mulPoly_spec basis
                  [noble.mul bls12_381.Fr (utils.y pi)
                     (Z.invmod den bls12_381.r)])
        as (termPoly & -> & Hlt & _ & Hvt); [simpl; lia|].
      rewrite bind_Ok.
      destruct (addPoly_spec result0 termPoly) as (res & -> & Hlr & Hcr & Hvr).
      simpl in Hlt.
      eexists. split; [done|].
      split; [lia|]. split; [lia|]. split; [done|].
      intros x. rewrite Hvr, Hvt, Hval0, Hvb. simpl lagrange_val.
      unfold weight. rewrite Hxs, <- (invmod_eqm _ _ Hden), Hyi.
      rewrite peval_single, Fr_mul, eqm_mod. apply eqm_eq. ring.
  - destruct Hres as (Hlen & Hfull & Hcan & Hval).
    change (0 + length points)%nat with (length points) in *.
    exists result. rewrite bind_Ok. split; [done|]. split; [by apply Hfull|].
    split; [done|]. exact Hval.
Qed.

Lemma lagrange_val_node xs ys m k :
  distinct_mod xs -> (k < length xs)%nat -> (m <= length xs)%nat ->
  lagrange_val xs ys m (coeff xs k) ≅ (if (k <? m)%nat then coeff ys k else 0).
Proof.
  intros Hdist Hk. induction m as [|m IH]; intros Hm; [done|].
  cbn [lagrange_val]. rewrite IH by lia.
  destruct (Nat.eq_dec k m) as [->|Hkm].
  - destruct (Nat.ltb_spec m m); [lia|]. destruct (Nat.ltb_spec m (S m)); [|lia].
    assert (Hnz : ~ basis_val xs m (length xs) (coeff xs m) ≅ 0).
    { apply basis_val_nonzero. intros j' Hj' Hne.
      by apply distinct_mod_lookup. }
    destruct (Fr_inv_spec _ Hnz) as [_ Hinv]. unfold weight.
    rewrite <- Z.mul_assoc, Hinv. apply eqm_eq. ring.
  - rewrite (basis_val_root xs m (length xs) k) by done.
    destruct (Nat.ltb_spec k m); destruct (Nat.ltb_spec k (S m)); try lia;
      apply eqm_eq; ring.
Qed.

(** A polynomial with as many roots, distinct in the field, as it has
    coefficients is zero in the field. *)
Lemma roots_force_zero (xs p : list Z) :
  length xs = length p -> distinct_mod xs ->
  (forall x, x ∈ xs -> peval p x ≅ 0) ->
  forall i, coeff p i ≅ 0.
Proof.
  revert p. induction xs as [|x0 xs IH]; intros p Hlen Hdist Hroot i.
  { destruct p; [|done]. done. }
  assert (Hx0 : hd 0 (horner_suffixes x0 p) ≅ 0).
  { rewrite <- evalPolyAt_horner, evalPolyAt_eqm. apply Hroot. left. }
  apply NoDup_cons in Hdist as [Hx0notin Hdist].
  assert (Hq : forall j, coeff (tail (horner_suffixes x0 p)) j ≅ 0).
  { apply (IH (tail (horner_suffixes x0 p))); [|done|].
    - rewrite horner_suffixes_tail, horner_suffixes_length.
      destruct p; simpl in *; lia.
    - intros x Hx.
      assert (Hdiv := horner_suffixes_division x0 p x).
      rewrite Hx0, (Hroot x) in Hdiv by (by right).
      apply eqm_mul_zero in Hdiv as [H0|H0]; [done|]. exfalso.
      apply Hx0notin. apply list_elem_of_fmap. exists x. split; [|done].
      assert (Hxx : x ≅ x0).
      { transitivity (x - x0 + x0); [apply eqm_eq; ring|].
        rewrite H0. apply eqm_eq. ring. }
      symmetry. exact Hxx. }
  assert (Hh : forall j, coeff (horner_suffixes x0 p) j ≅ 0).
  { intros [|j].
    - destruct (horner_suffixes x0 p); [done|]. exact Hx0.
    - specialize (Hq j). by destruct (horner_suffixes x0 p). }
  pose proof (horner_suffixes_coeff x0 p i) as Hi.
  rewrite (Hh i), (Hh (S i)) in Hi.
  transitivity (coeff p i + x0 * 0 - x0 * 0); [apply eqm_eq; ring|].
  rewrite <- Hi. apply eqm_eq. ring.
Qed.

Lemma peval_zip_sub (a b : list Z) x :
  length a = length b ->
  peval (zip_with Z.sub a b) x = peval a x - peval b x.
Proof.
  revert b. induction a as [|c a IH]; intros [|d b] Hlen; try done.
  simpl zip_with. rewrite !peval_cons, IH by (simpl in Hlen; lia). ring.
Qed.

Lemma coeff_zip_sub (a b : list Z) i :
  length a = length b ->
  coeff (zip_with Z.sub a b) i = coeff a i - coeff b i.
Proof.
  revert b i. induction a as [|c a IH]; intros [|d b] i Hlen; try done.
  destruct i as [|i]; [done|]. apply (IH b i). simpl in Hlen. lia.
Qed.

(** Two coefficient vectors of field elements, of the same length, that
    agree at that many points distinct in the field, are equal. *)
Lemma interpolation_unique (xs a b : list Z) :
  length a = length xs -> length b = length xs -> distinct_mod xs ->
  Forall canonical a -> Forall canonical b ->
  (forall x, x ∈ xs -> peval a x ≅ peval b x) ->
  a = b.
Proof.
  intros Ha Hb Hdist Hca Hcb Hval.
  assert (Hz : forall i, coeff (zip_with Z.sub a b) i ≅ 0).
  { apply (roots_force_zero xs); [|done|].
    - rewrite length_zip_with. lia.
    - intros x Hx. rewrite peval_zip_sub by lia. rewrite (Hval x Hx).
      apply eqm_eq. ring. }
  apply list_eq. intros i.
  destruct (a !! i) as [ai|] eqn:Hai.
  - destruct (lookup_lt_is_Some_2 b i) as [bi Hbi].
    { apply lookup_lt_Some in Hai. lia. }
    rewrite Hbi. f_equal.
    specialize (Hz i). rewrite coeff_zip_sub in Hz by lia.
    rewrite (coeff_lookup _ _ _ Hai), (coeff_lookup _ _ _ Hbi) in Hz.
    apply eqm_canonical.
    + by apply (Forall_lookup_1 _ _ _ _ Hca Hai).
    + by apply (Forall_lookup_1 _ _ _ _ Hcb Hbi).
    + transitivity (ai - bi + bi); [apply eqm_eq; ring|].
      rewrite Hz. apply eqm_eq. ring.
  - symmetry. apply lookup_ge_None. apply lookup_ge_None in Hai. lia.
Qed.

Lemma pop_trailing_zeros_id (result : list Z) :
  result <> [] -> last result <> Some 0 ->
  utils.pop_trailing_zeros (length result) result = result.
Proof.
  intros Hne Hlast. destruct result as [|c l] eqn:Hr; [done|].
  rewrite <- Hr in *. assert (Hlen : length result = S (length l)) by by subst.
  rewrite Hlen at 1. cbn [utils.pop_trailing_zeros].
  rewrite last_lookup in Hlast.
  replace (Init.Nat.pred (length result)) with (length result - 1)%nat
    in Hlast by lia.
  rewrite bool_decide_eq_false_2 by done. by rewrite andb_false_r.
Qed.

(** The turns given to the clean-up loop are enough: when it stops the
    array is empty or its last element is not zero. *)
Lemma pop_trailing_zeros_exit (turns : nat) (result : list Z) :
  (length result <= turns)%nat ->
  utils.pop_trailing_zeros turns result = []
  \/ last (utils.pop_trailing_zeros turns result) <> Some 0.
Proof.
  revert result. induction turns as [|turns IH]; intros result Hlen.
  { left. destruct result; [done | simpl in Hlen; lia]. }
  cbn [utils.pop_trailing_zeros].
  destruct (Nat.ltb_spec 0 (length result)) as [Hpos|Hzero]; cbn [andb].
  - destruct (bool_decide_reflect (result !! (length result - 1)%nat = Some 0))
      as [Hlast|Hlast].
    + apply IH. rewrite removelast_firstn_len, length_take. lia.
    + right. rewrite last_lookup.
      by replace (Init.Nat.pred (length result)) with (length result - 1)%nat
        by lia.
  - left. destruct result; [done | simpl in Hzero; lia].
Qed.

(** C9, as amended (interpolation round trip). For a coefficient vector of
    [d + 1] field elements whose last coefficient is not zero and [d + 1]
    points pairwise distinct modulo the field order, evaluating with
    [evalPolyAt] at those points and reconstructing with
    [lagrangeInterpolation] returns exactly the coefficient vector. *)
Theorem C9_interpolation_round_trip (f_coeffs points : list Z) :
  f_coeffs <> [] ->
  Forall canonical f_coeffs ->
  last f_coeffs <> Some 0 ->
  length points = length f_coeffs ->
  distinct_mod points ->
  utils.lagrangeInterpolation bls12_381.Fr
    ((fun u => {| utils.x := u;
                  utils.y := utils.evalPolyAt bls12_381.Fr f_coeffs u |})
       <$> points)
  = Ok f_coeffs.
Proof.
  intros Hne Hcan Hlast Hlen Hdist.
  set (pts := (fun u => {| utils.x := u;
                  utils.y := utils.evalPolyAt bls12_381.Fr f_coeffs u |})
       <$> points).
  assert (Hxs : utils.x <$> pts = points).
  { unfold pts. rewrite <- list_fmap_compose. apply list_fmap_id. }
  assert (Hys : utils.y <$> pts
                = utils.evalPolyAt bls12_381.Fr f_coeffs <$> points).
  { unfold pts. by rewrite <- list_fmap_compose. }
  assert (Hlp : length pts = length points) by apply length_fmap.
  destruct (lagrange_loops pts) as (result & -> & Hlr & Hcr & Hvr).
  { intros Hnil. rewrite Hnil in Hlp. destruct f_coeffs; [done|].
    simpl in *. lia. }
  { by rewrite Hxs. }
  rewrite Hxs, Hys, Hlp in *.
  assert (Heq : result = f_coeffs).
  { apply (interpolation_unique points); try done; try lia.
    intros x [k Hk]%list_elem_of_lookup.
    assert (Hkl := lookup_lt_Some _ _ _ Hk).
    rewrite <- (coeff_lookup _ _ _ Hk), Hvr.
    rewrite (lagrange_val_node points _ (length points) k) by (done || lia).
    destruct (Nat.ltb_spec k (length points)); [|lia].
    rewrite (coeff_lookup _ k (utils.evalPolyAt bls12_381.Fr f_coeffs x)).
    - rewrite (coeff_lookup _ _ _ Hk). apply evalPolyAt_eqm.
    - by rewrite list_lookup_fmap, Hk. }
  subst result. f_equal. by apply pop_trailing_zeros_id.
Qed.

(** * Concrete scenarios

    The scenarios of the test suite, run on the model with the curve
    instance [Exponent.curve]: [f(x) = 5 + 4x + 3x^2 + 2x^3 + x^4] at
    [u = 5]. *)

Example evalPolyAt_example :
  utils.evalPolyAt bls12_381.Fr [5; 4; 3; 2; 1] 5 = 975.
Proof. vm_compute. reflexivity. Qed.

Example prove_quotient_example :
  Kzg.prove_quotient [5; 4; 3; 2; 1] 5
  = Ok (194, [Some 194; Some 38; Some 7; Some 1]).
Proof. vm_compute. reflexivity. Qed.

Example lagrangeInterpolation_example :
  utils.lagrangeInterpolation bls12_381.Fr
    [ {| utils.x := 0; utils.y := 5 |}; {| utils.x := 1; utils.y := 15 |};
      {| utils.x := 2; utils.y := 57 |}; {| utils.x := 3; utils.y := 179 |};
      {| utils.x := 4; utils.y := 453 |} ]
  = Ok [5; 4; 3; 2; 1].
Proof. vm_compute. reflexivity. Qed.

(** Two points that differ as integers and agree in the field: the
    denominator is zero and the inversion fails. *)
Example lagrangeInterpolation_congruent_points :
  utils.lagrangeInterpolation bls12_381.Fr
    ((fun u => {| utils.x := u;
                  utils.y := utils.evalPolyAt bls12_381.Fr [5; 1] u |})
       <$> [0; bls12_381.r])
  = Throw InvertError.
Proof. vm_compute. reflexivity. Qed.

Example honest_scenario :
  let f_coeffs := [5; 4; 3; 2; 1] in
  (s ← Kzg.setup (curve := Exponent.curve) 4 123456789;
   com_f ← Kzg.commit (Kzg.pp s) f_coeffs;
   com_q ← Kzg.prove (Kzg.pp s) f_coeffs 5;
   accepted ← Kzg.verify com_f com_q 5 975 (Kzg.alpha_G2 s);
   rejected ← Kzg.verify com_f com_q 5 999 (Kzg.alpha_G2 s);
   Ok (accepted, rejected))
  = Ok (true, false).
Proof. vm_compute. reflexivity. Qed.

Example adversarial_scenario :
  let f_coeffs := [5; 4; 3; 2; 1] in
  (s ← CheatingKzg.setup (curve := Exponent.curve) 4 123456789;
   com_f ← Kzg.commit (CheatingKzg.pp s) f_coeffs;
   com_q ← CheatingKzg.prove (CheatingKzg.pp s) f_coeffs 5 999
             (CheatingKzg.alpha s);
   Kzg.verify com_f com_q 5 999 (CheatingKzg.alpha_G2 s))
  = Ok true.
Proof. vm_compute. reflexivity. Qed.

Example hiding_scenario :
  let f_coeffs := [5; 4; 3; 2; 1] in
  let r_coeffs := [11; 22; 33; 44; 55] in
  (z ← ZkKzg.setup (curve := Exponent.curve) 4 123456789 987654321;
   com_f ← ZkKzg.commit (ZkKzg.pp_G1 z) (ZkKzg.pp_H z) f_coeffs r_coeffs;
   com_q ← ZkKzg.prove (ZkKzg.pp_G1 z) (ZkKzg.pp_H z) f_coeffs r_coeffs 5;
   ZkKzg.verify com_f com_q 5
     (utils.evalPolyAt ZkKzg.Fr f_coeffs 5)
     (utils.evalPolyAt ZkKzg.Fr r_coeffs 5)
     (ZkKzg.alpha_G2 z) (ZkKzg.H z))
  = Ok true.
Proof. vm_compute. reflexivity. Qed.

(** [x^2 + 1] has a zero coefficient: there is no commitment to it. *)
Example zero_coefficient_scenario :
  (s ← Kzg.setup (curve := Exponent.curve) 2 123456789;
   Kzg.commit (Kzg.pp s) [1; 0; 1])
  = Throw RangeError.
Proof. vm_compute. reflexivity. Qed.

(** At a point where a quotient coefficient is zero there is no proof:
    [3 + 5 x + x^2] at [u = r - 5] has the quotient [0 + x]. *)
Example zero_quotient_coefficient_scenario :
  (s ← Kzg.setup (curve := Exponent.curve) 2 123456789;
   com_f ← Kzg.commit (Kzg.pp s) [3; 5; 1];
   Kzg.prove (Kzg.pp s) [3; 5; 1] (bls12_381.r - 5))
  = Throw RangeError.
Proof. vm_compute. reflexivity. Qed.

(** The wrong claimed value 0 of the honest scenario is not rejected with
    [false]: [verify] throws. *)
Example zero_value_scenario :
  let f_coeffs := [5; 4; 3; 2; 1] in
  (s ← Kzg.setup (curve := Exponent.curve) 4 123456789;
   com_f ← Kzg.commit (Kzg.pp s) f_coeffs;
   com_q ← Kzg.prove (Kzg.pp s) f_coeffs 5;
   Kzg.verify com_f com_q 5 0 (Kzg.alpha_G2 s))
  = Throw RangeError.
Proof. vm_compute. reflexivity. Qed.

(** The forged proof for the fake value 0 is returned, and [verify] throws
    on it. *)
Example forged_zero_value_scenario :
  let f_coeffs := [5; 4; 3; 2; 1] in
  (s ← CheatingKzg.setup (curve := Exponent.curve) 4 123456789;
   com_f ← Kzg.commit (CheatingKzg.pp s) f_coeffs;
   com_q ← CheatingKzg.prove (CheatingKzg.pp s) f_coeffs 5 0
             (CheatingKzg.alpha s);
   Kzg.verify com_f com_q 5 0 (CheatingKzg.alpha_G2 s))
  = Throw RangeError.
Proof. vm_compute. reflexivity. Qed.

(** The constant polynomial 7: the commitment over the ladder [[G1]] and
    the identity proof are produced, and [verify] throws in the pairing. *)
Example constant_polynomial_scenario :
  (s ← Kzg.setup (curve := Exponent.curve) 1 123456789;
   com_f ← Kzg.commit [Kzg.G1] [7];
   com_q ← Kzg.prove (Kzg.pp s) [7] 5;
   Kzg.verify com_f com_q 5 7 (Kzg.alpha_G2 s))
  = Throw PairingError.
Proof. vm_compute. reflexivity. Qed.

(** The first implementation at degree 0, which only it accepts: the same
    constant polynomial, and the same failure. *)
Example first_implementation_degree_zero :
  (s ← PolynomialCommitmentScheme.setup (curve := Exponent.curve) 0 123456789;
   com_f ← PolynomialCommitmentScheme.commit
             (PolynomialCommitmentScheme.pp s) [7];
   com_q ← PolynomialCommitmentScheme.prove
             (PolynomialCommitmentScheme.pp s) [7] 5;
   PolynomialCommitmentScheme.verify com_f com_q 5 7
     (PolynomialCommitmentScheme.alpha_G2 s))
  = Throw PairingError.
Proof. vm_compute. reflexivity. Qed.

(** The hiding [commit] with a one-element [pp_G1] and an empty [pp_H]:
    both assertions pass and the loop reads [pp_H[0]]. *)
Example hiding_commit_short_ladder :
  ZkKzg.commit (curve := Exponent.curve) [bls12_381.G1_BASE] [] [1] []
  = Throw TypeError.
Proof. vm_compute. reflexivity. Qed.

(** The hiding [prove] with fewer blinding coefficients than coefficients:
    the two quotients have lengths 1 and 0, both assertions of [commit]
    pass on the sliced ladders, and the loop reads past the end of the
    shorter one. *)
Example hiding_prove_unequal_lengths :
  (z ← ZkKzg.setup (curve := Exponent.curve) 1 123456789 987654321;
   ZkKzg.prove (ZkKzg.pp_G1 z) (ZkKzg.pp_H z) [1; 2] [3] 5)
  = Throw TypeError.
Proof. vm_compute. reflexivity. Qed.

(** A secret outside the range of the library: no parameters. *)
Example setup_zero_secret :
  (s ← Kzg.setup (curve := Exponent.curve) 4 0; Ok (length (Kzg.pp s)))
  = Throw RangeError.
Proof. vm_compute. reflexivity. Qed.

(** * Instances of the claims *)

Section Instances.
Import Exponent.

(** C1 at degree 2, with [f = 1 + x^2]. *)
Lemma C1_commit_rejects_zero_coefficient_witness :
  exists s,
    Kzg.setup (curve := Exponent.curve) 2 123456789 = Ok s
    /\ Kzg.commit (Kzg.pp s) [1; 0; 1] = Throw RangeError.
Proof.
  apply (C1_commit_rejects_zero_coefficient (curve := Exponent.curve)
           2 123456789 [1; 0; 1]);
    [lia | split; [vm_compute; discriminate | reflexivity] | reflexivity | simpl; tauto].
Defined.

(** C2 with the claimed value 0, on the commitment [975 G1] and the proof
    [194 G1]. *)
Lemma C2_invalid_value_throws_witness :
  Kzg.verify (curve := Exponent.curve)
    (bls12_381.g1_mul bls12_381.G1_BASE 975)
    (bls12_381.g1_mul bls12_381.G1_BASE 194) 5 0
    (bls12_381.g2_mul bls12_381.G2_BASE 123456789) = Throw RangeError
  \/ Kzg.verify (curve := Exponent.curve)
       (bls12_381.g1_mul bls12_381.G1_BASE 975)
       (bls12_381.g1_mul bls12_381.G1_BASE 194) 5 0
       (bls12_381.g2_mul bls12_381.G2_BASE 123456789) = Throw PairingError.
Proof.
  apply (C2_invalid_value_throws (curve := Exponent.curve)
           (bls12_381.g1_mul bls12_381.G1_BASE 975)
           (bls12_381.g1_mul bls12_381.G1_BASE 194) 5 0
           (bls12_381.g2_mul bls12_381.G2_BASE 123456789)).
  lia.
Defined.

(** C3 with the secret 123456789 and [u = 5]: the fake value [f(alpha)],
    and the fake value 0. *)
Lemma C3_forgery_throws_witness :
  CheatingKzg.prove (curve := Exponent.curve) [] [5; 4; 3; 2; 1] 5
    (utils.evalPolyAt Kzg.Fr [5; 4; 3; 2; 1] 123456789) 123456789
  = Throw RangeError
  /\ exists e,
       Kzg.verify (curve := Exponent.curve)
         (bls12_381.g1_mul bls12_381.G1_BASE 975)
         (bls12_381.g1_mul bls12_381.G1_BASE 194) 5 0
         (bls12_381.g2_mul bls12_381.G2_BASE 123456789) = Throw e.
Proof.
  destruct (C3_forgery_throws (curve := Exponent.curve) [] [5; 4; 3; 2; 1] 5
              (utils.evalPolyAt Kzg.Fr [5; 4; 3; 2; 1] 123456789) 123456789)
    as (H1 & _); [vm_compute; discriminate|].
  destruct (C3_forgery_throws (curve := Exponent.curve) [] [5; 4; 3; 2; 1] 5
              0 123456789) as (_ & H2); [vm_compute; discriminate|].
  split; [apply H1; reflexivity | apply H2; lia].
Defined.

(** C4 at [f = 5 + 4x + 3x^2 + 2x^3 + x^4] and [u = 5]. *)
Lemma C4_synthetic_division_witness :
  exists carry q_coeffs,
    Kzg.prove_quotient [5; 4; 3; 2; 1] 5 = Ok (carry, Some <$> q_coeffs)
    /\ ZkKzg.prove_quotient [5; 4; 3; 2; 1] 5 = Ok (carry, Some <$> q_coeffs)
    /\ length q_coeffs = 4%nat
    /\ (forall x,
          utils.evalPolyAt Kzg.Fr q_coeffs x * (x - 5)
          ≅ utils.evalPolyAt Kzg.Fr [5; 4; 3; 2; 1] x
            - utils.evalPolyAt Kzg.Fr [5; 4; 3; 2; 1] 5)
    /\ (forall i : nat,
          coeff [5; 4; 3; 2; 1] i
          ≅ (match i with
             | O => utils.evalPolyAt Kzg.Fr [5; 4; 3; 2; 1] 5
             | S j => coeff q_coeffs j
             end) - 5 * coeff q_coeffs i)
    /\ noble.add Kzg.Fr (coeff [5; 4; 3; 2; 1] 0) (noble.mul Kzg.Fr 5 carry)
       = utils.evalPolyAt Kzg.Fr [5; 4; 3; 2; 1] 5.
Proof.
  apply (C4_synthetic_division [5; 4; 3; 2; 1] 5). simpl. lia.
Defined.

(** C6 with the sampled scalar 123456789. *)
Lemma C6_setup_accepts_degree_zero_witness :
  PolynomialCommitmentScheme.setup (curve := Exponent.curve) 0 123456789
  = Ok {| PolynomialCommitmentScheme.pp := [bls12_381.G1_BASE];
          PolynomialCommitmentScheme.alpha_G2 :=
            bls12_381.g2_mul bls12_381.G2_BASE 123456789 |}
  /\ PolynomialCommitmentScheme.setup (curve := Exponent.curve) (-1) 123456789
     = Ok {| PolynomialCommitmentScheme.pp := [];
             PolynomialCommitmentScheme.alpha_G2 :=
               bls12_381.g2_mul bls12_381.G2_BASE 123456789 |}.
Proof.
  destruct (C6_setup_accepts_degree_zero (curve := Exponent.curve) 123456789)
    as (H1 & _).
  apply H1. split; [vm_compute; discriminate | reflexivity].
Defined.

(** C7 on a one-element ladder and an empty second ladder. *)
Lemma C7_hiding_commit_reads_past_pp_H_witness :
  ZkKzg.commit (curve := Exponent.curve) [bls12_381.G1_BASE] [] [1] []
  = Throw TypeError.
Proof.
  apply (C7_hiding_commit_reads_past_pp_H (curve := Exponent.curve)
           [bls12_381.G1_BASE] [] [1] []);
    [reflexivity | reflexivity | simpl; lia | | constructor].
  repeat constructor; vm_compute; discriminate.
Defined.


(** C9 on the polynomial of the test suite and the points 0, 1, 2, 3, 4. *)
Lemma C9_interpolation_round_trip_witness :
  utils.lagrangeInterpolation bls12_381.Fr
    ((fun u => {| utils.x := u;
                  utils.y := utils.evalPolyAt bls12_381.Fr [5; 4; 3; 2; 1] u |})
       <$> [0; 1; 2; 3; 4])
  = Ok [5; 4; 3; 2; 1].
Proof.
  apply (C9_interpolation_round_trip [5; 4; 3; 2; 1] [0; 1; 2; 3; 4]).
  - discriminate.
  - repeat constructor; vm_compute; congruence.
  - simpl. discriminate.
  - reflexivity.
  - apply (bool_decide_unpack _). vm_compute. exact I.
Defined.

(** C9, the claim as stated fails: the coefficient vector [[-1; 1]] has a
    non-zero last coefficient and the points 0 and 1 are distinct, and the
    round trip returns [[r - 1; 1]], the coefficients reduced into the
    field. *)
Lemma C9_counterexample :
  exists f_coeffs points : list Z,
    last f_coeffs <> Some 0
    /\ length points = length f_coeffs
    /\ NoDup points
    /\ utils.lagrangeInterpolation bls12_381.Fr
         ((fun u => {| utils.x := u;
                       utils.y := utils.evalPolyAt bls12_381.Fr f_coeffs u |})
            <$> points)
       = Ok [bls12_381.r - 1; 1]
    /\ utils.lagrangeInterpolation bls12_381.Fr
         ((fun u => {| utils.x := u;
                       utils.y := utils.evalPolyAt bls12_381.Fr f_coeffs u |})
            <$> points)
       <> Ok f_coeffs.
Proof.
  exists [-1; 1], [0; 1].
  split; [simpl; discriminate|]. split; [reflexivity|].
  split; [apply (bool_decide_unpack _); vm_compute; exact I|].
  split; [vm_compute; reflexivity | vm_compute; discriminate].
Qed.

End Instances.

(** * Further properties of the code *)

(** ** Commitments as sums over the ladder *)

Lemma addPoly_coeffs (a b : list Z) :
  exists res,
    utils.addPoly bls12_381.Fr a b = Ok res
    /\ length res = Nat.max (length a) (length b)
    /\ forall i, (i < Nat.max (length a) (length b))%nat ->
         res !! i = Some ((coeff a i + coeff b i) mod bls12_381.r).
Proof.
  unfold utils.addPoly. cbv zeta.
  set (L := Nat.max (length a) (length b)).
  loop_invariant
    (fun (i : nat) (res : list Z) =>
       length res = L
       /\ forall k, (k < i)%nat ->
            res !! k = Some ((coeff a k + coeff b k) mod bls12_381.r))
    as res Hres.
  - split; [apply length_replicate | intros k Hk; lia].
  - intros i res0 Hi (Hlen0 & Hdone0).
    assert (HA : (if (i <? length a)%nat then index a i else Ok 0)
                 = Ok (coeff a i)).
    { unfold coeff. destruct (Nat.ltb_spec i (length a)) as [Hlt|Hge].
      - destruct (lookup_lt_is_Some_2 a i Hlt) as [c Hc].
        rewrite Hc. by apply index_lookup.
      - by rewrite (proj2 (lookup_ge_None a i) Hge). }
    assert (HB : (if (i <? length b)%nat then index b i else Ok 0)
                 = Ok (coeff b i)).
    { unfold coeff. destruct (Nat.ltb_spec i (length b)) as [Hlt|Hge].
      - destruct (lookup_lt_is_Some_2 b i Hlt) as [c Hc].
        rewrite Hc. by apply index_lookup.
      - by rewrite (proj2 (lookup_ge_None b i) Hge). }
    rewrite HA, HB, !bind_Ok. eexists. split; [done|].
    split; [by rewrite length_insert|]. intros k Hk.
    destruct (Nat.eq_dec k i) as [->|Hne].
    + rewrite list_lookup_insert_eq by lia. by rewrite Fr_add.
    + rewrite list_lookup_insert_ne by lia. apply Hdone0. lia.
  - destruct Hres as (Hlen1 & Hdone1). exists res. split; [done|].
    split; [done|]. intros i Hi. apply Hdone1. simpl. lia.
Qed.


Lemma quotient_length u f : length (quotient u f) = (length f - 1)%nat.
Proof.
  unfold quotient. rewrite horner_suffixes_length. destruct f; simpl; lia.
Qed.

Lemma quotient_valid u f :
  Forall (fun c => c <> 0) (quotient u f) ->
  Forall (fun c => 1 <= c < bls12_381.r) (quotient u f).
Proof. apply horner_suffixes_valid. Qed.

Lemma quotient_invalid u f :
  In 0 (quotient u f) ->
  Exists (fun c => ~ 1 <= c < bls12_381.r) (quotient u f).
Proof.
  intros H0%list_elem_of_In. apply Exists_exists. exists 0.
  split; [done | lia].
Qed.

(** [q(x) (x - u) = f(x) - f(u)] in the field, for the quotient of [prove]. *)
Lemma quotient_division u f x :
  peval (quotient u f) x * (x - u)
  ≅ peval f x - utils.evalPolyAt bls12_381.Fr f u.
Proof.
  unfold quotient.
  rewrite <- horner_suffixes_tail, evalPolyAt_horner.
  apply horner_suffixes_division.
Qed.

Section Linearity.
Import bls12_381.
Context {curve : Curve}.

Lemma Kzg_commit_ladder alpha (f_coeffs : list Z) :
  Forall (fun c => 1 <= c < r) f_coeffs ->
  Kzg.commit (ladder G1_BASE alpha (length f_coeffs)) f_coeffs
  = Ok (g1_mul G1_BASE (peval f_coeffs alpha)).
Proof.
  intros Hv. rewrite Kzg_commit_msm by (by rewrite ?ladder_length).
  by rewrite msm_ladder.
Qed.

Lemma Kzg_prove_ladder alpha n (f_coeffs : list Z) (u : Z) :
  f_coeffs <> [] -> (length f_coeffs - 1 <= n)%nat ->
  Forall (fun c => c <> 0) (quotient u f_coeffs) ->
  Kzg.prove (ladder G1_BASE alpha n) f_coeffs u
  = Ok (g1_mul G1_BASE (peval (quotient u f_coeffs) alpha)).
Proof.
  intros Hf Hn Hq. rewrite Kzg_prove_unfold by done.
  rewrite ladder_take by done. rewrite <- (quotient_length u f_coeffs).
  by apply Kzg_commit_ladder, quotient_valid.
Qed.

(** X1. The hiding commitment is the sum of two plain commitments: for two
    ladders and two coefficient vectors, all of one length, with every
    coefficient in the range [1 <= c < r] of the library, [ZkKzg.commit]
    returns [Kzg.commit] of the coefficients over [pp_G1] plus [Kzg.commit]
    of the blinding coefficients over [pp_H]; with a coefficient outside
    the range it throws a [RangeError]. *)
Theorem X1_hiding_commit_is_sum
    (pp_G1 pp_H : list PointG1) (f_coeffs r_coeffs : list Z) :
  length pp_G1 = length f_coeffs ->
  length pp_H = length r_coeffs ->
  length pp_G1 = length pp_H ->
  (Forall (fun c => 1 <= c < r) f_coeffs ->
   Forall (fun c => 1 <= c < r) r_coeffs ->
   exists com_f com_r,
     Kzg.commit pp_G1 f_coeffs = Ok com_f
     /\ Kzg.commit pp_H r_coeffs = Ok com_r
     /\ ZkKzg.commit pp_G1 pp_H f_coeffs r_coeffs = Ok (g1_add com_f com_r))
  /\ (Exists (fun c => ~ 1 <= c < r) f_coeffs
      \/ Exists (fun c => ~ 1 <= c < r) r_coeffs ->
      ZkKzg.commit pp_G1 pp_H f_coeffs r_coeffs = Throw RangeError).
Proof.
  intros Hf Hr Hpp.
  assert (Htake : take (length pp_G1) r_coeffs = r_coeffs)
    by (by rewrite Hpp, Hr, firstn_all).
  split.
  - intros Hvf Hvr. eexists _, _.
    split; [by apply Kzg_commit_msm|]. split; [by apply Kzg_commit_msm|].
    rewrite ZkKzg_commit_msm by (done || lia || by rewrite Htake).
    by rewrite Htake, Hpp, firstn_all.
  - intros Hex. apply ZkKzg_commit_invalid; try done; [lia|].
    by rewrite Htake.
Qed.

(** X2. The outcomes of [Kzg.commit]: an [AssertionError] when the ladder
    and the coefficient vector differ in length; with equal lengths, the sum
    of the [f_coeffs[i] pp[i]] when every coefficient is in the range
    [1 <= c < r] of the library, and a [RangeError] as soon as one is not. *)
Theorem X2_commit_outcomes (pp : list PointG1) (f_coeffs : list Z) :
  (length pp <> length f_coeffs ->
     Kzg.commit pp f_coeffs = Throw AssertionError)
  /\ (length pp = length f_coeffs ->
      Forall (fun c => 1 <= c < r) f_coeffs ->
        Kzg.commit pp f_coeffs = Ok (msm pp f_coeffs))
  /\ (length pp = length f_coeffs ->
      Exists (fun c => ~ 1 <= c < r) f_coeffs ->
        Kzg.commit pp f_coeffs = Throw RangeError).
Proof.
  split; [apply Kzg_commit_mismatch|].
  split; [apply Kzg_commit_msm | apply Kzg_commit_invalid].
Qed.

(** X3. A second ladder longer than the first is cut silently: when both
    assertions of the hiding [commit] pass and [pp_H] is at least as long as
    [pp_G1], the entries of [pp_H] and of the blinding coefficients from
    index [pp_G1.length] on do not enter the outcome, and the call returns
    when the coefficients it reads are in the range of the library. *)
Theorem X3_hiding_commit_long_ladder
    (pp_G1 pp_H : list PointG1) (f_coeffs r_coeffs : list Z) :
  length pp_G1 = length f_coeffs ->
  length pp_H = length r_coeffs ->
  (length pp_G1 <= length pp_H)%nat ->
  ZkKzg.commit pp_G1 pp_H f_coeffs r_coeffs
  = ZkKzg.commit pp_G1 (take (length pp_G1) pp_H) f_coeffs
                 (take (length pp_G1) r_coeffs)
  /\ (Forall (fun c => 1 <= c < r) f_coeffs ->
      Forall (fun c => 1 <= c < r) (take (length pp_G1) r_coeffs) ->
      returns (ZkKzg.commit pp_G1 pp_H f_coeffs r_coeffs)).
Proof.
  intros Hf Hr Hle.
  assert (HlH : length (take (length pp_G1) pp_H) = length pp_G1)
    by (rewrite length_take; lia).
  assert (Hlr : length (take (length pp_G1) r_coeffs) = length pp_G1)
    by (rewrite length_take; lia).
  assert (Htt : take (length pp_G1) (take (length pp_G1) r_coeffs)
                = take (length pp_G1) r_coeffs)
    by (by rewrite take_take, Nat.min_id).
  assert (HtH : take (length pp_G1) (take (length pp_G1) pp_H)
                = take (length pp_G1) pp_H)
    by (by rewrite take_take, Nat.min_id).
  split.
  - destruct (Forall_or_Exists_valid f_coeffs) as [Hvf|Hxf].
    + destruct (Forall_or_Exists_valid (take (length pp_G1) r_coeffs))
        as [Hvr|Hxr].
      * rewrite (ZkKzg_commit_msm pp_G1 pp_H) by done.
        rewrite (ZkKzg_commit_msm pp_G1 (take (length pp_G1) pp_H))
          by (done || lia || by rewrite Htt).
        by rewrite Htt, HtH.
      * rewrite (ZkKzg_commit_invalid pp_G1 pp_H) by (done || by right).
        rewrite (ZkKzg_commit_invalid pp_G1 (take (length pp_G1) pp_H));
          [done | done | lia | lia | right; by rewrite Htt].
    + rewrite (ZkKzg_commit_invalid pp_G1 pp_H) by (done || by left).
      rewrite (ZkKzg_commit_invalid pp_G1 (take (length pp_G1) pp_H));
        [done | done | lia | lia | by left].
  - intros Hvf Hvr. rewrite ZkKzg_commit_msm by done. by eexists.
Qed.

(** X4. Commitments are additive: for two coefficient vectors as long as
    the ladder, with coefficients in the range of the library, the
    commitment to [addPoly(Fr, f, g)] is the sum of the commitments to [f]
    and to [g] when no coefficient of the sum is zero, and there is no
    commitment to the sum when one is. *)
Theorem X4_commit_additive (pp : list PointG1) (f_coeffs g_coeffs : list Z) :
  length f_coeffs = length pp ->
  length g_coeffs = length pp ->
  Forall (fun c => 1 <= c < r) f_coeffs ->
  Forall (fun c => 1 <= c < r) g_coeffs ->
  exists h_coeffs com_f com_g,
    utils.addPoly Kzg.Fr f_coeffs g_coeffs = Ok h_coeffs
    /\ Kzg.commit pp f_coeffs = Ok com_f
    /\ Kzg.commit pp g_coeffs = Ok com_g
    /\ (Forall (fun c => c <> 0) h_coeffs ->
          Kzg.commit pp h_coeffs = Ok (g1_add com_f com_g))
    /\ (In 0 h_coeffs -> Kzg.commit pp h_coeffs = Throw RangeError).
Proof.
  intros Hf Hg Hvf Hvg. unfold Kzg.Fr.
  destruct (addPoly_coeffs f_coeffs g_coeffs) as (h & Hh & Hlen & Hco).
  rewrite Hf, Hg, Nat.max_id in Hlen, Hco.
  exists h. eexists _, _. split; [done|].
  split; [by apply Kzg_commit_msm|]. split; [by apply Kzg_commit_msm|].
  split.
  - intros Hnz. rewrite Kzg_commit_msm; [|done|].
    + f_equal. apply msm_add; try done.
      intros i Hi. rewrite (coeff_lookup _ _ _ (Hco i Hi)). apply eqm_mod.
    + apply Forall_lookup. intros i c Hc.
      assert (Hi := lookup_lt_Some _ _ _ Hc). rewrite Hlen in Hi.
      rewrite (Hco i Hi) in Hc. injection Hc as <-.
      assert (Hc0 := proj1 (Forall_lookup _ _) Hnz i _ (Hco i Hi)).
      pose proof (canonical_mod (coeff f_coeffs i + coeff g_coeffs i)) as Hcan.
      unfold canonical in Hcan. cbv beta in Hc0. lia.
  - intros H0%list_elem_of_In. apply Kzg_commit_invalid; [done|].
    apply Exists_exists. exists 0. split; [done | lia].
Qed.

End Linearity.

(** ** Evaluation proofs *)

Section Proofs.
Import bls12_381.
Context {curve : Curve}.

(** X5. The outcomes of [Kzg.prove]: a [RangeError] on an empty coefficient
    vector; an [AssertionError] when the ladder has fewer than
    [f_coeffs.length - 1] entries; otherwise only the first
    [f_coeffs.length - 1] entries of the ladder are read, the call returns
    the sum of the [q_coeffs[i] pp[i]] when no quotient coefficient is zero,
    and throws a [RangeError] when one is. *)
Theorem X5_prove_outcomes (pp : list PointG1) (f_coeffs : list Z) (u : Z) :
  (f_coeffs = [] -> Kzg.prove pp f_coeffs u = Throw RangeError)
  /\ (f_coeffs <> [] -> (length pp < length f_coeffs - 1)%nat ->
        Kzg.prove pp f_coeffs u = Throw AssertionError)
  /\ (f_coeffs <> [] -> (length f_coeffs - 1 <= length pp)%nat ->
        Kzg.prove pp f_coeffs u
        = Kzg.prove (take (length f_coeffs - 1) pp) f_coeffs u
        /\ (Forall (fun c => c <> 0) (quotient u f_coeffs) ->
              Kzg.prove pp f_coeffs u = Ok (msm pp (quotient u f_coeffs)))
        /\ (In 0 (quotient u f_coeffs) ->
              Kzg.prove pp f_coeffs u = Throw RangeError)).
Proof.
  split; [by intros ->|]. split.
  - intros Hf Hlt. rewrite Kzg_prove_unfold by done.
    apply Kzg_commit_mismatch.
    rewrite length_take, horner_suffixes_length, tail_length. lia.
  - intros Hf Hle. rewrite !Kzg_prove_unfold by done.
    assert (Hlen : length (take (length f_coeffs - 1) pp)
                   = length (horner_suffixes u (tail f_coeffs))).
    { rewrite length_take, horner_suffixes_length, tail_length. lia. }
    split; [by rewrite take_take, Nat.min_id|]. split.
    + intros Hnz. rewrite Kzg_commit_msm by (done || by apply quotient_valid).
      f_equal. rewrite <- (quotient_length u f_coeffs).
      apply msm_take_length.
    + intros H0. apply Kzg_commit_invalid; [done|].
      by apply quotient_invalid.
Qed.

(** X6. The hiding proof is the sum of two plain proofs: for a non-empty
    coefficient vector and a blinding vector of the same length, with both
    ladders long enough and no zero coefficient in either quotient,
    [ZkKzg.prove] returns [Kzg.prove] of the coefficients over [pp_G1] plus
    [Kzg.prove] of the blinding coefficients over [pp_H]. *)
Theorem X6_hiding_prove_is_sum
    (pp_G1 pp_H : list PointG1) (f_coeffs r_coeffs : list Z) (u : Z) :
  f_coeffs <> [] ->
  length r_coeffs = length f_coeffs ->
  (length f_coeffs - 1 <= length pp_G1)%nat ->
  (length f_coeffs - 1 <= length pp_H)%nat ->
  Forall (fun c => c <> 0) (quotient u f_coeffs) ->
  Forall (fun c => c <> 0) (quotient u r_coeffs) ->
  exists com_qf com_qr,
    Kzg.prove pp_G1 f_coeffs u = Ok com_qf
    /\ Kzg.prove pp_H r_coeffs u = Ok com_qr
    /\ ZkKzg.prove pp_G1 pp_H f_coeffs r_coeffs u = Ok (g1_add com_qf com_qr).
Proof.
  intros Hf Hr HG HH Hqf Hqr.
  assert (Hr' : r_coeffs <> []) by (intros ->; by destruct f_coeffs).
  apply quotient_valid in Hqf, Hqr. unfold quotient in *.
  set (k := (length f_coeffs - 1)%nat) in *.
  assert (Hlf : length (horner_suffixes u (tail f_coeffs)) = k)
    by (by rewrite horner_suffixes_length, tail_length).
  assert (Hlr : length (horner_suffixes u (tail r_coeffs)) = k)
    by (by rewrite horner_suffixes_length, tail_length, Hr).
  assert (HlG : length (take k pp_G1) = k) by (rewrite length_take; lia).
  assert (HlH : length (take k pp_H) = k) by (rewrite length_take; lia).
  rewrite !Kzg_prove_unfold, ZkKzg_prove_unfold by done. rewrite Hr.
  fold k. eexists _, _.
  split; [apply Kzg_commit_msm; [lia | done]|].
  split; [apply Kzg_commit_msm; [lia | done]|].
  assert (Htr : take (length (take k pp_G1)) (horner_suffixes u (tail r_coeffs))
                = horner_suffixes u (tail r_coeffs))
    by (rewrite HlG, <- Hlr; apply firstn_all).
  rewrite ZkKzg_commit_msm; try lia; try done; [|by rewrite Htr].
  by rewrite Htr, HlG, take_take, Nat.min_id.
Qed.

(** X19. The hiding [prove] never compares the two coefficient vectors. With
    ladders long enough for both quotients and no zero coefficient in
    either quotient: when the blinding vector is shorter than the
    coefficient vector, both assertions of [commit] pass on the sliced
    ladders and the call fails with a [TypeError]; when it is longer, the
    call returns, and the quotient of the blinding polynomial enters the
    proof cut to the length of the other quotient. *)
Theorem X19_hiding_prove_unequal_lengths
    (pp_G1 pp_H : list PointG1) (f_coeffs r_coeffs : list Z) (u : Z) :
  f_coeffs <> [] ->
  r_coeffs <> [] ->
  (length f_coeffs - 1 <= length pp_G1)%nat ->
  (length r_coeffs - 1 <= length pp_H)%nat ->
  Forall (fun c => c <> 0) (quotient u f_coeffs) ->
  Forall (fun c => c <> 0) (quotient u r_coeffs) ->
  ((length r_coeffs < length f_coeffs)%nat ->
     ZkKzg.prove pp_G1 pp_H f_coeffs r_coeffs u = Throw TypeError)
  /\ ((length f_coeffs <= length r_coeffs)%nat ->
        exists com_qf,
          Kzg.prove pp_G1 f_coeffs u = Ok com_qf
          /\ ZkKzg.prove pp_G1 pp_H f_coeffs r_coeffs u
             = Ok (g1_add com_qf
                     (msm pp_H (take (length f_coeffs - 1)
                                     (quotient u r_coeffs))))).
Proof.
  intros Hf Hr HG HH Hqf Hqr.
  apply quotient_valid in Hqf, Hqr. unfold quotient in *.
  set (k := (length f_coeffs - 1)%nat) in *.
  set (m := (length r_coeffs - 1)%nat) in *.
  assert (Hposf : (0 < length f_coeffs)%nat)
    by (destruct f_coeffs; [done | simpl; lia]).
  assert (Hposr : (0 < length r_coeffs)%nat)
    by (destruct r_coeffs; [done | simpl; lia]).
  assert (Hlf : length (horner_suffixes u (tail f_coeffs)) = k)
    by (by rewrite horner_suffixes_length, tail_length).
  assert (Hlr : length (horner_suffixes u (tail r_coeffs)) = m)
    by (by rewrite horner_suffixes_length, tail_length).
  assert (HlG : length (take k pp_G1) = k) by (rewrite length_take; lia).
  assert (HlH : length (take m pp_H) = m) by (rewrite length_take; lia).
  rewrite ZkKzg_prove_unfold by done. fold k m. split.
  - intros Hlt. apply ZkKzg_commit_past_end; try done; lia.
  - intros Hle. rewrite Kzg_prove_unfold by done. fold k. eexists.
    split; [apply Kzg_commit_msm; [lia | done]|].
    rewrite ZkKzg_commit_msm; try lia; try done.
    + rewrite HlG, take_take, (Nat.min_l k m) by lia.
      by rewrite msm_take_coeffs.
    + rewrite HlG. by apply Forall_take.
Qed.

End Proofs.

(** ** What the pairing check accepts *)

Lemma evalPolyAt_eq_iff f x g y :
  utils.evalPolyAt bls12_381.Fr f x = utils.evalPolyAt bls12_381.Fr g y
  <-> peval f x ≅ peval g y.
Proof. by rewrite !evalPolyAt_peval. Qed.

Lemma evalPolyAt_canonical f x : canonical (utils.evalPolyAt bls12_381.Fr f x).
Proof. rewrite evalPolyAt_peval. apply canonical_mod. Qed.

Lemma eqm_evalPolyAt v f x :
  v ≅ utils.evalPolyAt bls12_381.Fr f x <-> v ≅ peval f x.
Proof. by rewrite evalPolyAt_eqm. Qed.

Section Acceptance.
Import bls12_381.
Context {curve : Curve}.

(** When [verify] returns, and what it returns, on multiples of the
    generators. *)
Lemma Kzg_verify_Ok a b u v al ok :
  Kzg.verify (g1_mul G1_BASE a) (g1_mul G1_BASE b) u v (g2_mul G2_BASE al)
  = Ok ok
  <-> valid_scalar u = true /\ valid_scalar v = true
      /\ ~ b ≅ 0 /\ ~ al ≅ u /\ ~ a ≅ v
      /\ ok = bool_decide (b * (al - u) ≅ a - v).
Proof.
  rewrite Kzg_verify_multiples. split.
  - destruct (valid_scalar u); cbn [negb]; [|done].
    destruct (decide (b ≅ 0 \/ al ≅ u)) as [|Hn]; [done|].
    destruct (valid_scalar v); cbn [negb]; [|done].
    destruct (decide (a ≅ v)) as [|Hav]; [done|].
    intros [= <-]. repeat split; try done; intros ?; apply Hn; auto.
  - intros (-> & -> & Hb & Hal & Hav & ->). cbn [negb].
    destruct (decide (b ≅ 0 \/ al ≅ u)) as [[?|?]|_]; [done | done |].
    by destruct (decide (a ≅ v)).
Qed.

Lemma PCS_verify_Ok a b u v al ok :
  PolynomialCommitmentScheme.verify
    (g1_mul G1_BASE a) (g1_mul G1_BASE b) u v (g2_mul G2_BASE al)
  = Ok ok
  <-> valid_scalar u = true /\ valid_scalar v = true
      /\ ~ b ≅ 0 /\ ~ al ≅ u /\ ~ a ≅ v
      /\ ok = bool_decide (b * (al - u) ≅ a - v).
Proof.
  rewrite PCS_verify_multiples. split.
  - destruct (valid_scalar v); cbn [negb]; [|done].
    destruct (valid_scalar u); cbn [negb]; [|done].
    destruct (decide (a ≅ v)) as [|Hav]; [done|].
    destruct (decide (b ≅ 0 \/ al ≅ u)) as [|Hn]; [done|].
    intros [= <-]. repeat split; try done; intros ?; apply Hn; auto.
  - intros (-> & -> & Hb & Hal & Hav & ->). cbn [negb].
    destruct (decide (a ≅ v)); [done|].
    by destruct (decide (b ≅ 0 \/ al ≅ u)) as [[?|?]|_].
Qed.

(** X24. [verify] returns a boolean exactly when the point [u] and the
    claimed value [v] are in the range [1 <= . < r] of the library, the
    proof is not the identity, the verifier key is not [u G2] and the
    commitment is not [v G1]; in every other case it throws. *)
Theorem X24_verify_returns
    (com_f com_q : PointG1) (u v : Z) (alpha_G2 : PointG2) :
  returns (Kzg.verify com_f com_q u v alpha_G2)
  <-> 1 <= u < r /\ 1 <= v < r
      /\ com_q <> G1_ZERO
      /\ alpha_G2 <> g2_mul G2_BASE u
      /\ com_f <> g1_mul G1_BASE v.
Proof.
  destruct (g1_cyclic com_f) as [a ->]. destruct (g1_cyclic com_q) as [b ->].
  destruct (g2_cyclic alpha_G2) as [al ->].
  rewrite <- (g1_mul_zero G1_BASE), !g1_mul_inj, g2_mul_inj.
  rewrite <- !valid_scalar_spec. split.
  - intros [ok Hok%Kzg_verify_Ok]. tauto.
  - intros (Hu & Hv & Hb & Hal & Hav). eexists. apply Kzg_verify_Ok.
    repeat split; done.
Qed.

(** X8. [verify] accepts at most one proof for a given commitment, point,
    value and verifier key: two accepted proofs are the same point. With
    the verifier key [u G2], where the secret and the point agree, it
    accepts none: every call throws in the pairing. *)
Theorem X8_accepted_proof_unique
    (com_f com_q com_q' : PointG1) (u v : Z) (alpha_G2 : PointG2) :
  (Kzg.verify com_f com_q u v alpha_G2 = Ok true ->
   Kzg.verify com_f com_q' u v alpha_G2 = Ok true ->
   com_q = com_q')
  /\ (1 <= u < r ->
      Kzg.verify com_f com_q u v (g2_mul G2_BASE u) = Throw PairingError).
Proof.
  destruct (g1_cyclic com_f) as [a ->]. destruct (g1_cyclic com_q) as [b ->].
  destruct (g1_cyclic com_q') as [b' ->].
  destruct (g2_cyclic alpha_G2) as [al ->]. split.
  - intros (_ & _ & _ & Hal & _ & H1)%Kzg_verify_Ok
           (_ & _ & _ & _ & _ & H2)%Kzg_verify_Ok.
    symmetry in H1, H2. apply bool_decide_eq_true in H1, H2.
    apply g1_mul_eqm. apply (eqm_cancel_r _ _ (al - u)).
    + by rewrite eqm_sub_zero.
    + by rewrite H1, H2.
  - intros Hu%valid_scalar_spec. rewrite Kzg_verify_multiples, Hu.
    cbn [negb]. destruct (decide (b ≅ 0 \/ u ≅ u)) as [|Hn]; [done|].
    destruct Hn. by right.
Qed.

(** X9. [verify] accepts at most one value for a given commitment, proof,
    point and verifier key, and an accepted value is in the range
    [1 <= v < r]. *)
Theorem X9_accepted_value_unique
    (com_f com_q : PointG1) (u v v' : Z) (alpha_G2 : PointG2) :
  Kzg.verify com_f com_q u v alpha_G2 = Ok true ->
  1 <= v < r
  /\ (Kzg.verify com_f com_q u v' alpha_G2 = Ok true -> v' = v).
Proof.
  destruct (g1_cyclic com_f) as [a ->]. destruct (g1_cyclic com_q) as [b ->].
  destruct (g2_cyclic alpha_G2) as [al ->].
  intros (_ & Hv & _ & _ & _ & H1)%Kzg_verify_Ok.
  split; [by apply valid_scalar_spec|].
  intros (_ & Hv' & _ & _ & _ & H2)%Kzg_verify_Ok.
  symmetry in H1, H2. apply bool_decide_eq_true in H1, H2.
  apply valid_scalar_eqm; [done | done |].
  transitivity (a - (a - v')); [apply eqm_eq; ring|].
  rewrite <- H2, H1. apply eqm_eq. ring.
Qed.

(** X10. Commitments compare as evaluations at the secret: after a setup
    with the secret [alpha], the commitments to two coefficient vectors of
    length [degree + 1], with coefficients in the range of the library, are
    equal exactly when the two polynomials take the same value at [alpha]
    in the scalar field. *)
Theorem X10_commitments_equal_iff (degree alpha : Z) (f_coeffs g_coeffs : list Z) :
  0 < degree ->
  1 <= alpha < r ->
  length f_coeffs = Z.to_nat (degree + 1) ->
  length g_coeffs = Z.to_nat (degree + 1) ->
  Forall (fun c => 1 <= c < r) f_coeffs ->
  Forall (fun c => 1 <= c < r) g_coeffs ->
  exists s com_f com_g,
    Kzg.setup degree alpha = Ok s
    /\ Kzg.commit (Kzg.pp s) f_coeffs = Ok com_f
    /\ Kzg.commit (Kzg.pp s) g_coeffs = Ok com_g
    /\ (com_f = com_g
        <-> utils.evalPolyAt Kzg.Fr f_coeffs alpha
            = utils.evalPolyAt Kzg.Fr g_coeffs alpha).
Proof.
  intros Hd Ha Hf Hg Hvf Hvg. rewrite (Kzg_setup_spec degree alpha Hd Ha).
  eexists _, _, _. split; [done|]. cbn [Kzg.pp].
  split; [rewrite <- Hf; by apply Kzg_commit_ladder|].
  split; [rewrite <- Hg; by apply Kzg_commit_ladder|].
  unfold Kzg.Fr. by rewrite evalPolyAt_eq_iff, g1_mul_inj.
Qed.

(** The commitment and the proof of the honest path, as multiples of the
    generator. *)
Lemma honest_commit_prove (degree alpha : Z) (f_coeffs : list Z) (u : Z) :
  0 < degree ->
  length f_coeffs = Z.to_nat (degree + 1) ->
  Forall (fun c => 1 <= c < r) f_coeffs ->
  Forall (fun c => c <> 0) (quotient u f_coeffs) ->
  Kzg.commit (ladder G1_BASE alpha (Z.to_nat (degree + 1))) f_coeffs
  = Ok (g1_mul G1_BASE (peval f_coeffs alpha))
  /\ Kzg.prove (ladder G1_BASE alpha (Z.to_nat (degree + 1))) f_coeffs u
     = Ok (g1_mul G1_BASE (peval (quotient u f_coeffs) alpha)).
Proof.
  intros Hd Hlen Hvf Hq.
  assert (Hf : f_coeffs <> []) by (intros ->; simpl in Hlen; lia).
  rewrite <- Hlen. split; [by apply Kzg_commit_ladder|].
  apply Kzg_prove_ladder; [done | lia | done].
Qed.

(** The quotient at the secret is not zero, and the secret is not the
    point, as soon as the polynomial takes different values at the two. *)
Lemma quotient_nonzero (f_coeffs : list Z) (u alpha : Z) :
  utils.evalPolyAt Fr f_coeffs alpha <> utils.evalPolyAt Fr f_coeffs u ->
  ~ peval (quotient u f_coeffs) alpha ≅ 0 /\ ~ alpha ≅ u.
Proof.
  intros Hne.
  assert (Hprod : ~ peval (quotient u f_coeffs) alpha * (alpha - u) ≅ 0).
  { rewrite quotient_division. intros H0. apply Hne.
    apply (eqm_canonical _ _ (evalPolyAt_canonical _ _)
             (evalPolyAt_canonical _ _)).
    rewrite (evalPolyAt_eqm f_coeffs alpha). by apply eqm_sub_zero. }
  split; intros H0; apply Hprod.
  - rewrite H0. apply eqm_eq. ring.
  - apply (proj2 (eqm_sub_zero _ _)) in H0. rewrite H0. apply eqm_eq. ring.
Qed.

(** X20. Completeness on the inputs the library accepts: after a setup of
    degree [degree >= 1] with a secret in [1, r), for coefficients of length
    [degree + 1] in [1, r), a point [u] in [1, r), no zero coefficient in
    the quotient, a non-zero value [f(u)], and a polynomial that does not
    take the same value at the secret and at [u], the commitment and the
    proof are produced and [verify] returns [true] for the value
    [evalPolyAt(Fr, f_coeffs, u)]. *)
Theorem X20_completeness (degree random : Z) (f_coeffs : list Z) (u : Z) :
  0 < degree ->
  1 <= random < r ->
  length f_coeffs = Z.to_nat (degree + 1) ->
  Forall (fun c => 1 <= c < r) f_coeffs ->
  Forall (fun c => c <> 0) (quotient u f_coeffs) ->
  1 <= u < r ->
  utils.evalPolyAt Kzg.Fr f_coeffs u <> 0 ->
  utils.evalPolyAt Kzg.Fr f_coeffs random
    <> utils.evalPolyAt Kzg.Fr f_coeffs u ->
  exists s com_f com_q,
    Kzg.setup degree random = Ok s
    /\ Kzg.commit (Kzg.pp s) f_coeffs = Ok com_f
    /\ Kzg.prove (Kzg.pp s) f_coeffs u = Ok com_q
    /\ Kzg.verify com_f com_q u (utils.evalPolyAt Kzg.Fr f_coeffs u)
                  (Kzg.alpha_G2 s) = Ok true.
Proof.
  intros Hd Ha Hlen Hvf Hq Hu Hv0 Hne. unfold Kzg.Fr in *.
  rewrite (Kzg_setup_spec degree random Hd Ha).
  destruct (honest_commit_prove degree random f_coeffs u Hd Hlen Hvf Hq)
    as [Hcom Hprf].
  destruct (quotient_nonzero f_coeffs u random Hne) as [Hb Hal].
  eexists _, _, _. split; [done|]. cbn [Kzg.pp Kzg.alpha_G2].
  split; [exact Hcom|]. split; [exact Hprf|].
  apply Kzg_verify_Ok. split; [by apply valid_scalar_spec|].
  split.
  { rewrite (valid_scalar_canonical _ (evalPolyAt_canonical _ _)).
    by destruct (Z.eqb_spec (utils.evalPolyAt Fr f_coeffs u) 0). }
  split; [done|]. split; [done|]. split.
  { intros H0. apply Hne.
    apply (eqm_canonical _ _ (evalPolyAt_canonical _ _)
             (evalPolyAt_canonical _ _)).
    by rewrite (evalPolyAt_eqm f_coeffs random). }
  symmetry. apply bool_decide_eq_true. apply quotient_division.
Qed.

(** X21. Soundness on the inputs the library accepts: with the commitment
    and the proof of X20, [verify] returns [false] for every claimed value
    in [1, r) other than [f(u)] and other than the value of the polynomial
    at the secret. *)
Theorem X21_soundness (degree random : Z) (f_coeffs : list Z) (u v : Z) :
  0 < degree ->
  1 <= random < r ->
  length f_coeffs = Z.to_nat (degree + 1) ->
  Forall (fun c => 1 <= c < r) f_coeffs ->
  Forall (fun c => c <> 0) (quotient u f_coeffs) ->
  1 <= u < r ->
  utils.evalPolyAt Kzg.Fr f_coeffs random
    <> utils.evalPolyAt Kzg.Fr f_coeffs u ->
  1 <= v < r ->
  v <> utils.evalPolyAt Kzg.Fr f_coeffs u ->
  v <> utils.evalPolyAt Kzg.Fr f_coeffs random ->
  exists s com_f com_q,
    Kzg.setup degree random = Ok s
    /\ Kzg.commit (Kzg.pp s) f_coeffs = Ok com_f
    /\ Kzg.prove (Kzg.pp s) f_coeffs u = Ok com_q
    /\ Kzg.verify com_f com_q u v (Kzg.alpha_G2 s) = Ok false.
Proof.
  intros Hd Ha Hlen Hvf Hq Hu Hne Hv Hvu Hva. unfold Kzg.Fr in *.
  rewrite (Kzg_setup_spec degree random Hd Ha).
  destruct (honest_commit_prove degree random f_coeffs u Hd Hlen Hvf Hq)
    as [Hcom Hprf].
  destruct (quotient_nonzero f_coeffs u random Hne) as [Hb Hal].
  assert (Hcanv : canonical v) by (unfold canonical; lia).
  eexists _, _, _. split; [done|]. cbn [Kzg.pp Kzg.alpha_G2].
  split; [exact Hcom|]. split; [exact Hprf|].
  apply Kzg_verify_Ok. split; [by apply valid_scalar_spec|].
  split; [by apply valid_scalar_spec|].
  split; [done|]. split; [done|]. split.
  { intros H0. apply Hva.
    apply (eqm_canonical _ _ Hcanv (evalPolyAt_canonical _ _)).
    by rewrite (evalPolyAt_eqm f_coeffs random). }
  symmetry. apply bool_decide_eq_false. rewrite quotient_division.
  intros Heq. apply Hvu.
  apply (eqm_canonical _ _ Hcanv (evalPolyAt_canonical _ _)).
  transitivity (peval f_coeffs random - (peval f_coeffs random - v));
    [apply eqm_eq; ring|].
  rewrite <- Heq. apply eqm_eq. ring.
Qed.

End Acceptance.

(** ** The adversarial prover *)

Section Adversary.
Import bls12_381.
Context {curve : Curve}.

(** X11. The outcomes of the adversarial [prove]: it throws on the field
    inversion when the point [u] is congruent to the secret; away from the
    secret it throws a [RangeError] when the fake value is congruent to
    [f(alpha)], where [qFake] is zero, and returns for every other fake
    value. The ladder is not read. *)
Theorem X11_forgery_outcomes
    (pp : list PointG1) (f_coeffs : list Z) (u vFake alpha : Z) :
  (alpha ≅ u ->
     CheatingKzg.prove pp f_coeffs u vFake alpha = Throw InvertError)
  /\ (~ alpha ≅ u ->
      vFake ≅ utils.evalPolyAt Kzg.Fr f_coeffs alpha ->
        CheatingKzg.prove pp f_coeffs u vFake alpha = Throw RangeError)
  /\ (~ alpha ≅ u ->
      ~ vFake ≅ utils.evalPolyAt Kzg.Fr f_coeffs alpha ->
        returns (CheatingKzg.prove pp f_coeffs u vFake alpha)).
Proof.
  split; [apply CheatingKzg_prove_at_alpha|]. unfold Kzg.Fr.
  split; intros Hau Hfake;
    destruct (CheatingKzg_prove_unfold pp f_coeffs u vFake alpha Hau)
      as (q & Hcan & Hq & ->).
  - apply g1_multiply_invalid. rewrite (valid_scalar_canonical _ Hcan).
    assert (Hq0 : q ≅ 0).
    { assert (H0 : q * (alpha - u) ≅ 0).
      { rewrite Hq. apply eqm_sub_zero. rewrite Hfake.
        symmetry. apply evalPolyAt_eqm. }
      apply eqm_mul_zero in H0 as [H0|H0]; [done|].
      apply (proj1 (eqm_sub_zero _ _)) in H0. by destruct Hau. }
    apply (eqm_canonical _ 0 Hcan canonical_0) in Hq0. by subst q.
  - apply g1_multiply_returns. rewrite (valid_scalar_canonical _ Hcan).
    destruct (Z.eqb_spec q 0) as [->|]; [|done]. destruct Hfake.
    rewrite evalPolyAt_eqm. symmetry. apply eqm_sub_zero.
    rewrite <- Hq. apply eqm_eq. ring.
Qed.

(** X22. The forgery on the inputs the library accepts: with the leaked
    secret in [1, r), coefficients in [1, r), a point [u] in [1, r) other
    than the secret and a fake value in [1, r) other than the value of the
    polynomial at the secret, the adversarial [prove] returns a proof that
    [verify] accepts for the fake value against the honest commitment. *)
Theorem X22_forgery_accepted
    (degree random : Z) (f_coeffs : list Z) (u fakeValue : Z) :
  0 < degree ->
  1 <= random < r ->
  length f_coeffs = Z.to_nat (degree + 1) ->
  Forall (fun c => 1 <= c < r) f_coeffs ->
  1 <= u < r ->
  u <> random ->
  1 <= fakeValue < r ->
  fakeValue <> utils.evalPolyAt Kzg.Fr f_coeffs random ->
  exists s com_f com_q,
    CheatingKzg.setup degree random = Ok s
    /\ CheatingKzg.alpha s = random
    /\ Kzg.commit (CheatingKzg.pp s) f_coeffs = Ok com_f
    /\ CheatingKzg.prove (CheatingKzg.pp s) f_coeffs u fakeValue
                         (CheatingKzg.alpha s) = Ok com_q
    /\ Kzg.verify com_f com_q u fakeValue (CheatingKzg.alpha_G2 s) = Ok true.
Proof.
  intros Hd Ha Hlen Hvf Hu Hua Hv Hva. unfold Kzg.Fr in *.
  rewrite (CheatingKzg_setup_spec degree random Hd Ha).
  assert (Hau : ~ random ≅ u).
  { intros H0. apply Hua. symmetry.
    by apply valid_scalar_eqm; [apply valid_scalar_spec..|]. }
  assert (Hcanv : canonical fakeValue) by (unfold canonical; lia).
  assert (Hav : ~ peval f_coeffs random ≅ fakeValue).
  { intros H0. apply Hva.
    apply (eqm_canonical _ _ Hcanv (evalPolyAt_canonical _ _)).
    by rewrite (evalPolyAt_eqm f_coeffs random). }
  destruct (CheatingKzg_prove_unfold
              (ladder G1_BASE random (Z.to_nat (degree + 1)))
              f_coeffs u fakeValue random Hau) as (q & Hcan & Hq & Hprove).
  assert (Hq0 : ~ q ≅ 0).
  { intros H0. apply Hav. apply eqm_sub_zero. rewrite <- Hq, H0.
    apply eqm_eq. ring. }
  eexists _, _, _. split; [done|].
  cbn [CheatingKzg.alpha CheatingKzg.pp CheatingKzg.alpha_G2].
  split; [done|]. split; [rewrite <- Hlen; by apply Kzg_commit_ladder|].
  rewrite Hprove. split.
  { apply g1_multiply_valid. rewrite (valid_scalar_canonical _ Hcan).
    destruct (Z.eqb_spec q 0) as [->|]; [|done]. by destruct Hq0. }
  apply Kzg_verify_Ok. split; [by apply valid_scalar_spec|].
  split; [by apply valid_scalar_spec|].
  split; [done|]. split; [done|]. split; [done|].
  symmetry. by apply bool_decide_eq_true.
Qed.

(** X12. Forging the true value gives the honest proof: after the
    adversarial setup, at a point [u] not congruent to the secret, whenever
    the honest [prove] returns a proof and the adversarial [prove] returns
    one for a value congruent to the evaluation at [u], the two proofs are
    the same point. *)
Theorem X12_forgery_of_true_value (degree alpha : Z) (f_coeffs : list Z)
    (u v : Z) :
  0 < degree ->
  1 <= alpha < r ->
  length f_coeffs = Z.to_nat (degree + 1) ->
  ~ alpha ≅ u ->
  v ≅ utils.evalPolyAt Kzg.Fr f_coeffs u ->
  exists s,
    CheatingKzg.setup degree alpha = Ok s
    /\ forall com_q com_q',
         Kzg.prove (CheatingKzg.pp s) f_coeffs u = Ok com_q ->
         CheatingKzg.prove (CheatingKzg.pp s) f_coeffs u v
           (CheatingKzg.alpha s) = Ok com_q' ->
         com_q = com_q'.
Proof.
  intros Hd Ha Hlen Hau Hv. unfold Kzg.Fr in *.
  rewrite (CheatingKzg_setup_spec degree alpha Hd Ha).
  eexists. split; [done|]. cbn [CheatingKzg.alpha CheatingKzg.pp].
  intros com_q com_q' Hhonest Hforged.
  assert (Hf : f_coeffs <> []) by (intros ->; simpl in Hlen; lia).
  rewrite Kzg_prove_unfold, ladder_take in Hhonest by (done || lia).
  fold (quotient u f_coeffs) in Hhonest.
  rewrite <- (quotient_length u f_coeffs) in Hhonest.
  destruct (Forall_or_Exists_valid (quotient u f_coeffs)) as [Hvq|Hxq].
  2:{ by rewrite Kzg_commit_invalid in Hhonest
        by (by rewrite ?ladder_length). }
  rewrite Kzg_commit_ladder in Hhonest by done. injection Hhonest as <-.
  destruct (CheatingKzg_prove_unfold
              (ladder G1_BASE alpha (Z.to_nat (degree + 1)))
              f_coeffs u v alpha Hau) as (q & Hcan & Hq & Hprove).
  rewrite Hprove in Hforged. unfold g1_multiply in Hforged.
  destruct (valid_scalar q); [|done]. injection Hforged as <-.
  apply g1_mul_eqm. apply (eqm_cancel_r _ _ (alpha - u)).
  { by rewrite eqm_sub_zero. }
  by rewrite Hq, Hv, quotient_division.
Qed.

End Adversary.

(** ** The hiding scheme *)

Section Hiding.
Import bls12_381.
Context {curve : Curve}.

Lemma ZkKzg_verify_Ok a b u v v_r al be ok :
  ZkKzg.verify (g1_mul G1_BASE a) (g1_mul G1_BASE b) u v v_r
               (g2_mul G2_BASE al) (g1_mul G1_BASE be)
  = Ok ok
  <-> valid_scalar u = true /\ valid_scalar v = true
      /\ valid_scalar v_r = true
      /\ ~ b ≅ 0 /\ ~ al ≅ u /\ ~ a ≅ v + be * v_r
      /\ ok = bool_decide (b * (al - u) ≅ a - v - be * v_r).
Proof.
  rewrite ZkKzg_verify_multiples. split.
  - destruct (valid_scalar u); cbn [negb]; [|done].
    destruct (decide (b ≅ 0 \/ al ≅ u)) as [|Hn]; [done|].
    destruct (valid_scalar v); cbn [negb]; [|done].
    destruct (valid_scalar v_r); cbn [negb]; [|done].
    destruct (decide (a ≅ v + be * v_r)) as [|Hav]; [done|].
    intros [= <-]. repeat split; try done; intros ?; apply Hn; auto.
  - intros (-> & -> & -> & Hb & Hal & Hav & ->). cbn [negb].
    destruct (decide (b ≅ 0 \/ al ≅ u)) as [[?|?]|_]; [done | done |].
    by destruct (decide (a ≅ v + be * v_r)).
Qed.

Lemma ZkKzg_commit_ladder alpha beta (f_coeffs r_coeffs : list Z) :
  length r_coeffs = length f_coeffs ->
  Forall (fun c => 1 <= c < r) f_coeffs ->
  Forall (fun c => 1 <= c < r) r_coeffs ->
  ZkKzg.commit (ladder G1_BASE alpha (length f_coeffs))
               (ladder (g1_mul G1_BASE beta) alpha (length f_coeffs))
               f_coeffs r_coeffs
  = Ok (g1_mul G1_BASE (peval f_coeffs alpha + beta * peval r_coeffs alpha)).
Proof.
  intros Hrf Hvf Hvr.
  assert (Htake : take (length f_coeffs) r_coeffs = r_coeffs)
    by (rewrite <- Hrf; apply firstn_all).
  rewrite ZkKzg_commit_msm; rewrite ?ladder_length; try done; try lia;
    [|by rewrite Htake].
  rewrite Htake, ladder_take, msm_ladder by lia.
  rewrite <- Hrf, msm_ladder. by rewrite g1_mul_mul, <- g1_mul_add.
Qed.

(** X7. The hiding scheme end to end, on the inputs the library accepts:
    after a setup of degree [degree >= 1] with secrets [alpha] and [beta] in
    [1, r), for coefficients and blinding coefficients of length
    [degree + 1] in [1, r), a point [u] in [1, r), no zero coefficient in
    either quotient, and [f + beta r] not taking the same value at the
    secret and at [u], the hiding commitment and proof are produced, and
    [verify] returns [true] for a pair of claimed values [(v, v_r)] exactly
    when both are in [1, r) and [v + beta v_r] is congruent to
    [f(u) + beta r(u)]. *)
Theorem X7_hiding_verify (degree alpha beta : Z)
    (f_coeffs r_coeffs : list Z) (u : Z) :
  0 < degree ->
  1 <= alpha < r ->
  1 <= beta < r ->
  length f_coeffs = Z.to_nat (degree + 1) ->
  length r_coeffs = Z.to_nat (degree + 1) ->
  Forall (fun c => 1 <= c < r) f_coeffs ->
  Forall (fun c => 1 <= c < r) r_coeffs ->
  Forall (fun c => c <> 0) (quotient u f_coeffs) ->
  Forall (fun c => c <> 0) (quotient u r_coeffs) ->
  1 <= u < r ->
  ~ utils.evalPolyAt ZkKzg.Fr f_coeffs alpha
      + beta * utils.evalPolyAt ZkKzg.Fr r_coeffs alpha
    ≅ utils.evalPolyAt ZkKzg.Fr f_coeffs u
      + beta * utils.evalPolyAt ZkKzg.Fr r_coeffs u ->
  exists z com_f com_q,
    ZkKzg.setup degree alpha beta = Ok z
    /\ ZkKzg.commit (ZkKzg.pp_G1 z) (ZkKzg.pp_H z) f_coeffs r_coeffs = Ok com_f
    /\ ZkKzg.prove (ZkKzg.pp_G1 z) (ZkKzg.pp_H z) f_coeffs r_coeffs u
       = Ok com_q
    /\ forall v v_r,
         ZkKzg.verify com_f com_q u v v_r (ZkKzg.alpha_G2 z) (ZkKzg.H z)
         = Ok true
         <-> 1 <= v < r /\ 1 <= v_r < r
             /\ v + beta * v_r
                ≅ utils.evalPolyAt ZkKzg.Fr f_coeffs u
                  + beta * utils.evalPolyAt ZkKzg.Fr r_coeffs u.
Proof.
  intros Hd Ha Hb Hf Hr Hvf Hvr Hqf Hqr Hu Hne. unfold ZkKzg.Fr in *.
  rewrite (ZkKzg_setup_spec degree alpha beta Hd Ha Hb).
  assert (Hfne : f_coeffs <> []) by (intros ->; simpl in Hf; lia).
  assert (Hrne : r_coeffs <> []) by (intros ->; simpl in Hr; lia).
  set (F := peval f_coeffs alpha). set (R := peval r_coeffs alpha).
  set (QF := peval (quotient u f_coeffs) alpha).
  set (QR := peval (quotient u r_coeffs) alpha).
  set (fu := utils.evalPolyAt Fr f_coeffs u) in *.
  set (ru := utils.evalPolyAt Fr r_coeffs u) in *.
  assert (Hrf : length r_coeffs = length f_coeffs) by lia.
  assert (Hcom : ZkKzg.commit (ladder G1_BASE alpha (Z.to_nat (degree + 1)))
                   (ladder (g1_mul G1_BASE beta) alpha (Z.to_nat (degree + 1)))
                   f_coeffs r_coeffs
                 = Ok (g1_mul G1_BASE (F + beta * R))).
  { rewrite <- Hf. by apply ZkKzg_commit_ladder. }
  assert (Hprf : ZkKzg.prove (ladder G1_BASE alpha (Z.to_nat (degree + 1)))
                   (ladder (g1_mul G1_BASE beta) alpha (Z.to_nat (degree + 1)))
                   f_coeffs r_coeffs u
                 = Ok (g1_mul G1_BASE (QF + beta * QR))).
  { rewrite ZkKzg_prove_unfold by done.
    fold (quotient u f_coeffs). fold (quotient u r_coeffs).
    rewrite Hrf, !ladder_take by lia.
    rewrite <- (quotient_length u f_coeffs).
    apply ZkKzg_commit_ladder; [|by apply quotient_valid..].
    rewrite !quotient_length. lia. }
  eexists _, _, _. split; [done|].
  cbn [ZkKzg.pp_G1 ZkKzg.pp_H ZkKzg.alpha_G2 ZkKzg.H].
  split; [exact Hcom|]. split; [exact Hprf|].
  assert (HL : (QF + beta * QR) * (alpha - u)
               ≅ F + beta * R - (fu + beta * ru)).
  { transitivity (QF * (alpha - u) + beta * (QR * (alpha - u)));
      [apply eqm_eq; ring|].
    unfold QF, QR. rewrite !quotient_division. apply eqm_eq.
    unfold F, R, fu, ru. ring. }
  assert (Hne' : ~ F + beta * R ≅ fu + beta * ru).
  { intros H0. apply Hne. unfold F, R in H0.
    by rewrite !(evalPolyAt_eqm _ alpha). }
  assert (Hprod : ~ (QF + beta * QR) * (alpha - u) ≅ 0).
  { rewrite HL. by rewrite eqm_sub_zero. }
  assert (Hq0 : ~ QF + beta * QR ≅ 0).
  { intros H0. apply Hprod. rewrite H0. apply eqm_eq. ring. }
  assert (Hal : ~ alpha ≅ u).
  { intros H0. apply Hprod. apply (proj2 (eqm_sub_zero _ _)) in H0.
    rewrite H0. apply eqm_eq. ring. }
  intros v v_r. rewrite ZkKzg_verify_Ok, <- !valid_scalar_spec. split.
  - intros (_ & Hv & Hvr' & _ & _ & _ & Hok). split; [done|]. split; [done|].
    symmetry in Hok. apply bool_decide_eq_true in Hok. rewrite HL in Hok.
    transitivity (F + beta * R - (F + beta * R - v - beta * v_r));
      [apply eqm_eq; ring|].
    rewrite <- Hok. apply eqm_eq. ring.
  - intros (Hv & Hvr' & Hsum).
    split; [by apply valid_scalar_spec|]. split; [done|]. split; [done|].
    split; [done|]. split; [done|]. split.
    + rewrite Hsum. exact Hne'.
    + symmetry. apply bool_decide_eq_true. rewrite HL.
      transitivity (F + beta * R - (v + beta * v_r)); [|apply eqm_eq; ring].
      by rewrite Hsum.
Qed.

End Hiding.

(** ** The first implementation and the setups *)

Section FirstImplementation.
Import bls12_381.
Context {curve : Curve}.

(** X13. The first implementation against [Kzg]: its [verify] returns a
    boolean on the same inputs as [Kzg.verify] and then the same one; the
    two call the library in different orders, so that they can throw
    different errors: with the identity as the proof and a claimed value
    outside [1, r), the first one throws on [G1.multiply(v)] and the second
    in the pairing. From degree 1 on and for a sampled scalar in [1, r),
    its [setup] returns the same ladder and verifier key as [Kzg.setup]. *)
Theorem X13_first_implementation
    (com_f com_q : PointG1) (u v : Z) (alpha_G2 : PointG2)
    (degree random : Z) :
  (forall ok,
     PolynomialCommitmentScheme.verify com_f com_q u v alpha_G2 = Ok ok
     <-> Kzg.verify com_f com_q u v alpha_G2 = Ok ok)
  /\ (1 <= u < r -> ~ 1 <= v < r ->
      PolynomialCommitmentScheme.verify com_f G1_ZERO u v alpha_G2
      = Throw RangeError
      /\ Kzg.verify com_f G1_ZERO u v alpha_G2 = Throw PairingError)
  /\ (0 < degree -> 1 <= random < r ->
      exists s k,
        PolynomialCommitmentScheme.setup degree random = Ok s
        /\ Kzg.setup degree random = Ok k
        /\ Kzg.pp k = PolynomialCommitmentScheme.pp s
        /\ Kzg.alpha_G2 k = PolynomialCommitmentScheme.alpha_G2 s).
Proof.
  split; [|split].
  - intros ok. destruct (g1_cyclic com_f) as [a ->].
    destruct (g1_cyclic com_q) as [b ->].
    destruct (g2_cyclic alpha_G2) as [al ->].
    by rewrite PCS_verify_Ok, Kzg_verify_Ok.
  - intros Hu%valid_scalar_spec Hv%valid_scalar_false. split.
    + unfold PolynomialCommitmentScheme.verify.
      by rewrite (g1_multiply_invalid _ _ Hv).
    + unfold Kzg.verify, Kzg.G2.
      by rewrite (g2_multiply_valid _ _ Hu), bind_Ok, pairing_G1_ZERO.
  - intros Hd Ha. eexists _, _.
    split; [by apply PCS_setup_spec|]. split; [by apply Kzg_setup_spec|].
    done.
Qed.

(** X23. A sampled scalar outside [1, r), zero included, leaves every setup
    without parameters: from degree 1 on, [Kzg._setup], [Kzg.setup],
    [CheatingKzg.setup] and the first implementation's [setup] throw a
    [RangeError], and so do [ZkKzg._setup] and [ZkKzg.setup] when either of
    their two scalars is outside the range. *)
Theorem X23_setup_rejects_scalar (degree random1 random2 : Z) :
  0 < degree ->
  (~ 1 <= random1 < r ->
     Kzg._setup degree random1 = Throw RangeError
     /\ Kzg.setup degree random1 = Throw RangeError
     /\ CheatingKzg.setup degree random1 = Throw RangeError
     /\ PolynomialCommitmentScheme.setup degree random1 = Throw RangeError)
  /\ (~ (1 <= random1 < r /\ 1 <= random2 < r) ->
        ZkKzg._setup degree random1 random2 = Throw RangeError
        /\ ZkKzg.setup degree random1 random2 = Throw RangeError).
Proof.
  intros Hd. split.
  - intros Ha. split; [by apply Kzg__setup_invalid|].
    split; [by apply Kzg_setup_invalid|].
    split; [by apply CheatingKzg_setup_invalid | by apply PCS_setup_invalid].
  - intros Hab.
    split; [by apply ZkKzg__setup_invalid | by apply ZkKzg_setup_invalid].
Qed.

End FirstImplementation.

(** ** The polynomial helpers *)

Lemma power_sum_upto_app (l k : list Z) x m :
  (m <= length l)%nat -> power_sum_upto (l ++ k) x m = power_sum_upto l x m.
Proof.
  induction m as [|m IH]; intros Hm; [done|]. simpl.
  rewrite IH by lia. unfold coeff. by rewrite lookup_app_l by lia.
Qed.

Lemma peval_power_sum (l : list Z) x : peval l x = power_sum l x.
Proof.
  unfold power_sum. induction l as [|c l IH] using rev_ind; [done|].
  rewrite peval_app, peval_single, length_app, Nat.add_1_r. simpl.
  rewrite power_sum_upto_app, <- IH by lia.
  unfold coeff. rewrite lookup_app_r, Nat.sub_diag by lia. simpl. ring.
Qed.

Lemma peval_eqm (f g : list Z) x x' :
  Forall2 eqm f g -> x ≅ x' -> peval f x ≅ peval g x'.
Proof.
  intros Hfg Hx. induction Hfg as [|c d f g Hcd Hfg IH]; [done|].
  rewrite !peval_cons. apply eqm_add; [exact Hcd|].
  apply eqm_mul; [exact Hx | exact IH].
Qed.

(** X14. [evalPolyAt] is evaluation in the field: its result is the sum of
    the [c_i x^i] reduced modulo the field order, a [bigint] in [[0, r)], and
    it is the same for coefficients and points that are congruent modulo the
    field order. *)
Theorem X14_evalPolyAt_value (coefficients coefficients' : list Z) (x x' : Z) :
  utils.evalPolyAt bls12_381.Fr coefficients x
  = power_sum coefficients x mod bls12_381.r
  /\ 0 <= utils.evalPolyAt bls12_381.Fr coefficients x < bls12_381.r
  /\ (Forall2 eqm coefficients coefficients' -> x ≅ x' ->
        utils.evalPolyAt bls12_381.Fr coefficients x
        = utils.evalPolyAt bls12_381.Fr coefficients' x').
Proof.
  split; [by rewrite evalPolyAt_peval, peval_power_sum|]. split.
  - rewrite evalPolyAt_peval. apply canonical_mod.
  - intros Hc Hx. rewrite !evalPolyAt_peval. by apply peval_eqm.
Qed.

(** X15. [addPoly] never fails: the result has the length of the longer
    argument, its [i]-th coefficient is the field sum of the two [i]-th
    coefficients, the shorter argument continued with zeros, and evaluating it
    gives the field sum of the two evaluations. *)
Theorem X15_addPoly (a b : list Z) :
  exists res,
    utils.addPoly bls12_381.Fr a b = Ok res
    /\ length res = Nat.max (length a) (length b)
    /\ (forall i, (i < Nat.max (length a) (length b))%nat ->
          res !! i = Some (noble.add bls12_381.Fr (coeff a i) (coeff b i)))
    /\ forall x,
         utils.evalPolyAt bls12_381.Fr res x
         = noble.add bls12_381.Fr (utils.evalPolyAt bls12_381.Fr a x)
                                  (utils.evalPolyAt bls12_381.Fr b x).
Proof.
  destruct (addPoly_coeffs a b) as (res & Hres & Hlen & Hco).
  destruct (addPoly_spec a b) as (res' & Hres' & _ & _ & Hval).
  rewrite Hres in Hres'. injection Hres' as <-.
  exists res. split; [done|]. split; [done|]. split.
  - intros i Hi. rewrite Fr_add. by apply Hco.
  - intros x. rewrite Fr_add, !evalPolyAt_peval, <- Zplus_mod. apply Hval.
Qed.

(** X16. [mulPoly] fails only on two empty arguments, on the allocation of an
    array of length -1; otherwise the result has length
    [a.length + b.length - 1], its coefficients are field elements, and
    evaluating it gives the field product of the two evaluations. *)
Theorem X16_mulPoly (a b : list Z) :
  (a = [] -> b = [] -> utils.mulPoly bls12_381.Fr a b = Throw RangeError)
  /\ (a <> [] \/ b <> [] ->
      exists res,
        utils.mulPoly bls12_381.Fr a b = Ok res
        /\ length res = (length a + length b - 1)%nat
        /\ Forall canonical res
        /\ forall x,
             utils.evalPolyAt bls12_381.Fr res x
             = noble.mul bls12_381.Fr (utils.evalPolyAt bls12_381.Fr a x)
                                      (utils.evalPolyAt bls12_381.Fr b x)).
Proof.
  split; [by intros -> ->|]. intros Hne.
  destruct (mulPoly_spec a b) as (res & Hres & Hlen & Hcan & Hval).
  { destruct a, b; simpl; try lia. by destruct Hne. }
  exists res. split; [done|]. split; [done|]. split; [done|].
  intros x. rewrite Fr_mul, !evalPolyAt_peval, <- Zmult_mod. apply Hval.
Qed.

Lemma removelast_snoc (l : list Z) c :
  l !! (length l - 1)%nat = Some c -> l = removelast l ++ [c].
Proof.
  intros Hc. assert (Hlen := lookup_lt_Some _ _ _ Hc).
  rewrite removelast_firstn_len.
  replace (Init.Nat.pred (length l)) with (length l - 1)%nat by lia.
  rewrite <- (take_S_r _ _ _ Hc).
  replace (S (length l - 1)) with (length l) by lia. by rewrite firstn_all.
Qed.

Lemma pop_trailing_zeros_prefix (turns : nat) (result : list Z) :
  exists k, result = utils.pop_trailing_zeros turns result ++ replicate k 0.
Proof.
  revert result. induction turns as [|turns IH]; intros result.
  { exists 0%nat. simpl. by rewrite app_nil_r. }
  cbn [utils.pop_trailing_zeros].
  destruct (Nat.ltb_spec 0 (length result)) as [Hpos|Hzero]; cbn [andb].
  - destruct (bool_decide_reflect (result !! (length result - 1)%nat = Some 0))
      as [Hlast|Hlast].
    + destruct (IH (removelast result)) as [k Hk]. exists (S k).
      rewrite replicate_S_end, app_assoc, <- Hk. by apply removelast_snoc.
    + exists 0%nat. simpl. by rewrite app_nil_r.
  - exists 0%nat. simpl. by rewrite app_nil_r.
Qed.

(** X17. [lagrangeInterpolation] interpolates: for points whose [x] are
    pairwise distinct modulo the field order, it returns a coefficient vector
    of field elements, no longer than the number of points and without a
    trailing zero, whose evaluation at each [x] is the [y] of that point
    reduced modulo the field order. *)
Theorem X17_lagrangeInterpolation_interpolates (points : list utils.Point) :
  distinct_mod (utils.x <$> points) ->
  exists result,
    utils.lagrangeInterpolation bls12_381.Fr points = Ok result
    /\ (length result <= length points)%nat
    /\ Forall canonical result
    /\ (result = [] \/ last result <> Some 0)
    /\ forall k p, points !! k = Some p ->
         utils.evalPolyAt bls12_381.Fr result (utils.x p)
         = utils.y p mod bls12_381.r.
Proof.
  intros Hdist. destruct points as [|p0 points'] eqn:Hpts.
  { exists []. split; [done|]. split; [done|]. split; [done|].
    split; [by left|]. intros k p Hk. done. }
  rewrite <- Hpts in *.
  destruct (lagrange_loops points) as (full & -> & Hlen & Hcan & Hval);
    [by subst | done |].
  destruct (pop_trailing_zeros_prefix (length full) full) as [k Hk].
  assert (Hexit := pop_trailing_zeros_exit (length full) full (le_n _)).
  remember (utils.pop_trailing_zeros (length full) full) as result eqn:Hresult.
  clear Hresult. subst full.
  exists result. split; [done|].
  rewrite length_app in Hlen. split; [lia|]. split.
  { by apply Forall_app in Hcan as [Hcan _]. }
  split; [exact Hexit|].
  intros i p Hp. rewrite evalPolyAt_peval.
  assert (Hpe : peval result (utils.x p)
                = peval (result ++ replicate k 0) (utils.x p)).
  { rewrite peval_app, peval_replicate_0. ring. }
  rewrite Hpe.
  change (peval (result ++ replicate k 0) (utils.x p) ≅ utils.y p).
  rewrite Hval.
  assert (Hxi : coeff (utils.x <$> points) i = utils.x p).
  { apply coeff_lookup. by rewrite list_lookup_fmap, Hp. }
  assert (Hyi : coeff (utils.y <$> points) i = utils.y p).
  { apply coeff_lookup. by rewrite list_lookup_fmap, Hp. }
  assert (Hil := lookup_lt_Some _ _ _ Hp).
  rewrite <- Hxi, <- Hyi.
  rewrite (lagrange_val_node _ _ (length points) i)
    by (rewrite ?length_fmap; done || lia).
  by destruct (Nat.ltb_spec i (length points)); [|lia].
Qed.

Lemma Fr_inv_zero den :
  den ≅ 0 -> noble.inv bls12_381.Fr den = Throw InvertError.
Proof.
  intros Hden. pose proof r_gt_1 as Hr.
  unfold bls12_381.Fr, noble.Field, noble.inv, noble.invert.
  rewrite noble_mod_spec by lia.
  assert (H0 : den mod bls12_381.r = 0).
  { unfold eqm in Hden. by rewrite Hden, Z.mod_0_l by lia. }
  by rewrite H0.
Qed.

Lemma basis_val_zero_factor xs i j n x :
  (j < n)%nat -> j <> i -> x ≅ coeff xs j -> basis_val xs i n x ≅ 0.
Proof.
  intros Hj Hji Hx. induction n as [|n IH]; [lia|]. cbn [basis_val].
  destruct (Nat.eqb_spec i n) as [->|Hin].
  - apply IH. lia.
  - destruct (Nat.eq_dec j n) as [->|Hjn].
    + assert (E : x - coeff xs n ≅ 0) by (rewrite Hx; apply eqm_eq; ring).
      rewrite E. apply eqm_eq. ring.
    + rewrite IH by lia. apply eqm_eq. ring.
Qed.

(** The inner loop of [lagrangeInterpolation]: the basis polynomial of the
    [i]-th point and its denominator. *)
Lemma lagrange_basis_loop (points : list utils.Point) (i : nat) pi :
  points !! i = Some pi ->
  exists basis denominator,
    for_range 0 (length points) (fun j '(basis, denominator) =>
      if negb (Nat.eqb i j) then
        pj ← index points j;
        basis ← utils.mulPoly bls12_381.Fr basis
                  [noble.neg bls12_381.Fr (utils.x pj); 1];
        pi ← index points i;
        let diff := noble.sub bls12_381.Fr (utils.x pi) (utils.x pj) in
        let denominator := noble.mul bls12_381.Fr denominator diff in
        Ok (basis, denominator)
      else Ok (basis, denominator)) ([1], 1)
    = Ok (basis, denominator)
    /\ basis <> []
    /\ denominator
       ≅ basis_val (utils.x <$> points) i (length points) (utils.x pi).
Proof.
  intros Hpi. set (xs := utils.x <$> points).
  loop_invariant
    (fun (j : nat) (st : list Z * Z) =>
       fst st <> [] /\ snd st ≅ basis_val xs i j (utils.x pi)) as st Hst.
  - done.
  - intros j [basis den] Hj (Hne & Hden). cbn [fst snd] in Hne, Hden.
    cbn [basis_val].
    destruct (Nat.eqb_spec i j) as [->|Hij]; simpl negb; cbv iota.
    + eexists. split; [done|]. done.
    + destruct (lookup_lt_is_Some_2 points j ltac:(lia)) as [pj Hpj].
      assert (Hxj : coeff xs j = utils.x pj).
      { apply coeff_lookup. unfold xs. by rewrite list_lookup_fmap, Hpj. }
      rewrite (index_lookup _ _ _ Hpj), bind_Ok.
      destruct (mulPoly_spec basis [noble.neg bls12_381.Fr (utils.x pj); 1])
        as (basis' & -> & Hlb' & _ & _); [simpl; lia|].
      rewrite bind_Ok, (index_lookup _ _ _ Hpi), bind_Ok. cbv zeta.
      eexists. split; [done|]. cbn [fst snd]. split.
      * intros ->. simpl in Hlb'. destruct basis; [done | simpl in Hlb'; lia].
      * by rewrite Fr_mul, Fr_sub, !eqm_mod, Hden, Hxj.
  - destruct st as [basis den]. destruct Hst as (Hne & Hden).
    by exists basis, den.
Qed.

(** X18. [lagrangeInterpolation] fails on points that collide in the field:
    when two of the points have [x] congruent modulo the field order, the
    denominator of a basis polynomial is zero and the call throws on the field
    inversion, whatever the [y]. *)
Theorem X18_lagrangeInterpolation_collision
    (points : list utils.Point) (i j : nat) (pi pj : utils.Point) :
  points !! i = Some pi ->
  points !! j = Some pj ->
  i <> j ->
  utils.x pi ≅ utils.x pj ->
  utils.lagrangeInterpolation bls12_381.Fr points = Throw InvertError.
Proof.
  intros Hpi Hpj Hij Hx. unfold utils.lagrangeInterpolation.
  assert (Hi := lookup_lt_Some _ _ _ Hpi).
  assert (Hj := lookup_lt_Some _ _ _ Hpj).
  rewrite (for_range_throws_at _ 0 (length points) i InvertError);
    [done | lia | |].
  - intros i' result Hi'. cbv beta zeta.
    destruct (lookup_lt_is_Some_2 points i' ltac:(lia)) as [p' Hp'].
    pose proof (lagrange_basis_loop points i' p' Hp') as Hloop.
    cbv zeta in Hloop. destruct Hloop as (basis & den & -> & Hne & Hden).
    rewrite bind_Ok. cbv beta iota.
    destruct (Z.eq_dec (den mod bls12_381.r) (0 mod bls12_381.r)) as [H0|H0].
    + right. by rewrite (Fr_inv_zero den H0).
    + left. destruct (Fr_inv_spec den H0) as [-> _].
      rewrite bind_Ok, (index_lookup _ _ _ Hp'), bind_Ok. cbv zeta.
      destruct (mulPoly_spec basis
                  [noble.mul bls12_381.Fr (utils.y p')
                     (Z.invmod den bls12_381.r)])
        as (termPoly & -> & _); [simpl; lia|].
      rewrite bind_Ok.
      destruct (addPoly_spec result termPoly) as (res & -> & _).
      by eexists.
  - intros result. cbv beta zeta.
    pose proof (lagrange_basis_loop points i pi Hpi) as Hloop.
    cbv zeta in Hloop. destruct Hloop as (basis & den & -> & Hne & Hden).
    rewrite bind_Ok. cbv beta iota. rewrite Fr_inv_zero; [done|].
    rewrite Hden. apply (basis_val_zero_factor _ _ j); [done | done |].
    rewrite Hx. apply eqm_eq. symmetry. apply coeff_lookup.
    by rewrite list_lookup_fmap, Hpj.
Qed.

(** ** Instances of the further properties *)

Section FurtherInstances.
Import Exponent.
Import bls12_381.

Local Notation "'G'" := (G1_BASE (Curve := Exponent.curve)).
Local Notation "'G2'" := (G2_BASE (Curve := Exponent.curve)).

Local Ltac in_range := split; [vm_compute; discriminate | reflexivity].
Local Ltac all_in_range := repeat (constructor; [in_range|]); constructor.
Local Ltac none_zero :=
  vm_compute; repeat (constructor; [discriminate|]); constructor.

(** X1 on two ladders of length 2, and with a zero coefficient. *)
Lemma X1_hiding_commit_is_sum_witness :
  (exists com_f com_r,
     Kzg.commit [G; g1_mul G 7] [5; 4] = Ok com_f
     /\ Kzg.commit [g1_mul G 3; g1_mul G 21] [11; 22] = Ok com_r
     /\ ZkKzg.commit [G; g1_mul G 7] [g1_mul G 3; g1_mul G 21]
          [5; 4] [11; 22] = Ok (g1_add com_f com_r))
  /\ ZkKzg.commit [G; g1_mul G 7] [g1_mul G 3; g1_mul G 21] [0; 4] [11; 22]
     = Throw RangeError.
Proof.
  destruct (X1_hiding_commit_is_sum (curve := Exponent.curve)
              [G; g1_mul G 7] [g1_mul G 3; g1_mul G 21] [5; 4] [11; 22])
    as (H1 & _); [reflexivity..|].
  destruct (X1_hiding_commit_is_sum (curve := Exponent.curve)
              [G; g1_mul G 7] [g1_mul G 3; g1_mul G 21] [0; 4] [11; 22])
    as (_ & H2); [reflexivity..|].
  split; [apply H1; all_in_range|].
  apply H2. left. apply Exists_cons_hd. lia.
Defined.

(** X2: a length mismatch, two coefficients in range, and a zero
    coefficient. *)
Lemma X2_commit_outcomes_witness :
  Kzg.commit [G] [1; 2] = Throw AssertionError
  /\ Kzg.commit [G; g1_mul G 7] [5; 4] = Ok (msm [G; g1_mul G 7] [5; 4])
  /\ Kzg.commit [G; g1_mul G 7] [5; 0] = Throw RangeError.
Proof.
  destruct (X2_commit_outcomes (curve := Exponent.curve) [G] [1; 2])
    as (H1 & _).
  destruct (X2_commit_outcomes (curve := Exponent.curve)
              [G; g1_mul G 7] [5; 4]) as (_ & H2 & _).
  destruct (X2_commit_outcomes (curve := Exponent.curve)
              [G; g1_mul G 7] [5; 0]) as (_ & _ & H3).
  split; [apply H1; simpl; lia|].
  split; [apply H2; [reflexivity | all_in_range]|].
  apply H3; [reflexivity|]. apply Exists_cons_tl, Exists_cons_hd. lia.
Defined.

(** X3 with a blinding ladder one longer than the ladder. *)
Lemma X3_hiding_commit_long_ladder_witness :
  ZkKzg.commit [G] [g1_mul G 3; g1_mul G 21] [1] [2; 3]
  = ZkKzg.commit [G]
      (take (length [G]) [g1_mul G 3; g1_mul G 21]) [1]
      (take (length [G]) [2; 3])
  /\ (Forall (fun c => 1 <= c < r) [1] ->
      Forall (fun c => 1 <= c < r) (take (length [G]) [2; 3]) ->
      returns (ZkKzg.commit [G] [g1_mul G 3; g1_mul G 21] [1] [2; 3])).
Proof.
  apply (X3_hiding_commit_long_ladder (curve := Exponent.curve)
           [G] [g1_mul G 3; g1_mul G 21] [1] [2; 3]);
    [reflexivity | reflexivity | simpl; lia].
Defined.

(** X4 on a ladder of length 2. *)
Lemma X4_commit_additive_witness :
  exists h_coeffs com_f com_g,
    utils.addPoly Kzg.Fr [5; 4] [1; 2] = Ok h_coeffs
    /\ Kzg.commit [G; g1_mul G 7] [5; 4] = Ok com_f
    /\ Kzg.commit [G; g1_mul G 7] [1; 2] = Ok com_g
    /\ (Forall (fun c => c <> 0) h_coeffs ->
          Kzg.commit [G; g1_mul G 7] h_coeffs = Ok (g1_add com_f com_g))
    /\ (In 0 h_coeffs ->
          Kzg.commit [G; g1_mul G 7] h_coeffs = Throw RangeError).
Proof.
  apply (X4_commit_additive (curve := Exponent.curve)
           [G; g1_mul G 7] [5; 4] [1; 2]);
    [reflexivity | reflexivity | all_in_range | all_in_range].
Defined.

(** X5: no coefficient, a ladder that is too short, a ladder that is longer
    than the quotient, and a quotient with a zero coefficient. *)
Lemma X5_prove_outcomes_witness :
  Kzg.prove [G] [] 5 = Throw RangeError
  /\ Kzg.prove (curve := Exponent.curve) [] [1; 2; 3] 5 = Throw AssertionError
  /\ Kzg.prove [G; G; G] [1; 2; 3] 5
     = Kzg.prove (take (length [1; 2; 3] - 1) [G; G; G]) [1; 2; 3] 5
  /\ Kzg.prove [G; G; G] [1; 2; 3] 5
     = Ok (msm [G; G; G] (quotient 5 [1; 2; 3]))
  /\ Kzg.prove [G; G; G] [3; 5; 1] (r - 5) = Throw RangeError.
Proof.
  destruct (X5_prove_outcomes (curve := Exponent.curve) [G] [] 5)
    as (H1 & _ & _).
  destruct (X5_prove_outcomes (curve := Exponent.curve) [] [1; 2; 3] 5)
    as (_ & H2 & _).
  destruct (X5_prove_outcomes (curve := Exponent.curve)
              [G; G; G] [1; 2; 3] 5) as (_ & _ & H3).
  destruct (X5_prove_outcomes (curve := Exponent.curve)
              [G; G; G] [3; 5; 1] (r - 5)) as (_ & _ & H4).
  destruct H3 as (H3a & H3b & _); [discriminate | simpl; lia|].
  destruct H4 as (_ & _ & H4); [discriminate | simpl; lia|].
  split; [apply H1; reflexivity|].
  split; [apply H2; [discriminate | simpl; lia]|].
  split; [exact H3a|]. split; [apply H3b; none_zero|].
  apply H4. vm_compute. tauto.
Defined.

(** X6 on two ladders of length 2 and three coefficients. *)
Lemma X6_hiding_prove_is_sum_witness :
  exists com_qf com_qr,
    Kzg.prove [G; g1_mul G 7] [5; 4; 3] 5 = Ok com_qf
    /\ Kzg.prove [g1_mul G 3; g1_mul G 21] [1; 2; 3] 5 = Ok com_qr
    /\ ZkKzg.prove [G; g1_mul G 7] [g1_mul G 3; g1_mul G 21]
         [5; 4; 3] [1; 2; 3] 5 = Ok (g1_add com_qf com_qr).
Proof.
  apply (X6_hiding_prove_is_sum (curve := Exponent.curve)
           [G; g1_mul G 7] [g1_mul G 3; g1_mul G 21]
           [5; 4; 3] [1; 2; 3] 5);
    [discriminate | reflexivity | simpl; lia | simpl; lia
    | none_zero | none_zero].
Defined.

(** X7 at degree 4. *)
Lemma X7_hiding_verify_witness :
  exists z com_f com_q,
    ZkKzg.setup (curve := Exponent.curve) 4 123456789 987654321 = Ok z
    /\ ZkKzg.commit (ZkKzg.pp_G1 z) (ZkKzg.pp_H z)
         [5; 4; 3; 2; 1] [11; 22; 33; 44; 55] = Ok com_f
    /\ ZkKzg.prove (ZkKzg.pp_G1 z) (ZkKzg.pp_H z)
         [5; 4; 3; 2; 1] [11; 22; 33; 44; 55] 5 = Ok com_q
    /\ forall v v_r,
         ZkKzg.verify com_f com_q 5 v v_r (ZkKzg.alpha_G2 z) (ZkKzg.H z)
         = Ok true
         <-> 1 <= v < r /\ 1 <= v_r < r
             /\ v + 987654321 * v_r
                ≅ utils.evalPolyAt ZkKzg.Fr [5; 4; 3; 2; 1] 5
                  + 987654321
                    * utils.evalPolyAt ZkKzg.Fr [11; 22; 33; 44; 55] 5.
Proof.
  apply (X7_hiding_verify (curve := Exponent.curve) 4 123456789 987654321
           [5; 4; 3; 2; 1] [11; 22; 33; 44; 55] 5);
    [lia | in_range | in_range | reflexivity | reflexivity
    | all_in_range | all_in_range | none_zero | none_zero | in_range |].
  vm_compute. discriminate.
Defined.

(** X8: the commitment [3267 G] to [f] at the secret 7, the point 5 and
    the value 975; the accepted proofs [1146 G] and [(1146 + r) G] are the
    same point, and with the verifier key [5 G2] the call throws. *)
Lemma X8_accepted_proof_unique_witness :
  g1_mul G 1146 = g1_mul G (1146 + r)
  /\ Kzg.verify (g1_mul G 3267) (g1_mul G 1146) 5 975 (g2_mul G2 5)
     = Throw PairingError.
Proof.
  destruct (X8_accepted_proof_unique (curve := Exponent.curve)
              (g1_mul G 3267) (g1_mul G 1146) (g1_mul G (1146 + r))
              5 975 (g2_mul G2 7)) as (H1 & _).
  destruct (X8_accepted_proof_unique (curve := Exponent.curve)
              (g1_mul G 3267) (g1_mul G 1146) (g1_mul G 1146)
              5 975 (g2_mul G2 5)) as (_ & H2).
  split; [apply H1; vm_compute; reflexivity | apply H2; in_range].
Defined.

(** X9 on the same commitment and proof. *)
Lemma X9_accepted_value_unique_witness :
  1 <= 975 < r
  /\ (Kzg.verify (g1_mul G 3267) (g1_mul G 1146) 5 975 (g2_mul G2 7)
      = Ok true -> 975 = 975).
Proof.
  apply (X9_accepted_value_unique (curve := Exponent.curve)
           (g1_mul G 3267) (g1_mul G 1146) 5 975 975 (g2_mul G2 7)).
  vm_compute. reflexivity.
Defined.

(** X10 at degree 4. *)
Lemma X10_commitments_equal_iff_witness :
  exists s com_f com_g,
    Kzg.setup (curve := Exponent.curve) 4 123456789 = Ok s
    /\ Kzg.commit (Kzg.pp s) [5; 4; 3; 2; 1] = Ok com_f
    /\ Kzg.commit (Kzg.pp s) [6; 3; 3; 2; 1] = Ok com_g
    /\ (com_f = com_g
        <-> utils.evalPolyAt Kzg.Fr [5; 4; 3; 2; 1] 123456789
            = utils.evalPolyAt Kzg.Fr [6; 3; 3; 2; 1] 123456789).
Proof.
  apply (X10_commitments_equal_iff (curve := Exponent.curve) 4 123456789
           [5; 4; 3; 2; 1] [6; 3; 3; 2; 1]);
    [lia | in_range | reflexivity | reflexivity | all_in_range | all_in_range].
Defined.

(** X11: the forger at [u = alpha + r], at the fake value [f(alpha)], and
    at the fake value 999. *)
Lemma X11_forgery_outcomes_witness :
  CheatingKzg.prove (curve := Exponent.curve) [] [5; 4; 3; 2; 1]
    (123456789 + r) 999 123456789 = Throw InvertError
  /\ CheatingKzg.prove (curve := Exponent.curve) [] [5; 4; 3; 2; 1] 5
       (utils.evalPolyAt Kzg.Fr [5; 4; 3; 2; 1] 123456789) 123456789
     = Throw RangeError
  /\ returns (CheatingKzg.prove (curve := Exponent.curve) []
                [5; 4; 3; 2; 1] 5 999 123456789).
Proof.
  destruct (X11_forgery_outcomes (curve := Exponent.curve) []
              [5; 4; 3; 2; 1] (123456789 + r) 999 123456789) as (H1 & _).
  destruct (X11_forgery_outcomes (curve := Exponent.curve) []
              [5; 4; 3; 2; 1] 5
              (utils.evalPolyAt Kzg.Fr [5; 4; 3; 2; 1] 123456789) 123456789)
    as (_ & H2 & _).
  destruct (X11_forgery_outcomes (curve := Exponent.curve) []
              [5; 4; 3; 2; 1] 5 999 123456789) as (_ & _ & H3).
  split; [apply H1; vm_compute; reflexivity|].
  split; [apply H2; [vm_compute; discriminate | reflexivity]|].
  apply H3; vm_compute; discriminate.
Defined.

(** X12 at degree 4, with the true value 975 of [f] at 5. *)
Lemma X12_forgery_of_true_value_witness :
  exists s,
    CheatingKzg.setup (curve := Exponent.curve) 4 123456789 = Ok s
    /\ forall com_q com_q',
         Kzg.prove (CheatingKzg.pp s) [5; 4; 3; 2; 1] 5 = Ok com_q ->
         CheatingKzg.prove (CheatingKzg.pp s) [5; 4; 3; 2; 1] 5 975
           (CheatingKzg.alpha s) = Ok com_q' ->
         com_q = com_q'.
Proof.
  apply (X12_forgery_of_true_value (curve := Exponent.curve) 4 123456789
           [5; 4; 3; 2; 1] 5 975);
    [lia | in_range | reflexivity | vm_compute; discriminate
    | vm_compute; reflexivity].
Defined.

(** X13 on the commitment and proof of X8, with the identity as the proof
    and the value 0, and at degree 4. *)
Lemma X13_first_implementation_witness :
  (forall ok,
     PolynomialCommitmentScheme.verify (g1_mul G 3267) (g1_mul G 1146) 5 0
       (g2_mul G2 7) = Ok ok
     <-> Kzg.verify (g1_mul G 3267) (g1_mul G 1146) 5 0 (g2_mul G2 7) = Ok ok)
  /\ (PolynomialCommitmentScheme.verify (g1_mul G 3267) G1_ZERO 5 0
        (g2_mul G2 7) = Throw RangeError
      /\ Kzg.verify (g1_mul G 3267) G1_ZERO 5 0 (g2_mul G2 7)
         = Throw PairingError)
  /\ exists s k,
       PolynomialCommitmentScheme.setup (curve := Exponent.curve) 4 123456789
       = Ok s
       /\ Kzg.setup 4 123456789 = Ok k
       /\ Kzg.pp k = PolynomialCommitmentScheme.pp s
       /\ Kzg.alpha_G2 k = PolynomialCommitmentScheme.alpha_G2 s.
Proof.
  destruct (X13_first_implementation (curve := Exponent.curve)
              (g1_mul G 3267) (g1_mul G 1146) 5 0 (g2_mul G2 7) 4 123456789)
    as (H1 & H2 & H3).
  split; [exact H1|]. split; [apply H2; [in_range | lia]|].
  apply H3; [lia | in_range].
Defined.

Lemma X14_evalPolyAt_value_witness :
  utils.evalPolyAt Fr [5; 4; 3] 2 = power_sum [5; 4; 3] 2 mod r
  /\ 0 <= utils.evalPolyAt Fr [5; 4; 3] 2 < r
  /\ utils.evalPolyAt Fr [5; 4; 3] 2
     = utils.evalPolyAt Fr [5 + r; 4; 3 - r] (2 + r).
Proof.
  destruct (X14_evalPolyAt_value [5; 4; 3] [5 + r; 4; 3 - r] 2 (2 + r))
    as (H1 & H2 & H3).
  split; [exact H1|]. split; [exact H2|]. apply H3.
  - repeat (constructor; [vm_compute; reflexivity|]). constructor.
  - vm_compute. reflexivity.
Defined.

(** X16 on two empty lists and on two linear polynomials. *)
Lemma X16_mulPoly_witness :
  utils.mulPoly Fr [] [] = Throw RangeError
  /\ exists res,
       utils.mulPoly Fr [1; 2] [3; 4] = Ok res
       /\ length res = (length [1; 2] + length [3; 4] - 1)%nat
       /\ Forall canonical res
       /\ forall x,
            utils.evalPolyAt Fr res x
            = noble.mul Fr (utils.evalPolyAt Fr [1; 2] x)
                           (utils.evalPolyAt Fr [3; 4] x).
Proof.
  destruct (X16_mulPoly [] []) as (H1 & _).
  destruct (X16_mulPoly [1; 2] [3; 4]) as (_ & H2).
  split; [apply H1; reflexivity|].
  apply H2. left. discriminate.
Defined.

(** X17 on five points. *)
Lemma X17_lagrangeInterpolation_interpolates_witness :
  exists result,
    utils.lagrangeInterpolation Fr
      [utils.Build_Point 0 3; utils.Build_Point 1 1; utils.Build_Point 2 4;
       utils.Build_Point 3 1; utils.Build_Point 4 5] = Ok result
    /\ (length result
        <= length [utils.Build_Point 0 3; utils.Build_Point 1 1;
                   utils.Build_Point 2 4; utils.Build_Point 3 1;
                   utils.Build_Point 4 5])%nat
    /\ Forall canonical result
    /\ (result = [] \/ last result <> Some 0)
    /\ forall k p,
         [utils.Build_Point 0 3; utils.Build_Point 1 1; utils.Build_Point 2 4;
          utils.Build_Point 3 1; utils.Build_Point 4 5] !! k = Some p ->
         utils.evalPolyAt Fr result (utils.x p) = utils.y p mod r.
Proof.
  apply (X17_lagrangeInterpolation_interpolates
           [utils.Build_Point 0 3; utils.Build_Point 1 1; utils.Build_Point 2 4;
            utils.Build_Point 3 1; utils.Build_Point 4 5]).
  unfold distinct_mod. apply (bool_decide_unpack _). vm_compute. exact I.
Defined.

(** X18 on the points 0, 1 and [r]. *)
Lemma X18_lagrangeInterpolation_collision_witness :
  utils.lagrangeInterpolation Fr
    [utils.Build_Point 0 1; utils.Build_Point 1 2; utils.Build_Point r 3]
  = Throw InvertError.
Proof.
  apply (X18_lagrangeInterpolation_collision
           [utils.Build_Point 0 1; utils.Build_Point 1 2; utils.Build_Point r 3]
           0 2 (utils.Build_Point 0 1) (utils.Build_Point r 3));
    [reflexivity | reflexivity | lia | vm_compute; reflexivity].
Defined.

(** X19 with one blinding coefficient for three coefficients, and with four. *)
Lemma X19_hiding_prove_unequal_lengths_witness :
  ZkKzg.prove [G; g1_mul G 7] [g1_mul G 3; g1_mul G 21]
    [5; 4; 3] [1] 5 = Throw TypeError
  /\ exists com_qf,
       Kzg.prove [G; g1_mul G 7] [5; 4; 3] 5 = Ok com_qf
       /\ ZkKzg.prove [G; g1_mul G 7]
            [g1_mul G 3; g1_mul G 21; g1_mul G 147]
            [5; 4; 3] [1; 2; 3; 4] 5
          = Ok (g1_add com_qf
                  (msm [g1_mul G 3; g1_mul G 21; g1_mul G 147]
                       (take (length [5; 4; 3] - 1)
                             (quotient 5 [1; 2; 3; 4])))).
Proof.
  destruct (X19_hiding_prove_unequal_lengths (curve := Exponent.curve)
              [G; g1_mul G 7] [g1_mul G 3; g1_mul G 21]
              [5; 4; 3] [1] 5) as (H1 & _);
    [discriminate | discriminate | simpl; lia | simpl; lia
    | none_zero | none_zero |].
  destruct (X19_hiding_prove_unequal_lengths (curve := Exponent.curve)
              [G; g1_mul G 7]
              [g1_mul G 3; g1_mul G 21; g1_mul G 147]
              [5; 4; 3] [1; 2; 3; 4] 5) as (_ & H2);
    [discriminate | discriminate | simpl; lia | simpl; lia
    | none_zero | none_zero |].
  split; [apply H1; simpl; lia | apply H2; simpl; lia].
Defined.

(** X20 at degree 4, with [f = 5 + 4x + 3x^2 + 2x^3 + x^4] and [u = 5]. *)
Lemma X20_completeness_witness :
  exists s com_f com_q,
    Kzg.setup (curve := Exponent.curve) 4 123456789 = Ok s
    /\ Kzg.commit (Kzg.pp s) [5; 4; 3; 2; 1] = Ok com_f
    /\ Kzg.prove (Kzg.pp s) [5; 4; 3; 2; 1] 5 = Ok com_q
    /\ Kzg.verify com_f com_q 5
         (utils.evalPolyAt Kzg.Fr [5; 4; 3; 2; 1] 5) (Kzg.alpha_G2 s)
       = Ok true.
Proof.
  apply (X20_completeness (curve := Exponent.curve) 4 123456789
           [5; 4; 3; 2; 1] 5);
    [lia | in_range | reflexivity | all_in_range | none_zero | in_range
    | vm_compute; discriminate | vm_compute; discriminate].
Defined.

(** X21 at the same input, with the wrong value 999 instead of 975. *)
Lemma X21_soundness_witness :
  exists s com_f com_q,
    Kzg.setup (curve := Exponent.curve) 4 123456789 = Ok s
    /\ Kzg.commit (Kzg.pp s) [5; 4; 3; 2; 1] = Ok com_f
    /\ Kzg.prove (Kzg.pp s) [5; 4; 3; 2; 1] 5 = Ok com_q
    /\ Kzg.verify com_f com_q 5 999 (Kzg.alpha_G2 s) = Ok false.
Proof.
  apply (X21_soundness (curve := Exponent.curve) 4 123456789
           [5; 4; 3; 2; 1] 5 999);
    [lia | in_range | reflexivity | all_in_range | none_zero | in_range
    | vm_compute; discriminate | in_range
    | vm_compute; discriminate | vm_compute; discriminate].
Defined.

(** X22 at the same input: the forged proof for 999 is accepted. *)
Lemma X22_forgery_accepted_witness :
  exists s com_f com_q,
    CheatingKzg.setup (curve := Exponent.curve) 4 123456789 = Ok s
    /\ CheatingKzg.alpha s = 123456789
    /\ Kzg.commit (CheatingKzg.pp s) [5; 4; 3; 2; 1] = Ok com_f
    /\ CheatingKzg.prove (CheatingKzg.pp s) [5; 4; 3; 2; 1] 5 999
                         (CheatingKzg.alpha s) = Ok com_q
    /\ Kzg.verify com_f com_q 5 999 (CheatingKzg.alpha_G2 s) = Ok true.
Proof.
  apply (X22_forgery_accepted (curve := Exponent.curve) 4 123456789
           [5; 4; 3; 2; 1] 5 999);
    [lia | in_range | reflexivity | all_in_range | in_range
    | discriminate | in_range | vm_compute; discriminate].
Defined.

(** X23 at degree 4 with the scalar 0. *)
Lemma X23_setup_rejects_scalar_witness :
  (Kzg._setup (curve := Exponent.curve) 4 0 = Throw RangeError
   /\ Kzg.setup (curve := Exponent.curve) 4 0 = Throw RangeError
   /\ CheatingKzg.setup (curve := Exponent.curve) 4 0 = Throw RangeError
   /\ PolynomialCommitmentScheme.setup (curve := Exponent.curve) 4 0
      = Throw RangeError)
  /\ ZkKzg._setup (curve := Exponent.curve) 4 0 987654321 = Throw RangeError
  /\ ZkKzg.setup (curve := Exponent.curve) 4 0 987654321 = Throw RangeError.
Proof.
  destruct (X23_setup_rejects_scalar (curve := Exponent.curve) 4 0 987654321)
    as (H1 & H2); [lia|].
  split; [apply H1; lia | apply H2; lia].
Defined.

(** X24 on the commitment and proof of X8. *)
Lemma X24_verify_returns_witness :
  returns (Kzg.verify (g1_mul G 3267) (g1_mul G 1146) 5 975 (g2_mul G2 7)).
Proof.
  apply (proj2 (X24_verify_returns (curve := Exponent.curve)
                  (g1_mul G 3267) (g1_mul G 1146) 5 975 (g2_mul G2 7))).
  split; [in_range|]. split; [in_range|].
  split; [vm_compute; discriminate|].
  split; vm_compute; discriminate.
Defined.

End FurtherInstances.
